(** * Universal importer: a shallow embedding of [main.py]

    The pipeline of [main.py] validates a tabular dataset against a schema,
    loads it in the query engine, removes duplicates under a policy, applies
    custom rules and builds projections.  The Python functions are embedded
    as Rocq functions with explicit state passing: the stage table, the list
    of statements sent to the engine and the list of files written are
    threaded through the calls; Python exceptions are values of [Exn].

    What the libraries do is written out where the code depends on it:
    - a table is the list of its rows in ROWID order, a DataFrame the list
      of its rows in index order, and a [SELECT] without [ORDER BY] answers
      in ROWID order;
    - grouping, partitioning and [duplicated] compare cells by equality,
      null being equal to null;
    - column names are compared as written;
    - the statements of the deduplication and rule stages are given their
      relational meaning; the text of a projection is opaque, the engine
      accepting or refusing it ([engine_accepts]);
    - the model class, the engine's age comparison and the date read by a
      rule are parameters of the pipeline. *)

From Stdlib Require Import List String Ascii ZArith Lia Bool Arith.
Import ListNotations.
Local Open Scope string_scope.
Local Open Scope list_scope.

(** ** Scalars, rows and tables *)

(** A cell of a dataset: null (NaN / NULL), a number, a string or a date. *)
Inductive Value : Type :=
| VNull
| VInt (z : Z)
| VStr (s : string)
| VDate (y m d : Z).

Definition Value_eq_dec (a b : Value) : {a = b} + {a <> b}.
Proof. decide equality; auto using Z.eq_dec, string_dec. Defined.

Definition tuple_eq_dec : forall a b : list Value, {a = b} + {a <> b} :=
  list_eq_dec Value_eq_dec.

(** A row is what [record.to_dict()] gives: field name to value, in column
    order. *)
Definition Row : Type := list (string * Value).

Fixpoint get (c : string) (r : Row) : Value :=
  match r with
  | [] => VNull
  | (k, v) :: r' => if String.eqb c k then v else get c r'
  end.

(** A DataFrame or an engine table: its columns and its rows.  The rows of an
    engine table are listed in ROWID order, those of a DataFrame in index
    order; deleting rows keeps the order of the others. *)
Record Table : Type := mkTable { columns : list string; rows : list Row }.

Definition with_rows (t : Table) (rs : list Row) : Table :=
  mkTable (columns t) rs.

(** ** Exceptions *)

Inductive Exn : Type :=
| ValueError (msg : string)
| KeyError (key : string)
| EngineError (msg : string).

Inductive Result (A : Type) : Type :=
| Ok (a : A)
| Raise (e : Exn).
Arguments Ok {A} a.
Arguments Raise {A} e.

Definition bind {A B : Type} (m : Result A) (k : A -> Result B) : Result B :=
  match m with
  | Ok a => k a
  | Raise e => Raise e
  end.

Notation "x <- m ;; k" := (bind m (fun x => k))
  (at level 61, m at next level, right associativity).
Notation "' p <- m ;; k" := (bind m (fun p => k))
  (at level 61, p pattern, m at next level, right associativity).

(** ** Grouping by a composite key *)

Definition key_tuple (composite_key : list string) (r : Row) : list Value :=
  map (fun c => get c r) composite_key.

Definition tuple_eqb (a b : list Value) : bool :=
  if tuple_eq_dec a b then true else false.

Definition same_key (composite_key : list string) (t : list Value) (r : Row) : bool :=
  tuple_eqb (key_tuple composite_key r) t.

(** [COUNT( * )] of the group of [t]. *)
Definition group_count (composite_key : list string) (t : list Value)
  (rs : list Row) : nat :=
  List.length (filter (same_key composite_key t) rs).

(** The engine refuses a statement whose column list is empty (the text
    [GROUP BY  HAVING] does not parse) or names a column the table lacks.
    A key column is a column of the table, named as the table names it. *)
Definition bind_columns (t : Table) (cols : list string) : Result unit :=
  match cols with
  | [] => Raise (EngineError "Parser Error")
  | _ => if forallb (fun c => existsb (String.eqb c) (columns t)) cols
         then Ok tt
         else Raise (EngineError "Binder Error")
  end.

(** ** The statements of [remove_duplicates_from_stage_table] *)

(** [SELECT *]: the cells of the table's columns, in column order. *)
Definition select_star (t : Table) (r : Row) : Row :=
  map (fun c => (c, get c r)) (columns t).

(** [SELECT ROW(g) FROM stage GROUP BY g HAVING COUNT( * ) > 1] *)
Definition having_count_gt_1 (composite_key : list string) (rs : list Row)
  : list (list Value) :=
  filter (fun t => (1 <? group_count composite_key t rs)%nat)
         (nodup tuple_eq_dec (map (key_tuple composite_key) rs)).

(** [WHERE ROW(g) IN (...)] *)
Definition in_duplicated_group (composite_key : list string) (rs : list Row)
  (r : Row) : bool :=
  existsb (tuple_eqb (key_tuple composite_key r))
          (having_count_gt_1 composite_key rs).

Definition select_duplicated_groups (stage : Table) (composite_key : list string)
  : Result (list Row) :=
  _ <- bind_columns stage composite_key ;;
  Ok (map (select_star stage)
          (filter (in_duplicated_group composite_key (rows stage)) (rows stage))).

Definition delete_duplicated_groups (stage : Table) (composite_key : list string)
  : Result Table :=
  _ <- bind_columns stage composite_key ;;
  Ok (with_rows stage
        (filter (fun r => negb (in_duplicated_group composite_key (rows stage) r))
                (rows stage))).

(** [ROW_NUMBER() OVER (PARTITION BY g ORDER BY ROWID)]: a row is numbered
    one more than the rows of its partition that come before it; [seen]
    holds the rows already passed. *)
Fixpoint row_number_over (composite_key : list string) (seen : list Row)
  (rs : list Row) : list (Row * nat) :=
  match rs with
  | [] => []
  | r :: rs' =>
      (r, S (group_count composite_key (key_tuple composite_key r) seen))
        :: row_number_over composite_key (r :: seen) rs'
  end.

(** [SELECT * FROM (SELECT *, ROW_NUMBER() ... AS rn FROM stage) sub WHERE rn > 1]:
    the rows fetched carry the extra column [rn]. *)
Definition select_row_number_gt_1 (stage : Table) (composite_key : list string)
  : Result (list Row) :=
  _ <- bind_columns stage composite_key ;;
  Ok (map (fun p => select_star stage (fst p) ++ [("rn", VInt (Z.of_nat (snd p)))])
          (filter (fun p => (1 <? snd p)%nat)
                  (row_number_over composite_key [] (rows stage)))).

(** [DELETE FROM stage WHERE ROWID IN (SELECT ROWID FROM (...) sub WHERE rn > 1)] *)
Definition delete_row_number_gt_1 (stage : Table) (composite_key : list string)
  : Result Table :=
  _ <- bind_columns stage composite_key ;;
  Ok (with_rows stage
        (map fst (filter (fun p => negb (1 <? snd p)%nat)
                         (row_number_over composite_key [] (rows stage))))).

(** The loop over [unique_composite]; [duplicate_rows] is the list of
    fetched frames. *)
Fixpoint dedup_loop (unique_composite : list (list string))
  (duplicate_resolution : string) (stage : Table) (duplicate_rows : list (list Row))
  : Result (Table * list (list Row)) :=
  match unique_composite with
  | [] => Ok (stage, duplicate_rows)
  | composite_key :: rest =>
      if duplicate_resolution =? "exclude_all" then
        duplicates <- select_duplicated_groups stage composite_key ;;
        stage' <- delete_duplicated_groups stage composite_key ;;
        dedup_loop rest duplicate_resolution stage' (duplicate_rows ++ [duplicates])
      else if (duplicate_resolution =? "first") || (duplicate_resolution =? "last") then
        duplicates <- select_row_number_gt_1 stage composite_key ;;
        stage' <- delete_row_number_gt_1 stage composite_key ;;
        dedup_loop rest duplicate_resolution stage' (duplicate_rows ++ [duplicates])
      else
        dedup_loop rest duplicate_resolution stage duplicate_rows
  end.

(** [remove_duplicates_from_stage_table]: the stage table starts as a copy of
    the raw table; the result is the stage table left in the engine and the
    returned frame ([pd.concat] of the fetched frames, or the empty frame). *)
Definition remove_duplicates_from_stage_table (raw : Table)
  (unique_composite : list (list string)) (duplicate_resolution : string)
  : Result (Table * list Row) :=
  '(stage, duplicate_rows) <-
     dedup_loop unique_composite duplicate_resolution raw [] ;;
  Ok (stage, List.concat duplicate_rows).

(** ** The DataFrame operations of [remove_composite_duplicates] *)

(** The [keep] argument of [duplicated] and [drop_duplicates]: a string or
    [False]. *)
Inductive Keep : Type :=
| KeepStr (s : string)
| KeepFalse.

Definition check_subset (df : Table) (subset : list string) : Result unit :=
  match subset with
  | [] => Raise (ValueError "not enough values to unpack")
  | _ => match filter (fun c => negb (existsb (String.eqb c) (columns df))) subset with
         | [] => Ok tt
         | c :: _ => Raise (KeyError c)
         end
  end.

(** Marks a row when a row with the same key comes before it. *)
Fixpoint seen_before (subset : list string) (seen : list Row) (rs : list Row)
  : list bool :=
  match rs with
  | [] => []
  | r :: rs' =>
      (0 <? group_count subset (key_tuple subset r) seen)%nat
        :: seen_before subset (r :: seen) rs'
  end.

(** Marks a row when a row with the same key comes after it. *)
Fixpoint seen_after (subset : list string) (rs : list Row) : list bool :=
  match rs with
  | [] => []
  | r :: rs' =>
      (0 <? group_count subset (key_tuple subset r) rs')%nat
        :: seen_after subset rs'
  end.

Fixpoint zip_orb (a b : list bool) : list bool :=
  match a, b with
  | x :: a', y :: b' => (x || y) :: zip_orb a' b'
  | _, _ => []
  end.

(** [df.duplicated(subset=subset, keep=keep)]; an empty frame is answered
    before the arguments are looked at. *)
Definition duplicated (df : Table) (subset : list string) (keep : Keep)
  : Result (list bool) :=
  match rows df with
  | [] => Ok []
  | _ =>
      _ <- check_subset df subset ;;
      match keep with
      | KeepFalse =>
          Ok (zip_orb (seen_before subset [] (rows df)) (seen_after subset (rows df)))
      | KeepStr s =>
          if s =? "first" then Ok (seen_before subset [] (rows df))
          else if s =? "last" then Ok (seen_after subset (rows df))
          else Raise (ValueError "keep must be either first, last or False")
      end
  end.

(** [df[mask]] *)
Fixpoint mask_select (rs : list Row) (mask : list bool) : list Row :=
  match rs, mask with
  | r :: rs', b :: mask' =>
      if b then r :: mask_select rs' mask' else mask_select rs' mask'
  | _, _ => []
  end.

(** [df.drop_duplicates(subset=subset, keep=keep)] *)
Definition drop_duplicates (df : Table) (subset : list string) (keep : Keep)
  : Result Table :=
  mask <- duplicated df subset keep ;;
  Ok (with_rows df (mask_select (rows df) (map negb mask))).

Fixpoint composite_loop (unique_composite : list (list string))
  (resolution : string) (df : Table) (removed_rows : list (list Row))
  : Result (Table * list (list Row)) :=
  match unique_composite with
  | [] => Ok (df, removed_rows)
  | group :: rest =>
      if resolution =? "exclude_all" then
        mask <- duplicated df group KeepFalse ;;
        let duplicates := mask_select (rows df) mask in
        mask' <- duplicated df group KeepFalse ;;
        let df' := with_rows df (mask_select (rows df) (map negb mask')) in
        composite_loop rest resolution df' (removed_rows ++ [duplicates])
      else
        mask <- duplicated df group
                  (KeepStr (if resolution =? "last" then "first" else "last")) ;;
        let duplicates := mask_select (rows df) mask in
        df' <- drop_duplicates df group (KeepStr resolution) ;;
        composite_loop rest resolution df' (removed_rows ++ [duplicates])
  end.

(** [remove_composite_duplicates] *)
Definition remove_composite_duplicates (df : Table)
  (unique_composite : list (list string)) (resolution : string)
  : Result (Table * list Row) :=
  '(df', removed_rows) <- composite_loop unique_composite resolution df [] ;;
  Ok (df', List.concat removed_rows).

(** ** Schema validation *)

(** What calling the model class on a record does: it returns the validated
    record, or raises [ValidationError] with one [(loc[0], msg)] per failing
    field, or raises a plain [ValueError]. *)
Inductive ModelOutcome : Type :=
| Validated (validated_record : Row)
| ValidationError (errors : list (string * string))
| PlainValueError (msg : string).

Definition Model : Type := Row -> ModelOutcome.

Record ErrorRecord : Type := mkErrorRecord {
  row : nat;
  data : Row;
  errors : list string
}.

Fixpoint lookup {A : Type} (k : string) (d : list (string * A)) : option A :=
  match d with
  | [] => None
  | (k', v) :: d' => if String.eqb k k' then Some v else lookup k d'
  end.

(** [df.fillna({...})]: a null cell of a listed column takes its default. *)
Definition fillna (defaults : list (string * Value)) (r : Row) : Row :=
  map (fun kv =>
         match snd kv, lookup (fst kv) defaults with
         | VNull, Some d => (fst kv, d)
         | _, _ => kv
         end) r.

Definition nullable_defaults : list (string * Value) :=
  [("trial_period_ends_on", VStr "");
   ("ends_on", VStr "");
   ("es_contract_observations", VStr "");
   ("pt_contract_type_id", VInt 0)].

(** The loop [for index, record in df.iterrows()]; [index] counts from 0. *)
Fixpoint validate_loop (model : Model) (index : nat) (records : list Row)
  (valid_records : list Row) (error_records : list ErrorRecord)
  : list Row * list ErrorRecord :=
  match records with
  | [] => (valid_records, error_records)
  | record :: rest =>
      match model record with
      | Validated validated_record =>
          validate_loop model (S index) rest
            (valid_records ++ [validated_record]) error_records
      | ValidationError errs =>
          let error_message := map (fun e => (fst e ++ ": " ++ snd e)%string) errs in
          validate_loop model (S index) rest valid_records
            (error_records ++ [mkErrorRecord (index + 1) record error_message])
      | PlainValueError msg =>
          validate_loop model (S index) rest valid_records
            (error_records ++ [mkErrorRecord (index + 1) record [msg]])
      end
  end.

(** The columns of [pd.DataFrame(records)]: the keys of the records, each
    once, in order of first appearance.  A cell is read as a value: the
    change of number type pandas makes in a column with a missing cell is
    not told apart. *)
Fixpoint first_seen (seen : list string) (ks : list string) : list string :=
  match ks with
  | [] => []
  | k :: ks' =>
      if existsb (String.eqb k) seen then first_seen seen ks'
      else k :: first_seen (k :: seen) ks'
  end.

Definition DataFrame (records : list Row) : Table :=
  let cols := first_seen [] (List.concat (map (map fst) records)) in
  mkTable cols (map (fun r => map (fun c => (c, get c r)) cols) records).

(** [validate_records_with_pydantic]; the argument [custom_validations] of
    the Python function is not used by it. *)
Definition validate_records_with_pydantic (df : Table) (model : Model)
  : Table * list ErrorRecord :=
  let df := with_rows df (map (fillna nullable_defaults) (rows df)) in
  let '(valid_records, error_records) := validate_loop model 0 (rows df) [] [] in
  (DataFrame valid_records, error_records).

(** How the model sorts a record. *)
Definition accepts (model : Model) (r : Row) : bool :=
  match model r with
  | Validated _ => true
  | _ => false
  end.

Definition validated_of (model : Model) (r : Row) : list Row :=
  match model r with
  | Validated v => [v]
  | _ => []
  end.

Definition messages_of (model : Model) (r : Row) : list string :=
  match model r with
  | Validated _ => []
  | ValidationError errs => map (fun e => (fst e ++ ": " ++ snd e)%string) errs
  | PlainValueError msg => [msg]
  end.

Definition rejected (model : Model) (l : list (nat * Row)) : list (nat * Row) :=
  filter (fun p => negb (accepts model (snd p))) l.

(** ** Field schema *)

Record FieldRule : Type := mkFieldRule {
  type_name : option string;
  required : bool;
  pattern : option string;
  minimum : option Z
}.

Definition Schema : Type := list (string * FieldRule).

Definition in_schema (field : string) (schema : Schema) : bool :=
  existsb (String.eqb field) (map fst schema).

(** ** The engine session *)

(** The statements whose text does not come from the deduplication stage. *)
Inductive Statement : Type :=
| SelectWhereAgeLt (field today : string) (min_age : Z)
| DeleteWhereAgeLt (field today : string) (min_age : Z)
| CreateOrReplaceView (view_name query : string)
| CreateTableAs (table_name query : string)
| CopyToCsv (projection_name output_path : string)
| SelectCount (name : string).

Inductive Relation : Type :=
| View (query : string)
| Materialized (query : string).

(** The connection after the stage table exists: the stage table, the
    projections created so far and every statement sent, oldest first. *)
Record Engine : Type := mkEngine {
  stage_table : Table;
  catalog : list (string * Relation);
  executed : list Statement
}.

Definition sent (eng : Engine) (s : Statement) : Engine :=
  mkEngine (stage_table eng) (catalog eng) (executed eng ++ [s]).

Definition set_stage (eng : Engine) (t : Table) : Engine :=
  mkEngine t (catalog eng) (executed eng).

Fixpoint dict_set {A : Type} (k : string) (v : A) (d : list (string * A))
  : list (string * A) :=
  match d with
  | [] => [(k, v)]
  | (k', v') :: d' =>
      if String.eqb k k' then (k, v) :: d' else (k', v') :: dict_set k v d'
  end.

Definition set_relation (eng : Engine) (name : string) (r : Relation) : Engine :=
  mkEngine (stage_table eng) (dict_set name r (catalog eng)) (executed eng).

(** ** Python [str.replace] *)

Fixpoint starts_with (p s : string) : bool :=
  match p, s with
  | EmptyString, _ => true
  | String a p', String b s' => Ascii.eqb a b && starts_with p' s'
  | String _ _, EmptyString => false
  end.

(** Scan of [s] from the left; [skip] counts the characters of a match
    still to pass over. *)
Fixpoint replace_scan (old new : string) (skip : nat) (s : string) : string :=
  match s with
  | EmptyString => EmptyString
  | String c s' =>
      match skip with
      | S k => replace_scan old new k s'
      | O =>
          if starts_with old s
          then (new ++ replace_scan old new (String.length old - 1) s')%string
          else String c (replace_scan old new 0 s')
      end
  end.

(** With an empty [old], [new] is put before every character and at the
    end. *)
Fixpoint intersperse (new s : string) : string :=
  match s with
  | EmptyString => new
  | String c s' => (new ++ String c (intersperse new s'))%string
  end.

Definition replace (old new s : string) : string :=
  match old with
  | EmptyString => intersperse new s
  | _ => replace_scan old new 0 s
  end.

(** ** [os.path.join] *)

Fixpoint ends_with_sep (s : string) : bool :=
  match s with
  | EmptyString => false
  | String c EmptyString => Ascii.eqb c "/"
  | String _ s' => ends_with_sep s'
  end.

(** POSIX [os.path.join a b]: a [b] that starts with the separator replaces
    [a]; otherwise [b] is appended to [a], after a separator unless [a] is
    empty or ends with one. *)
Definition path_join (a b : string) : string :=
  if starts_with "/" b then b
  else if (a =? "") || ends_with_sep a then (a ++ b)%string
  else (a ++ "/" ++ b)%string.

(** ** Statements run on the session *)

(** A computation on the session: it leaves the session changed and either
    returns or raises; what was sent before an exception stays sent. *)
Definition M (A : Type) : Type := Engine -> Engine * Result A.

Definition ret {A : Type} (a : A) : M A := fun eng => (eng, Ok a).

Definition raise {A : Type} (e : Exn) : M A := fun eng => (eng, Raise e).

Definition bindM {A B : Type} (m : M A) (k : A -> M B) : M B :=
  fun eng =>
    match m eng with
    | (eng', Ok a) => k a eng'
    | (eng', Raise e) => (eng', Raise e)
    end.

Notation "x <~ m ;; k" := (bindM m (fun x => k))
  (at level 61, m at next level, right associativity).

(** [try: m except Exception: pass] *)
Definition swallow (m : M unit) : M unit :=
  fun eng => (fst (m eng), Ok tt).

Definition is_string (s : string) (o : option string) : bool :=
  match o with
  | Some s' => String.eqb s' s
  | None => false
  end.

(** [d[key]] on a dict that may lack the key. *)
Definition item {A : Type} (key : string) (o : option A) : M A :=
  match o with
  | Some a => ret a
  | None => raise (KeyError key)
  end.

(** ** Custom rules *)

Record CustomRule : Type := mkCustomRule {
  validation : option string;
  params : option (list (string * Z))
}.

Record Issue : Type := mkIssue {
  issue_field : string;
  issue_validation : string;
  invalid_rows : list Row
}.

Fixpoint eval_where (p : Row -> option bool) (rs : list Row) : option (list bool) :=
  match rs with
  | [] => Some []
  | r :: rs' =>
      match p r, eval_where p rs' with
      | Some b, Some bs => Some (b :: bs)
      | _, _ => None
      end
  end.

(** A projection spec as the configuration gives it; a key may be absent. *)
Record Projection : Type := mkProjection {
  proj_type : option string;
  proj_name : option string;
  proj_query : option string;
  proj_aliases : list (string * string)
}.

(** ** Error files *)

(** What [save_errors] is given: a DataFrame or a list of error records. *)
Inductive ErrorData : Type :=
| FrameData (frame : list Row)
| RecordData (records : list ErrorRecord).

(** [{"row": ..., "errors": "; ".join(...), **error["data"]}] *)
Definition error_row (e : ErrorRecord) : Row :=
  fold_left (fun d kv => dict_set (fst kv) (snd kv) d) (data e)
    [("row", VInt (Z.of_nat (row e)));
     ("errors", VStr (String.concat "; " (errors e)))].

Definition error_path (output_dir entity error_type : string) : string :=
  let error_dir := path_join output_dir "errors" in
  path_join error_dir (entity ++ "_" ++ error_type ++ "_errors.csv")%string.

(** [save_errors]: [files] is the list of files written so far, oldest
    first; nothing is written for empty data. *)
Definition save_errors (d : ErrorData) (error_type entity output_dir : string)
  (files : list (string * list Row)) : list (string * list Row) :=
  match d with
  | FrameData [] => files
  | FrameData frame => files ++ [(error_path output_dir entity error_type, frame)]
  | RecordData [] => files
  | RecordData records =>
      files ++ [(error_path output_dir entity error_type, map error_row records)]
  end.

(** How [main] ends. *)
Inductive Outcome : Type :=
| Completed
| StoppedOnSchemaErrors
| ConfigurationError (key : string)
| ValidationFailure (msg : string)
| UnexpectedError (msg : string).

(** The [except] clauses of [main]. *)
Definition handler (e : Exn) : Outcome :=
  match e with
  | KeyError k => ConfigurationError k
  | ValueError m => ValidationFailure m
  | EngineError m => UnexpectedError m
  end.

Record Run : Type := mkRun {
  files : list (string * list Row);
  outcome : Outcome;
  session : option Engine
}.

(** The messages of the two [ValueError]s the pipeline raises itself. *)
Definition failure_message (field : string) : string :=
  ("Custom validation failed for field '" ++ field ++ "' with age_gte.")%string.

Definition missing_field_message (original : string) : string :=
  ("Field '" ++ original ++ "' in aliases is not defined in the schema.")%string.

Section Pipeline.

(** The date string read by the [i]-th rule of the loop
    ([datetime.today().strftime(...)]). *)
Variable clock : nat -> string.

(** The engine's value of
    [DATE_PART('year', AGE(DATE today, CAST(v AS DATE))) < min_age] on one
    cell: [None] when the cast fails, [Some false] on NULL. *)
Variable age_lt : string -> Z -> Value -> option bool.

(** Whether the engine accepts a projection statement in a session. *)
Variable engine_accepts : Engine -> Statement -> bool.

(** [create_pydantic_model], which builds the model class from the
    schema by evaluating its type names. *)
Variable create_pydantic_model : Schema -> Model.

Definition where_age_lt (stage : Table) (field today : string) (min_age : Z)
  : Result (list bool) :=
  if existsb (String.eqb field) (columns stage) then
    match eval_where (fun r => age_lt today min_age (get field r)) (rows stage) with
    | Some mask => Ok mask
    | None => Raise (EngineError "Conversion Error")
    end
  else Raise (EngineError "Binder Error").

(** [conn.execute("SELECT * FROM stage WHERE ... < min_age").fetchdf()] *)
Definition fetch_age_lt (field today : string) (min_age : Z) : M (list Row) :=
  fun eng =>
    let eng' := sent eng (SelectWhereAgeLt field today min_age) in
    (eng',
     mask <- where_age_lt (stage_table eng') field today min_age ;;
     Ok (map (select_star (stage_table eng'))
             (mask_select (rows (stage_table eng')) mask))).

(** [conn.execute("DELETE FROM stage WHERE ... < min_age")] *)
Definition delete_age_lt (field today : string) (min_age : Z) : M unit :=
  fun eng =>
    let eng' := sent eng (DeleteWhereAgeLt field today min_age) in
    match where_age_lt (stage_table eng') field today min_age with
    | Ok mask =>
        (set_stage eng'
           (with_rows (stage_table eng')
              (mask_select (rows (stage_table eng')) (map negb mask))),
         Ok tt)
    | Raise e => (eng', Raise e)
    end.

Definition min_age_of (ps : list (string * Z)) : Z :=
  match lookup "min_age" ps with
  | Some z => z
  | None => 0%Z
  end.

(** The loop of [execute_custom_validations]; [i] is the position of the
    rule in the dict. *)
Fixpoint validations_loop (i : nat) (custom_validations : list (string * CustomRule))
  (validation_mode : string) (validation_issues : list Issue)
  (total_invalid_rows : nat) : M (list Issue * nat) :=
  match custom_validations with
  | [] => ret (validation_issues, total_invalid_rows)
  | (field, rule) :: rest =>
      if is_string "age_gte" (validation rule) then
        ps <~ item "params" (params rule) ;;
        let min_age := min_age_of ps in
        let today := clock i in
        rows_found <~ fetch_age_lt field today min_age ;;
        let total := total_invalid_rows + List.length rows_found in
        match rows_found with
        | [] => validations_loop (S i) rest validation_mode validation_issues total
        | _ =>
            let issues := validation_issues ++ [mkIssue field "age_gte" rows_found] in
            if validation_mode =? "stop" then
              raise (ValueError (failure_message field))
            else if validation_mode =? "skip" then
              _ <~ delete_age_lt field today min_age ;;
              validations_loop (S i) rest validation_mode issues total
            else
              validations_loop (S i) rest validation_mode issues total
        end
      else
        _ <~ item "validation" (validation rule) ;;
        validations_loop (S i) rest validation_mode validation_issues
          total_invalid_rows
  end.

Definition execute_custom_validations
  (custom_validations : list (string * CustomRule)) (validation_mode : string)
  : M (list Issue * nat) :=
  validations_loop 0 custom_validations validation_mode [] 0.

(** ** Readings of the rule stage *)

Definition select_of (i : nat) (p : string * CustomRule) : Statement :=
  SelectWhereAgeLt (fst p) (clock i)
    (match params (snd p) with Some ps => min_age_of ps | None => 0%Z end).

Definition delete_of (i : nat) (p : string * CustomRule) : Statement :=
  DeleteWhereAgeLt (fst p) (clock i)
    (match params (snd p) with Some ps => min_age_of ps | None => 0%Z end).

(** The [SELECT] statements of the rules from position [i] on. *)
Fixpoint selects (i : nat) (custom_validations : list (string * CustomRule))
  : list Statement :=
  match custom_validations with
  | [] => []
  | p :: rest => select_of i p :: selects (S i) rest
  end.

Definition is_select (s : Statement) : bool :=
  match s with
  | SelectWhereAgeLt _ _ _ => true
  | _ => false
  end.

(** Whether row [r] violates the rule at position [i]. *)
Definition violates (i : nat) (p : string * CustomRule) (r : Row) : bool :=
  match params (snd p) with
  | Some ps =>
      match age_lt (clock i) (min_age_of ps) (get (fst p) r) with
      | Some b => b
      | None => false
      end
  | None => false
  end.

(** The rule at position [i] is an [age_gte] rule with parameters, on a
    column of the table, and the engine can cast every cell of it. *)
Definition evaluable (stage : Table) (i : nat) (p : string * CustomRule) : bool :=
  is_string "age_gte" (validation (snd p))
  && match params (snd p) with
     | Some ps =>
         existsb (String.eqb (fst p)) (columns stage)
         && forallb (fun r =>
                       match age_lt (clock i) (min_age_of ps) (get (fst p) r) with
                       | Some _ => true
                       | None => false
                       end) (rows stage)
     | None => false
     end.

Fixpoint all_evaluable (stage : Table) (i : nat)
  (custom_validations : list (string * CustomRule)) : bool :=
  match custom_validations with
  | [] => true
  | p :: rest => evaluable stage i p && all_evaluable stage (S i) rest
  end.

(** Skip mode as the specification words it: every rule, in order, takes
    its violating rows out of the rows left by the rules before it and
    records them under its field. *)
Fixpoint skip_violations (i : nat) (custom_validations : list (string * CustomRule))
  (rs : list Row) : list (string * list Row) * list Row :=
  match custom_validations with
  | [] => ([], rs)
  | p :: rest =>
      let '(entries, final) :=
        skip_violations (S i) rest (filter (fun r => negb (violates i p r)) rs) in
      ((fst p, filter (violates i p) rs) :: entries, final)
  end.

Definition entry_of_issue (x : Issue) : string * list Row :=
  (issue_field x, invalid_rows x).

Definition nonempty_entry (e : string * list Row) : bool :=
  match snd e with
  | [] => false
  | _ => true
  end.

(** What one turn of the loop of [execute_custom_validations] does with
    the rule at position [i]: it goes on to the next rule with a session,
    the issue it recorded (if any) and the number of rows it found, or it
    raises. *)
Inductive Turn : Type :=
| GoOn (eng : Engine) (recorded : list Issue) (found : nat)
| Stop (eng : Engine) (e : Exn).

Definition turn (i : nat) (p : string * CustomRule) (validation_mode : string)
  (eng : Engine) : Turn :=
  if is_string "age_gte" (validation (snd p)) then
    match params (snd p) with
    | None => Stop eng (KeyError "params")
    | Some ps =>
        let eng1 := sent eng (select_of i p) in
        match where_age_lt (stage_table eng) (fst p) (clock i) (min_age_of ps) with
        | Raise e => Stop eng1 e
        | Ok mask =>
            match map (select_star (stage_table eng))
                      (mask_select (rows (stage_table eng)) mask) with
            | [] => GoOn eng1 [] 0
            | rows_found =>
                let issue := mkIssue (fst p) "age_gte" rows_found in
                if validation_mode =? "stop" then
                  Stop eng1 (ValueError (failure_message (fst p)))
                else if validation_mode =? "skip" then
                  GoOn (set_stage (sent eng1 (delete_of i p))
                          (with_rows (stage_table eng)
                             (mask_select (rows (stage_table eng)) (map negb mask))))
                       [issue] (List.length rows_found)
                else GoOn eng1 [issue] (List.length rows_found)
            end
        end
    end
  else
    match validation (snd p) with
    | None => Stop eng (KeyError "validation")
    | Some _ => GoOn eng [] 0
    end.

(** Every rule against the whole table, none taking rows from the next. *)
Fixpoint full_violations (i : nat) (custom_validations : list (string * CustomRule))
  (rs : list Row) : list (string * list Row) :=
  match custom_validations with
  | [] => []
  | p :: rest => (fst p, filter (violates i p) rs) :: full_violations (S i) rest rs
  end.

(** ** Projections *)

Fixpoint aliases_loop (query : string) (aliases : list (string * string))
  (schema : Schema) : Result string :=
  match aliases with
  | [] => Ok query
  | (original, alias) :: rest =>
      if in_schema original schema then
        aliases_loop (replace original (original ++ " AS " ++ alias)%string query)
          rest schema
      else
        Raise (ValueError (missing_field_message original))
  end.

Definition apply_aliases (query : string) (aliases : list (string * string))
  (schema : Schema) : Result string :=
  match aliases with
  | [] => Ok query
  | _ => aliases_loop query aliases schema
  end.

Definition relation_of (s : Statement) : option (string * Relation) :=
  match s with
  | CreateOrReplaceView n q => Some (n, View q)
  | CreateTableAs n q => Some (n, Materialized q)
  | _ => None
  end.

(** [conn.execute] of a projection statement. *)
Definition execute (s : Statement) : M unit :=
  fun eng =>
    let eng' := sent eng s in
    if engine_accepts eng s then
      match relation_of s with
      | Some (n, r) => (set_relation eng' n r, Ok tt)
      | None => (eng', Ok tt)
      end
    else (eng', Raise (EngineError "rejected")).

(** The body shared by [create_views_with_projection] and
    [create_tables_with_projection], which differ by the type they select
    and the statement they send. *)
Fixpoint create_with_projection (kind : string)
  (statement : string -> string -> Statement) (table : string)
  (projections : list Projection) (schema : Schema) : M unit :=
  match projections with
  | [] => ret tt
  | proj_details :: rest =>
      if negb (is_string kind (proj_type proj_details)) then
        create_with_projection kind statement table rest schema
      else
        name <~ item "name" (proj_name proj_details) ;;
        query <~ item "query" (proj_query proj_details) ;;
        if query =? "" then
          create_with_projection kind statement table rest schema
        else
          let query := replace table (table ++ "_stage")%string query in
          match apply_aliases query (proj_aliases proj_details) schema with
          | Raise (ValueError _) =>
              create_with_projection kind statement table rest schema
          | Raise e => raise e
          | Ok query =>
              _ <~ swallow (execute (statement name query)) ;;
              create_with_projection kind statement table rest schema
          end
  end.

Definition create_views_with_projection : string -> list Projection -> Schema -> M unit :=
  create_with_projection "view" CreateOrReplaceView.

Definition create_tables_with_projection : string -> list Projection -> Schema -> M unit :=
  create_with_projection "table" CreateTableAs.

(** The [output_path] of [export_views_to_csv] for a projection. *)
Definition export_path (output_dir projection_name : string) : string :=
  let export_dir := path_join output_dir "exports" in
  path_join export_dir (projection_name ++ ".csv")%string.

(** [export_views_to_csv] *)
Fixpoint export_views_to_csv (projections : list Projection) (output_dir : string)
  : M unit :=
  match projections with
  | [] => ret tt
  | proj_details :: rest =>
      projection_name <~ item "name" (proj_name proj_details) ;;
      projection_type <~ item "type" (proj_type proj_details) ;;
      if (projection_type =? "view") || (projection_type =? "table") then
        _ <~ swallow (execute (CopyToCsv projection_name
                                 (export_path output_dir projection_name))) ;;
        export_views_to_csv rest output_dir
      else export_views_to_csv rest output_dir
  end.

(** The loop of [get_projection_summary] and of [generate_summary]: one
    row count per projection, a failure being reported in the summary. *)
Fixpoint count_projections (projections : list Projection) : M unit :=
  match projections with
  | [] => ret tt
  | projection :: rest =>
      name <~ item "name" (proj_name projection) ;;
      _ <~ item "type" (proj_type projection) ;;
      _ <~ swallow (execute (SelectCount name)) ;;
      count_projections rest
  end.

Definition validate_format_with_pydantic (df : Table) (schema_definition : Schema)
  : Table * list ErrorRecord :=
  validate_records_with_pydantic df (create_pydantic_model schema_definition).

Definition save_issue (entity output_dir : string)
  (fs : list (string * list Row)) (issue : Issue) : list (string * list Row) :=
  match invalid_rows issue with
  | [] => fs
  | found =>
      save_errors (FrameData found) ("custom_" ++ issue_field issue)%string
        entity output_dir fs
  end.

(** [main], from the dataset read from the source and the entity's
    configuration. *)
Definition main (entity output_dir : string) (df : Table) (schema_fields : Schema)
  (rules : list (string * CustomRule))
  (duplicate_resolution custom_validation_mode : string)
  (unique_composite : list (list string)) (projections : list Projection) : Run :=
  let custom_validations :=
    fold_left (fun d fr => dict_set (fst fr) (snd fr) d) rules [] in
  let '(valid_records, schema_errors) :=
    validate_format_with_pydantic df schema_fields in
  let files1 :=
    match schema_errors with
    | [] => []
    | _ => save_errors (RecordData schema_errors) "schema_validation"
             entity output_dir []
    end in
  if match schema_errors with [] => false | _ => custom_validation_mode =? "stop" end
  then mkRun files1 StoppedOnSchemaErrors None
  else
    match remove_duplicates_from_stage_table valid_records unique_composite
            duplicate_resolution with
    | Raise e => mkRun files1 (handler e) None
    | Ok (stage, duplicate_rows) =>
        let files2 :=
          match duplicate_rows with
          | [] => files1
          | _ => save_errors (FrameData duplicate_rows) "duplicates"
                   entity output_dir files1
          end in
        match execute_custom_validations custom_validations custom_validation_mode
                (mkEngine stage [] []) with
        | (eng, Raise e) => mkRun files2 (handler e) (Some eng)
        | (eng, Ok (validation_issues, total_invalid_rows)) =>
            let files3 :=
              fold_left (save_issue entity output_dir) validation_issues files2 in
            match (_ <~ create_views_with_projection entity projections schema_fields ;;
                   _ <~ create_tables_with_projection entity projections schema_fields ;;
                   _ <~ export_views_to_csv projections output_dir ;;
                   _ <~ count_projections projections ;;
                   count_projections projections) eng with
            | (eng', Raise e) => mkRun files3 (handler e) (Some eng')
            | (eng', Ok _) => mkRun files3 Completed (Some eng')
            end
        end
    end.

End Pipeline.

(** ** The configuration *)

(** A value of the YAML document as [yaml.safe_load] returns it: [YNum]
    stands for a number or any other scalar that is neither a string, a
    boolean nor null.  A mapping is listed with its string keys, read by
    [lookup]; the program looks up no other key. *)
#[local] Unset Elimination Schemes.
Inductive Yaml : Type :=
| YNull
| YBool (b : bool)
| YNum (z : Z)
| YStr (s : string)
| YList (items : list Yaml)
| YMap (entries : list (string * Yaml)).
#[local] Set Elimination Schemes.

(** What [validate_config] raises: its own [KeyError]s, the [KeyError] of a
    subscript, and the [TypeError] and [AttributeError] of an operation on
    a value of the wrong type. *)
Inductive ConfigExn : Type :=
| ConfigKeyError (message : string)
| ConfigTypeError
| ConfigAttributeError.

Inductive Checked (A : Type) : Type :=
| Passed (a : A)
| Failed (e : ConfigExn).
Arguments Passed {A} a.
Arguments Failed {A} e.

Definition and_then {A B : Type} (m : Checked A) (k : A -> Checked B) : Checked B :=
  match m with
  | Passed a => k a
  | Failed e => Failed e
  end.

Notation "x <-- m ;; k" := (and_then m (fun x => k))
  (at level 61, m at next level, right associativity).

Definition is_some {A : Type} (o : option A) : bool :=
  match o with Some _ => true | None => false end.

(** [p in s] for two strings: [p] is a substring of [s]. *)
Fixpoint contains (p s : string) : bool :=
  starts_with p s
  || match s with
     | EmptyString => false
     | String _ s' => contains p s'
     end.

(** [key in container] for a string [key]: a key of a mapping, a substring
    of a string, an item of a list; any other value is not iterable. *)
Definition py_in (key : string) (container : Yaml) : Checked bool :=
  match container with
  | YMap entries => Passed (is_some (lookup key entries))
  | YStr s => Passed (contains key s)
  | YList items =>
      Passed (existsb (fun item => match item with
                                   | YStr s => key =? s
                                   | _ => false
                                   end) items)
  | YNull | YBool _ | YNum _ => Failed ConfigTypeError
  end.

(** [container.get(key, default)]: only a mapping has [get]. *)
Definition py_get (container : Yaml) (key : string) (default : Yaml) : Checked Yaml :=
  match container with
  | YMap entries =>
      Passed (match lookup key entries with Some v => v | None => default end)
  | _ => Failed ConfigAttributeError
  end.

(** [container[key]] for a string [key]: a string and a list take integer
    indices, the other values no subscript. *)
Definition py_item (container : Yaml) (key : string) : Checked Yaml :=
  match container with
  | YMap entries =>
      match lookup key entries with
      | Some v => Passed v
      | None => Failed (ConfigKeyError key)
      end
  | _ => Failed ConfigTypeError
  end.

Definition entity_not_found_message (entity : string) : string :=
  ("Error: Entity '" ++ entity ++ "' not found in the configuration.")%string.

Definition missing_configuration_message (key entity : string) : string :=
  ("Missing required configuration '" ++ key ++ "' for entity '" ++ entity ++ "'.")%string.

Definition missing_setting_message (key entity : string) : string :=
  ("Missing '" ++ key ++ "' in settings for entity '" ++ entity ++ "'.")%string.

(** The loop [for key in required_keys]. *)
Fixpoint required_keys_loop (entity : string) (entity_details : Yaml)
  (keys : list string) : Checked unit :=
  match keys with
  | [] => Passed tt
  | key :: rest =>
      present <-- py_in key entity_details ;;
      if negb present then
        Failed (ConfigKeyError (missing_configuration_message key entity))
      else required_keys_loop entity entity_details rest
  end.

Definition validate_config (config : Yaml) (entity : string) : Checked Yaml :=
  entities <-- py_get config "transformations_config" (YMap []) ;;
  known <-- py_in entity entities ;;
  if negb known then Failed (ConfigKeyError (entity_not_found_message entity))
  else
    entities <-- py_item config "transformations_config" ;;
    entity_details <-- py_item entities entity ;;
    let required_keys := ["source"; "settings"; "validations"]%string in
    _ <-- required_keys_loop entity entity_details required_keys ;;
    settings <-- py_get entity_details "settings" (YMap []) ;;
    has_resolution <-- py_in "duplicate_resolution" settings ;;
    if negb has_resolution then
      Failed (ConfigKeyError (missing_setting_message "duplicate_resolution" entity))
    else
      has_mode <-- py_in "custom_validation_mode" settings ;;
      if negb has_mode then
        Failed (ConfigKeyError (missing_setting_message "custom_validation_mode" entity))
      else Passed entity_details.

(** ** A sample engine *)

Definition digit (c : ascii) : option Z :=
  let n := nat_of_ascii c in
  if ((48 <=? n) && (n <=? 57))%nat then Some (Z.of_nat (n - 48)) else None.

Fixpoint digits (acc : Z) (s : string) : option Z :=
  match s with
  | EmptyString => Some acc
  | String c s' =>
      match digit c with
      | Some d => digits (10 * acc + d) s'
      | None => None
      end
  end.

(** Reads [YYYY-MM-DD]. *)
Definition parse_date (s : string) : option (Z * Z * Z) :=
  if ((String.length s =? 10)%nat
      && is_string "-" (Some (substring 4 1 s))
      && is_string "-" (Some (substring 7 1 s)))%bool
  then
    match digits 0 (substring 0 4 s), digits 0 (substring 5 2 s),
          digits 0 (substring 8 2 s) with
    | Some y, Some m, Some d => Some (y, m, d)
    | _, _, _ => None
    end
  else None.

(** Whole years from [d] to [t]. *)
Definition age_years (t d : Z * Z * Z) : Z :=
  let '(ty, tm, td) := t in
  let '(dy, dm, dd) := d in
  (ty - dy - (if (tm <? dm) || ((tm =? dm) && (td <? dd)) then 1 else 0))%Z.

Definition sample_age_lt (today : string) (min_age : Z) (v : Value) : option bool :=
  match parse_date today with
  | None => None
  | Some t =>
      match v with
      | VNull => Some false
      | VDate y m d => Some (age_years t (y, m, d) <? min_age)%Z
      | VStr s =>
          match parse_date s with
          | Some d => Some (age_years t d <? min_age)%Z
          | None => None
          end
      | VInt _ => None
      end
  end.

Definition sample_clock (_ : nat) : string := "2026-11-04".

Definition accept_all (_ : Engine) (_ : Statement) : bool := true.

(** The table of [tests/test_main.py]. *)
Definition employees_stage : Table :=
  mkTable ["employee_id"; "birthday_on"]
    [[("employee_id", VInt 1); ("birthday_on", VDate 2000 1 1)];
     [("employee_id", VInt 2); ("birthday_on", VDate 2010 1 1)];
     [("employee_id", VInt 3); ("birthday_on", VDate 1995 5 15)]].

Definition age_rule (min_age : Z) : CustomRule :=
  mkCustomRule (Some "age_gte") (Some [("min_age", min_age)]).

Definition row3 (a b v : Z) : Row := [("a", VInt a); ("b", VInt b); ("v", VInt v)].

Definition ties : Table :=
  mkTable ["a"; "b"; "v"] [row3 1 1 10; row3 1 1 20; row3 1 1 30].

Definition overlap : Table :=
  mkTable ["a"; "b"; "v"] [row3 1 1 10; row3 1 2 20; row3 2 2 30].

Definition employee_schema : Schema :=
  [("employee_id", mkFieldRule (Some "int") true None None);
   ("birthday_on", mkFieldRule (Some "str") true None None)].

Definition view_ids : Projection :=
  mkProjection (Some "view") (Some "ids") (Some "SELECT employee_id FROM employees")
    [("employee_id", "id")].

Definition view_salaries : Projection :=
  mkProjection (Some "view") (Some "salaries") (Some "SELECT salary FROM employees")
    [("salary", "pay")].

Definition view_birthdays : Projection :=
  mkProjection (Some "view") (Some "birthdays") (Some "SELECT birthday_on FROM employees")
    [].

(** The dataset of the test with the third employee entered twice. *)
Definition employees_csv : Table :=
  mkTable ["employee_id"; "birthday_on"]
    [[("employee_id", VInt 1); ("birthday_on", VDate 2000 1 1)];
     [("employee_id", VInt 2); ("birthday_on", VDate 2010 1 1)];
     [("employee_id", VInt 3); ("birthday_on", VDate 1995 5 15)];
     [("employee_id", VInt 3); ("birthday_on", VDate 1995 5 15)]].

Definition accept_record (_ : Schema) : Model := fun r => Validated r.

Definition sample_run (custom_validation_mode : string) : Run :=
  main sample_clock sample_age_lt accept_all accept_record "employees" "output"
    employees_csv employee_schema [("birthday_on", age_rule 18)]
    "first" custom_validation_mode [["employee_id"]] [].

(** ** Order-preserving selections *)

(** [subsequence l1 l2]: [l1] is [l2] with some elements left out, the
    others in their order. *)
Inductive subsequence {A : Type} : list A -> list A -> Prop :=
| subsequence_nil : subsequence [] []
| subsequence_keep (x : A) (l1 l2 : list A) :
    subsequence l1 l2 -> subsequence (x :: l1) (x :: l2)
| subsequence_drop (x : A) (l1 l2 : list A) :
    subsequence l1 l2 -> subsequence l1 (x :: l2).

(** The error types a run can write a file for, in the order it writes
    them, for the fields [fields] of the rule stage's issues. *)
Definition error_types (fields : list string) : list string :=
  "schema_validation"%string :: "duplicates"%string
    :: map (String.append "custom_") fields.

(** The policies the engine implementation knows. *)
Definition known_policy (duplicate_resolution : string) : bool :=
  (duplicate_resolution =? "exclude_all") || (duplicate_resolution =? "first")
  || (duplicate_resolution =? "last").

(** The [COPY] statements of [export_views_to_csv] for a list of
    projections that have their [name] and [type] keys. *)
Definition copy_statements (output_dir : string) (projections : list Projection)
  : list Statement :=
  flat_map (fun p =>
              match proj_name p, proj_type p with
              | Some n, Some t =>
                  if (t =? "view") || (t =? "table")
                  then [CopyToCsv n (export_path output_dir n)]
                  else []
              | _, _ => []
              end) projections.

(** * Properties *)

(** ** Keys and groups *)

Lemma tuple_eqb_eq (a b : list Value) : tuple_eqb a b = true <-> a = b.
Proof. unfold tuple_eqb; destruct (tuple_eq_dec a b); split; congruence. Qed.

Lemma tuple_eqb_refl (a : list Value) : tuple_eqb a a = true.
Proof. now apply tuple_eqb_eq. Qed.

Lemma same_key_own (key : list string) (r : Row) :
  same_key key (key_tuple key r) r = true.
Proof. apply tuple_eqb_refl. Qed.

Lemma same_key_iff (key : list string) (t : list Value) (r : Row) :
  same_key key t r = true <-> key_tuple key r = t.
Proof. apply tuple_eqb_eq. Qed.

Lemma group_count_cons (key : list string) (t : list Value) (r : Row) (rs : list Row) :
  group_count key t (r :: rs) =
  (if same_key key t r then 1 else 0) + group_count key t rs.
Proof. unfold group_count; simpl; now destruct (same_key key t r). Qed.

Lemma group_count_app (key : list string) (t : list Value) (l1 l2 : list Row) :
  group_count key t (l1 ++ l2) = group_count key t l1 + group_count key t l2.
Proof. unfold group_count; now rewrite filter_app, length_app. Qed.

Lemma group_count_pos_in (key : list string) (t : list Value) (rs : list Row) :
  0 < group_count key t rs -> In t (map (key_tuple key) rs).
Proof.
  induction rs as [|r rs IH]; simpl; [unfold group_count; simpl; lia|].
  rewrite group_count_cons.
  destruct (same_key key t r) eqn:E.
  - intros _; left; now apply same_key_iff.
  - intros H; right; apply IH; lia.
Qed.

Lemma in_duplicated_group_count (key : list string) (rs : list Row) (r : Row) :
  in_duplicated_group key rs r = (1 <? group_count key (key_tuple key r) rs)%nat.
Proof.
  unfold in_duplicated_group, having_count_gt_1.
  apply eq_true_iff_eq; rewrite existsb_exists, Nat.ltb_lt; split.
  - intros (t & Hin & Heq). apply tuple_eqb_eq in Heq; subst t.
    apply filter_In in Hin; destruct Hin as [_ H]; now apply Nat.ltb_lt in H.
  - intros H. exists (key_tuple key r); split; [|apply tuple_eqb_refl].
    apply filter_In; split; [|now apply Nat.ltb_lt].
    apply nodup_In, group_count_pos_in; lia.
Qed.

Lemma filter_same_key_filter (key : list string) (t : list Value)
  (p : list Value -> bool) (rs : list Row) :
  filter (same_key key t) (filter (fun r => p (key_tuple key r)) rs) =
  if p t then filter (same_key key t) rs else [].
Proof.
  induction rs as [|r rs IH]; simpl; [now destruct (p t)|].
  assert (Hk : same_key key t r = true -> p (key_tuple key r) = p t).
  { intros E; apply same_key_iff in E; now rewrite E. }
  destruct (same_key key t r) eqn:E.
  - rewrite Hk by reflexivity. destruct (p t); simpl; rewrite ?E, IH; reflexivity.
  - destruct (p (key_tuple key r)); simpl; rewrite ?E, IH; reflexivity.
Qed.

(** ** Column binding *)

Lemma bind_columns_ok (t : Table) (key : list string) :
  key <> [] -> (forall c, In c key -> In c (columns t)) ->
  bind_columns t key = Ok tt.
Proof.
  intros Hne Hin. unfold bind_columns. destruct key as [|c key]; [congruence|].
  replace (forallb _ (c :: key)) with true; [reflexivity|].
  symmetry; apply forallb_forall; intros x Hx.
  apply existsb_exists; exists x; split; [now apply Hin | apply String.eqb_refl].
Qed.

Lemma bind_columns_with_rows (t : Table) (rs : list Row) (key : list string) :
  bind_columns (with_rows t rs) key = bind_columns t key.
Proof. reflexivity. Qed.

Lemma get_app_in (c : string) (r1 r2 : Row) :
  In c (map fst r1) -> get c (r1 ++ r2) = get c r1.
Proof.
  induction r1 as [|[k v] r1 IH]; simpl; [tauto|].
  destruct (String.eqb c k) eqn:E; [reflexivity|].
  intros [H|H]; [subst; now rewrite String.eqb_refl in E | now apply IH].
Qed.

Lemma get_select_star (t : Table) (r : Row) (c : string) :
  In c (columns t) -> get c (select_star t r) = get c r.
Proof.
  unfold select_star. induction (columns t) as [|k ks IH]; simpl; [tauto|].
  destruct (String.eqb c k) eqn:E.
  - apply String.eqb_eq in E; now subst.
  - intros [H|H]; [subst; now rewrite String.eqb_refl in E | now apply IH].
Qed.

Lemma key_tuple_select_star (t : Table) (key : list string) (r : Row) (extra : Row) :
  (forall c, In c key -> In c (columns t)) ->
  key_tuple key (select_star t r ++ extra) = key_tuple key r.
Proof.
  intros H. unfold key_tuple. apply map_ext_in; intros c Hc.
  rewrite get_app_in.
  - now apply get_select_star, H.
  - unfold select_star; rewrite map_map; simpl; rewrite map_id; now apply H.
Qed.

Lemma group_count_select_star (t : Table) (key : list string) (tu : list Value)
  (rs : list Row) :
  (forall c, In c key -> In c (columns t)) ->
  group_count key tu (map (select_star t) rs) = group_count key tu rs.
Proof.
  intros H. induction rs as [|r rs IH]; [reflexivity|].
  simpl map. rewrite !group_count_cons, IH. unfold same_key.
  rewrite <- (app_nil_r (select_star t r)), key_tuple_select_star by assumption.
  reflexivity.
Qed.

Lemma group_count_map_ext {A : Type} (key : list string) (t : list Value)
  (f g : A -> Row) (l : list A) :
  (forall x, key_tuple key (f x) = key_tuple key (g x)) ->
  group_count key t (map f l) = group_count key t (map g l).
Proof.
  intros H. induction l as [|x l IH]; [reflexivity|].
  simpl map. rewrite !group_count_cons, IH. unfold same_key. now rewrite H.
Qed.

(** ** One pass of the engine's deduplication *)

Lemma excluded_group_count (key : list string) (t : list Value) (rs : list Row) :
  group_count key t (filter (in_duplicated_group key rs) rs) =
  if (1 <? group_count key t rs)%nat then group_count key t rs else 0.
Proof.
  unfold group_count at 1.
  rewrite (filter_ext (in_duplicated_group key rs)
             (fun r => (1 <? group_count key (key_tuple key r) rs)%nat))
    by (intros r; apply in_duplicated_group_count).
  rewrite (filter_same_key_filter key t (fun k => (1 <? group_count key k rs)%nat)).
  now destruct (1 <? group_count key t rs)%nat.
Qed.

Lemma not_excluded_group_count (key : list string) (t : list Value) (rs : list Row) :
  group_count key t (filter (fun r => negb (in_duplicated_group key rs r)) rs) =
  if (1 <? group_count key t rs)%nat then 0 else group_count key t rs.
Proof.
  unfold group_count at 1.
  rewrite (filter_ext (fun r => negb (in_duplicated_group key rs r))
             (fun r => negb (1 <? group_count key (key_tuple key r) rs)%nat))
    by (intros r; now rewrite in_duplicated_group_count).
  rewrite (filter_same_key_filter key t (fun k => negb (1 <? group_count key k rs)%nat)).
  now destruct (1 <? group_count key t rs)%nat.
Qed.

Lemma row_number_fst (key : list string) (seen rs : list Row) :
  map fst (row_number_over key seen rs) = rs.
Proof.
  revert seen; induction rs as [|r rs IH]; intros seen; simpl; [reflexivity|].
  now rewrite IH.
Qed.

Lemma row_number_kept_count (key : list string) (t : list Value) (seen rs : list Row) :
  group_count key t
    (map fst (filter (fun p => negb (1 <? snd p)%nat) (row_number_over key seen rs))) =
  if (0 <? group_count key t seen)%nat then 0 else Nat.min 1 (group_count key t rs).
Proof.
  revert seen; induction rs as [|r rs IH]; intros seen; simpl.
  - unfold group_count; simpl; now destruct (0 <? _)%nat.
  - assert (Hk : same_key key t r = true -> key_tuple key r = t)
      by apply same_key_iff.
    destruct (same_key key t r) eqn:E.
    + rewrite Hk by reflexivity.
      destruct (group_count key t seen) as [|n] eqn:G; simpl.
      * rewrite group_count_cons, E, IH, !group_count_cons, E, G. reflexivity.
      * rewrite IH, group_count_cons, E, G. reflexivity.
    + destruct (negb _); simpl; rewrite ?group_count_cons, ?E, IH, !group_count_cons, E;
        reflexivity.
Qed.

Lemma row_number_dups_count (key : list string) (t : list Value) (seen rs : list Row) :
  group_count key t
    (map fst (filter (fun p => (1 <? snd p)%nat) (row_number_over key seen rs))) =
  group_count key t rs - (if (0 <? group_count key t seen)%nat then 0 else 1).
Proof.
  revert seen; induction rs as [|r rs IH]; intros seen; [reflexivity|].
  cbn [row_number_over filter snd].
  change (1 <? S (group_count key (key_tuple key r) seen))%nat
    with (0 <? group_count key (key_tuple key r) seen)%nat.
  assert (Hk : same_key key t r = true -> key_tuple key r = t)
    by apply same_key_iff.
  destruct (same_key key t r) eqn:E.
  - rewrite Hk by reflexivity.
    destruct (group_count key t seen) as [|n] eqn:G; cbn [Nat.ltb Nat.leb map fst].
    + rewrite IH, !group_count_cons, E, G. simpl. lia.
    + rewrite group_count_cons, E, IH, !group_count_cons, E, G. simpl. lia.
  - destruct (0 <? group_count key (key_tuple key r) seen)%nat; cbn [map fst];
      rewrite ?group_count_cons, ?E, IH, !group_count_cons, E; reflexivity.
Qed.

(** The engine's two branches do not look at the policy beyond choosing the
    branch: [first] and [last] run the same statements. *)
Lemma dedup_loop_last_is_first (ks : list (list string)) (stage : Table)
  (acc : list (list Row)) :
  dedup_loop ks "last" stage acc = dedup_loop ks "first" stage acc.
Proof.
  revert stage acc; induction ks as [|k ks IH]; intros stage acc; [reflexivity|].
  cbn [dedup_loop]. change ("last" =? "exclude_all") with false.
  change ("first" =? "exclude_all") with false. cbn [orb String.eqb Ascii.eqb Bool.eqb andb].
  destruct (select_row_number_gt_1 stage k); [|reflexivity]. cbn [bind].
  destruct (delete_row_number_gt_1 stage k); [|reflexivity]. cbn [bind].
  apply IH.
Qed.

(** ** DataFrame masks *)

Lemma mask_select_map {A : Type} (proj : A -> Row) (q : A -> bool) (l : list A) :
  mask_select (map proj l) (map q l) = map proj (filter q l).
Proof.
  induction l as [|x l IH]; [reflexivity|]. simpl. destruct (q x); simpl; now rewrite IH.
Qed.

Lemma mask_select_pred (q : Row -> bool) (rs : list Row) :
  mask_select rs (map q rs) = filter q rs.
Proof.
  induction rs as [|r rs IH]; [reflexivity|]. simpl. destruct (q r); now rewrite IH.
Qed.

Lemma seen_before_row_number (key : list string) (seen rs : list Row) :
  seen_before key seen rs =
  map (fun p => (1 <? snd p)%nat) (row_number_over key seen rs).
Proof.
  revert seen; induction rs as [|r rs IH]; intros seen; simpl; [reflexivity|].
  now rewrite IH.
Qed.

Lemma select_seen_before (key : list string) (rs : list Row) :
  mask_select rs (seen_before key [] rs) =
  map fst (filter (fun p => (1 <? snd p)%nat) (row_number_over key [] rs)).
Proof.
  rewrite seen_before_row_number.
  rewrite <- (row_number_fst key [] rs) at 1. apply mask_select_map.
Qed.

Lemma select_not_seen_before (key : list string) (rs : list Row) :
  mask_select rs (map negb (seen_before key [] rs)) =
  map fst (filter (fun p => negb (1 <? snd p)%nat) (row_number_over key [] rs)).
Proof.
  rewrite seen_before_row_number, map_map.
  rewrite <- (row_number_fst key [] rs) at 1. apply mask_select_map.
Qed.

Lemma seen_after_dups_count (key : list string) (t : list Value) (rs : list Row) :
  group_count key t (mask_select rs (seen_after key rs)) = group_count key t rs - 1.
Proof.
  induction rs as [|r rs IH]; [reflexivity|]. cbn [seen_after mask_select].
  assert (Hk : same_key key t r = true -> key_tuple key r = t) by apply same_key_iff.
  rewrite (group_count_cons key t r rs).
  destruct (same_key key t r) eqn:E.
  - rewrite Hk by reflexivity.
    destruct (group_count key t rs) as [|n] eqn:G; cbn [Nat.ltb Nat.leb].
    + rewrite IH; reflexivity.
    + rewrite group_count_cons, E, IH; simpl; lia.
  - destruct (0 <? group_count key (key_tuple key r) rs)%nat;
      rewrite ?group_count_cons, ?E, IH; reflexivity.
Qed.

Lemma seen_after_kept_count (key : list string) (t : list Value) (rs : list Row) :
  group_count key t (mask_select rs (map negb (seen_after key rs))) =
  Nat.min 1 (group_count key t rs).
Proof.
  induction rs as [|r rs IH]; [reflexivity|]. cbn [seen_after mask_select map].
  assert (Hk : same_key key t r = true -> key_tuple key r = t) by apply same_key_iff.
  rewrite (group_count_cons key t r rs).
  destruct (same_key key t r) eqn:E.
  - rewrite Hk by reflexivity.
    destruct (group_count key t rs) as [|n] eqn:G; cbn [Nat.ltb Nat.leb negb].
    + rewrite group_count_cons, E, IH; reflexivity.
    + rewrite IH; reflexivity.
  - destruct (0 <? group_count key (key_tuple key r) rs)%nat; cbn [negb];
      rewrite ?group_count_cons, ?E, IH; reflexivity.
Qed.

Lemma zip_orb_both (key : list string) (seen rs : list Row) :
  zip_orb (seen_before key seen rs) (seen_after key rs) =
  map (fun r => (1 <? group_count key (key_tuple key r) seen
                       + group_count key (key_tuple key r) rs)%nat) rs.
Proof.
  revert seen; induction rs as [|r rs IH]; intros seen; [reflexivity|].
  simpl. f_equal.
  - rewrite group_count_cons, same_key_own.
    destruct (group_count key (key_tuple key r) seen);
      destruct (group_count key (key_tuple key r) rs); simpl; try reflexivity.
    + rewrite Nat.add_comm; reflexivity.
    + rewrite Nat.add_comm; reflexivity.
  - rewrite IH. apply map_ext; intros r'.
    rewrite !group_count_cons. f_equal. lia.
Qed.

Lemma filter_none {A : Type} (f : A -> bool) (l : list A) :
  (forall x, In x l -> f x = false) -> filter f l = [].
Proof.
  induction l as [|x l IH]; intros H; [reflexivity|]. simpl.
  rewrite (H x) by now left. apply IH; intros y Hy; apply H; now right.
Qed.

Lemma check_subset_ok (df : Table) (key : list string) :
  key <> [] -> (forall c, In c key -> In c (columns df)) ->
  check_subset df key = Ok tt.
Proof.
  intros Hne Hin. unfold check_subset. destruct key as [|c key]; [congruence|].
  rewrite filter_none; [reflexivity|].
  intros x Hx. apply negb_false_iff.
  apply existsb_exists; exists x; split; [now apply Hin | apply String.eqb_refl].
Qed.

(** ** Sequential passes *)

Lemma dedup_loop_acc (ks : list (list string)) (pol : string) (stage : Table)
  (acc : list (list Row)) :
  dedup_loop ks pol stage acc =
  ' (stage', frames) <- dedup_loop ks pol stage [] ;; Ok (stage', acc ++ frames).
Proof.
  revert stage acc; induction ks as [|k ks IH]; intros stage acc.
  - simpl. now rewrite app_nil_r.
  - cbn [dedup_loop].
    destruct (pol =? "exclude_all").
    + destruct (select_duplicated_groups stage k) as [d|e]; [|reflexivity]. cbn [bind].
      destruct (delete_duplicated_groups stage k) as [s|e]; [|reflexivity]. cbn [bind].
      rewrite IH. rewrite (IH s ([] ++ [d])).
      destruct (dedup_loop ks pol s []) as [[s' f]|e]; [|reflexivity].
      cbn [bind]. now rewrite <- app_assoc.
    + destruct ((pol =? "first") || (pol =? "last"))%bool.
      * destruct (select_row_number_gt_1 stage k) as [d|e]; [|reflexivity]. cbn [bind].
        destruct (delete_row_number_gt_1 stage k) as [s|e]; [|reflexivity]. cbn [bind].
        rewrite IH. rewrite (IH s ([] ++ [d])).
        destruct (dedup_loop ks pol s []) as [[s' f]|e]; [|reflexivity].
        cbn [bind]. now rewrite <- app_assoc.
      * apply IH.
Qed.

Lemma dedup_loop_app (ks1 ks2 : list (list string)) (pol : string) (stage : Table)
  (acc : list (list Row)) :
  dedup_loop (ks1 ++ ks2) pol stage acc =
  ' (stage1, acc1) <- dedup_loop ks1 pol stage acc ;; dedup_loop ks2 pol stage1 acc1.
Proof.
  revert stage acc; induction ks1 as [|k ks1 IH]; intros stage acc; [reflexivity|].
  cbn [dedup_loop app].
  destruct (pol =? "exclude_all").
  - destruct (select_duplicated_groups stage k) as [d|e]; [|reflexivity]. cbn [bind].
    destruct (delete_duplicated_groups stage k) as [s|e]; [|reflexivity]. cbn [bind].
    apply IH.
  - destruct ((pol =? "first") || (pol =? "last"))%bool; [|apply IH].
    destruct (select_row_number_gt_1 stage k) as [d|e]; [|reflexivity]. cbn [bind].
    destruct (delete_row_number_gt_1 stage k) as [s|e]; [|reflexivity]. cbn [bind].
    apply IH.
Qed.

Lemma remove_duplicates_app (raw : Table) (ks1 ks2 : list (list string)) (pol : string) :
  remove_duplicates_from_stage_table raw (ks1 ++ ks2) pol =
  ' (stage1, removed1) <- remove_duplicates_from_stage_table raw ks1 pol ;;
  ' (stage2, removed2) <- remove_duplicates_from_stage_table stage1 ks2 pol ;;
  Ok (stage2, removed1 ++ removed2).
Proof.
  unfold remove_duplicates_from_stage_table. rewrite dedup_loop_app.
  destruct (dedup_loop ks1 pol raw []) as [[s1 f1]|e]; [|reflexivity]. cbn [bind].
  rewrite dedup_loop_acc.
  destruct (dedup_loop ks2 pol s1 []) as [[s2 f2]|e]; [|reflexivity]. cbn [bind].
  now rewrite concat_app.
Qed.

Lemma composite_loop_acc (ks : list (list string)) (pol : string) (df : Table)
  (acc : list (list Row)) :
  composite_loop ks pol df acc =
  ' (df', frames) <- composite_loop ks pol df [] ;; Ok (df', acc ++ frames).
Proof.
  revert df acc; induction ks as [|k ks IH]; intros df acc.
  - simpl. now rewrite app_nil_r.
  - cbn [composite_loop].
    destruct (pol =? "exclude_all").
    + destruct (duplicated df k KeepFalse) as [m|e]; [|reflexivity]. cbn [bind].
      rewrite IH. rewrite (IH _ ([] ++ [_])).
      destruct (composite_loop ks pol _ []) as [[s' f]|e]; [|reflexivity].
      cbn [bind]. now rewrite <- app_assoc.
    + destruct (duplicated df k _) as [m|e]; [|reflexivity]. cbn [bind].
      destruct (drop_duplicates df k _) as [s|e]; [|reflexivity]. cbn [bind].
      rewrite IH. rewrite (IH s ([] ++ [_])).
      destruct (composite_loop ks pol s []) as [[s' f]|e]; [|reflexivity].
      cbn [bind]. now rewrite <- app_assoc.
Qed.

Lemma composite_loop_app (ks1 ks2 : list (list string)) (pol : string) (df : Table)
  (acc : list (list Row)) :
  composite_loop (ks1 ++ ks2) pol df acc =
  ' (df1, acc1) <- composite_loop ks1 pol df acc ;; composite_loop ks2 pol df1 acc1.
Proof.
  revert df acc; induction ks1 as [|k ks1 IH]; intros df acc; [reflexivity|].
  cbn [composite_loop app].
  destruct (pol =? "exclude_all").
  - destruct (duplicated df k KeepFalse) as [m|e]; [|reflexivity]. cbn [bind].
    apply IH.
  - destruct (duplicated df k _) as [m|e]; [|reflexivity]. cbn [bind].
    destruct (drop_duplicates df k _) as [s|e]; [|reflexivity]. cbn [bind].
    apply IH.
Qed.

Lemma remove_composite_app (df : Table) (ks1 ks2 : list (list string)) (pol : string) :
  remove_composite_duplicates df (ks1 ++ ks2) pol =
  ' (df1, removed1) <- remove_composite_duplicates df ks1 pol ;;
  ' (df2, removed2) <- remove_composite_duplicates df1 ks2 pol ;;
  Ok (df2, removed1 ++ removed2).
Proof.
  unfold remove_composite_duplicates. rewrite composite_loop_app.
  destruct (composite_loop ks1 pol df []) as [[s1 f1]|e]; [|reflexivity]. cbn [bind].
  rewrite composite_loop_acc.
  destruct (composite_loop ks2 pol s1 []) as [[s2 f2]|e]; [|reflexivity]. cbn [bind].
  now rewrite concat_app.
Qed.

(** Comparisons of literal strings are replaced by their values. *)
Ltac literal_tests :=
  repeat match goal with
         | |- context [String.eqb ?a ?b] =>
             let v := eval vm_compute in (String.eqb a b) in
             match v with
             | true => change (String.eqb a b) with true
             | false => change (String.eqb a b) with false
             end
         end;
  cbn [orb andb negb].

Lemma dedup_loop_unknown (ks : list (list string)) (pol : string) (stage : Table)
  (acc : list (list Row)) :
  pol <> "exclude_all" -> pol <> "first" -> pol <> "last" ->
  dedup_loop ks pol stage acc = Ok (stage, acc).
Proof.
  intros H1 H2 H3. apply String.eqb_neq in H1, H2, H3.
  induction ks as [|k ks IH]; [reflexivity|].
  cbn [dedup_loop]. now rewrite H1, H2, H3.
Qed.

Lemma first_pass (tbl : Table) (key : list string) :
  bind_columns tbl key = Ok tt ->
  remove_duplicates_from_stage_table tbl [key] "first" =
  Ok (with_rows tbl
        (map fst (filter (fun p => negb (1 <? snd p)%nat)
                         (row_number_over key [] (rows tbl)))),
      map (fun p => select_star tbl (fst p) ++ [("rn", VInt (Z.of_nat (snd p)))])
          (filter (fun p => (1 <? snd p)%nat) (row_number_over key [] (rows tbl)))).
Proof.
  intros H. unfold remove_duplicates_from_stage_table. cbn [dedup_loop]. literal_tests.
  unfold select_row_number_gt_1, delete_row_number_gt_1. rewrite H. cbn [bind app List.concat].
  now rewrite app_nil_r.
Qed.

Lemma exclude_all_pass (tbl : Table) (key : list string) :
  bind_columns tbl key = Ok tt ->
  remove_duplicates_from_stage_table tbl [key] "exclude_all" =
  Ok (with_rows tbl
        (filter (fun r => negb (in_duplicated_group key (rows tbl) r)) (rows tbl)),
      map (select_star tbl) (filter (in_duplicated_group key (rows tbl)) (rows tbl))).
Proof.
  intros H. unfold remove_duplicates_from_stage_table. cbn [dedup_loop]. literal_tests.
  unfold select_duplicated_groups, delete_duplicated_groups. rewrite H.
  cbn [bind app List.concat]. now rewrite app_nil_r.
Qed.

Lemma remove_duplicates_last_is_first (raw : Table) (ks : list (list string)) :
  remove_duplicates_from_stage_table raw ks "last" =
  remove_duplicates_from_stage_table raw ks "first".
Proof.
  unfold remove_duplicates_from_stage_table. now rewrite dedup_loop_last_is_first.
Qed.

Lemma duplicated_keep_false (df : Table) (key : list string) :
  check_subset df key = Ok tt ->
  duplicated df key KeepFalse
  = Ok (zip_orb (seen_before key [] (rows df)) (seen_after key (rows df))).
Proof.
  intros H. unfold duplicated. destruct (rows df); [reflexivity|]. now rewrite H.
Qed.

Lemma duplicated_keep_first (df : Table) (key : list string) :
  check_subset df key = Ok tt ->
  duplicated df key (KeepStr "first") = Ok (seen_before key [] (rows df)).
Proof.
  intros H. unfold duplicated. destruct (rows df); [reflexivity|]. now rewrite H.
Qed.

Lemma duplicated_keep_last (df : Table) (key : list string) :
  check_subset df key = Ok tt ->
  duplicated df key (KeepStr "last") = Ok (seen_after key (rows df)).
Proof.
  intros H. unfold duplicated. destruct (rows df); [reflexivity|]. now rewrite H.
Qed.

Lemma composite_first_pass (df : Table) (key : list string) :
  check_subset df key = Ok tt ->
  remove_composite_duplicates df [key] "first" =
  Ok (with_rows df (mask_select (rows df) (map negb (seen_before key [] (rows df)))),
      mask_select (rows df) (seen_after key (rows df))).
Proof.
  intros H. unfold remove_composite_duplicates. cbn [composite_loop]. literal_tests.
  unfold drop_duplicates.
  rewrite (duplicated_keep_first df key H), (duplicated_keep_last df key H).
  cbn [bind app List.concat]. now rewrite app_nil_r.
Qed.

Lemma composite_last_pass (df : Table) (key : list string) :
  check_subset df key = Ok tt ->
  remove_composite_duplicates df [key] "last" =
  Ok (with_rows df (mask_select (rows df) (map negb (seen_after key (rows df)))),
      mask_select (rows df) (seen_before key [] (rows df))).
Proof.
  intros H. unfold remove_composite_duplicates. cbn [composite_loop]. literal_tests.
  unfold drop_duplicates.
  rewrite (duplicated_keep_first df key H), (duplicated_keep_last df key H).
  cbn [bind app List.concat]. now rewrite app_nil_r.
Qed.

Lemma composite_exclude_all_pass (df : Table) (key : list string) :
  check_subset df key = Ok tt ->
  remove_composite_duplicates df [key] "exclude_all" =
  Ok (with_rows df
        (filter (fun r => negb (1 <? group_count key (key_tuple key r) (rows df))%nat)
                (rows df)),
      filter (fun r => (1 <? group_count key (key_tuple key r) (rows df))%nat) (rows df)).
Proof.
  intros H. unfold remove_composite_duplicates. cbn [composite_loop]. literal_tests.
  rewrite (duplicated_keep_false df key H). cbn [bind app List.concat]. rewrite app_nil_r.
  rewrite zip_orb_both, map_map, !mask_select_pred.
  reflexivity.
Qed.

(** ** Deduplication: the claims *)

(** C10: with a non-empty list of composite keys and a policy that is none
    of [exclude_all], [first], [last], [remove_duplicates_from_stage_table]
    raises nothing, leaves the stage table equal to the raw table and returns
    an empty frame of removed rows. *)
Theorem unknown_policy_removes_nothing (raw : Table)
  (unique_composite : list (list string)) (duplicate_resolution : string) :
  unique_composite <> [] ->
  duplicate_resolution <> "exclude_all" ->
  duplicate_resolution <> "first" ->
  duplicate_resolution <> "last" ->
  remove_duplicates_from_stage_table raw unique_composite duplicate_resolution
  = Ok (raw, []).
Proof.
  intros _ H1 H2 H3. unfold remove_duplicates_from_stage_table.
  now rewrite dedup_loop_unknown.
Qed.

Lemma unknown_policy_removes_nothing_witness :
  [["a"; "b"]] <> [] /\ "keep_last" <> "exclude_all" /\ "keep_last" <> "first"
  /\ "keep_last" <> "last"
  /\ remove_duplicates_from_stage_table ties [["a"; "b"]] "keep_last" = Ok (ties, []).
Proof.
  split; [discriminate|]. split; [discriminate|]. split; [discriminate|].
  split; [discriminate|].
  apply (unknown_policy_removes_nothing ties [["a"; "b"]] "keep_last"); discriminate.
Defined.

(** C2: the composite keys are processed one after the other, each pass
    working on the table left by the passes before it: deduplicating by
    [ks1 ++ ks2] is deduplicating by [ks1] and then, on that result, by
    [ks2], the removed rows being appended (for both implementations).  The
    order matters, in both implementations: on the table [overlap], the
    keys [a] then [b] keep a row that [b] then [a] removes; and the pass for
    [b] removes nothing from the table reduced by [a], while on the original
    table it removes a row.  The result is a function of the table and the
    key list. *)
Theorem composite_keys_sequential_order_sensitive :
  (forall raw ks1 ks2 pol,
      remove_duplicates_from_stage_table raw (ks1 ++ ks2) pol =
      ' (stage1, removed1) <- remove_duplicates_from_stage_table raw ks1 pol ;;
      ' (stage2, removed2) <- remove_duplicates_from_stage_table stage1 ks2 pol ;;
      Ok (stage2, removed1 ++ removed2))
  /\ (forall df ks1 ks2 pol,
         remove_composite_duplicates df (ks1 ++ ks2) pol =
         ' (df1, removed1) <- remove_composite_duplicates df ks1 pol ;;
         ' (df2, removed2) <- remove_composite_duplicates df1 ks2 pol ;;
         Ok (df2, removed1 ++ removed2))
  /\ (exists stage_ab removed_ab stage_ba removed_ba r,
         remove_duplicates_from_stage_table overlap [["a"]; ["b"]] "first"
         = Ok (stage_ab, removed_ab)
         /\ remove_duplicates_from_stage_table overlap [["b"]; ["a"]] "first"
            = Ok (stage_ba, removed_ba)
         /\ In r (rows stage_ab) /\ ~ In r (rows stage_ba))
  /\ (exists stage_a removed_a stage_b removed_b,
         remove_duplicates_from_stage_table overlap [["a"]] "first"
         = Ok (stage_a, removed_a)
         /\ remove_duplicates_from_stage_table stage_a [["b"]] "first"
            = Ok (stage_a, [])
         /\ remove_duplicates_from_stage_table overlap [["b"]] "first"
            = Ok (stage_b, removed_b)
         /\ removed_b <> [])
  /\ (exists df_ab removed_ab df_ba removed_ba r,
         remove_composite_duplicates overlap [["a"]; ["b"]] "first"
         = Ok (df_ab, removed_ab)
         /\ remove_composite_duplicates overlap [["b"]; ["a"]] "first"
            = Ok (df_ba, removed_ba)
         /\ In r (rows df_ab) /\ ~ In r (rows df_ba))
  /\ (exists df_a removed_a df_b removed_b,
         remove_composite_duplicates overlap [["a"]] "first" = Ok (df_a, removed_a)
         /\ removed_a <> []
         /\ remove_composite_duplicates df_a [["b"]] "first" = Ok (df_a, [])
         /\ remove_composite_duplicates overlap [["b"]] "first" = Ok (df_b, removed_b)
         /\ removed_b <> []).
Proof.
  split; [exact remove_duplicates_app|].
  split; [exact remove_composite_app|].
  split; [|split; [|split]].
  - eexists; eexists; eexists; eexists; exists (row3 2 2 30).
    split; [vm_compute; reflexivity|].
    split; [vm_compute; reflexivity|].
    split; [right; left; reflexivity|].
    intros [H|[]]; discriminate H.
  - eexists; eexists; eexists; eexists.
    split; [vm_compute; reflexivity|].
    split; [vm_compute; reflexivity|].
    split; [vm_compute; reflexivity|].
    discriminate.
  - eexists; eexists; eexists; eexists; exists (row3 2 2 30).
    split; [vm_compute; reflexivity|].
    split; [vm_compute; reflexivity|].
    split; [right; left; reflexivity|].
    intros [H|[]]; discriminate H.
  - eexists; eexists; eexists; eexists.
    split; [vm_compute; reflexivity|].
    split; [discriminate|].
    split; [vm_compute; reflexivity|].
    split; [vm_compute; reflexivity|].
    discriminate.
Qed.

(** C3: for a single composite key and a group of [N > 1] rows sharing the
    key tuple [t]: under [first] or [last] one row of the group stays and
    [N - 1] are in the removed rows; under [exclude_all] none stays and [N]
    are in the removed rows.  Both implementations. *)
Theorem single_key_group_counts (tbl : Table) (key : list string) (pol : string)
  (t : list Value) (N : nat) :
  key <> [] ->
  (forall c, In c key -> In c (columns tbl)) ->
  group_count key t (rows tbl) = N ->
  1 < N ->
  pol = "first" \/ pol = "last" \/ pol = "exclude_all" ->
  (exists stage removed,
      remove_duplicates_from_stage_table tbl [key] pol = Ok (stage, removed)
      /\ group_count key t (rows stage) = (if pol =? "exclude_all" then 0 else 1)
      /\ group_count key t removed = (if pol =? "exclude_all" then N else N - 1))
  /\ (exists df removed,
         remove_composite_duplicates tbl [key] pol = Ok (df, removed)
         /\ group_count key t (rows df) = (if pol =? "exclude_all" then 0 else 1)
         /\ group_count key t removed = (if pol =? "exclude_all" then N else N - 1)).
Proof.
  intros Hne Hcols HN Hgt Hpol.
  pose proof (bind_columns_ok tbl key Hne Hcols) as Hb.
  pose proof (check_subset_ok tbl key Hne Hcols) as Hc.
  assert (Hrn : forall l : list (Row * nat),
             group_count key t
               (map (fun p => select_star tbl (fst p) ++ [("rn", VInt (Z.of_nat (snd p)))]) l)
             = group_count key t (map fst l)).
  { intros l. apply group_count_map_ext. intros p. now apply key_tuple_select_star. }
  assert (Hlt : (1 <? N)%nat = true) by now apply Nat.ltb_lt.
  destruct Hpol as [-> | [-> | ->]]; literal_tests.
  - split.
    + rewrite (first_pass tbl key Hb). eexists; eexists; split; [reflexivity|].
      cbn [rows with_rows]. split.
      * rewrite row_number_kept_count, HN. cbn. destruct N; [lia|reflexivity].
      * rewrite Hrn, row_number_dups_count, HN. reflexivity.
    + rewrite (composite_first_pass tbl key Hc). eexists; eexists; split; [reflexivity|].
      cbn [rows with_rows]. split.
      * rewrite select_not_seen_before, row_number_kept_count, HN. cbn.
        destruct N; [lia|reflexivity].
      * rewrite seen_after_dups_count, HN. reflexivity.
  - split.
    + rewrite remove_duplicates_last_is_first, (first_pass tbl key Hb).
      eexists; eexists; split; [reflexivity|].
      cbn [rows with_rows]. split.
      * rewrite row_number_kept_count, HN. cbn. destruct N; [lia|reflexivity].
      * rewrite Hrn, row_number_dups_count, HN. reflexivity.
    + rewrite (composite_last_pass tbl key Hc). eexists; eexists; split; [reflexivity|].
      cbn [rows with_rows]. split.
      * rewrite seen_after_kept_count, HN. destruct N; [lia|reflexivity].
      * rewrite select_seen_before, row_number_dups_count, HN. reflexivity.
  - split.
    + rewrite (exclude_all_pass tbl key Hb). eexists; eexists; split; [reflexivity|].
      cbn [rows with_rows]. split.
      * now rewrite not_excluded_group_count, HN, Hlt.
      * rewrite group_count_select_star by assumption.
        now rewrite excluded_group_count, HN, Hlt.
    + rewrite (composite_exclude_all_pass tbl key Hc).
      eexists; eexists; split; [reflexivity|].
      cbn [rows with_rows]. unfold group_count at 1 3.
      rewrite (filter_same_key_filter key t
                 (fun k => negb (1 <? group_count key k (rows tbl))%nat)).
      rewrite (filter_same_key_filter key t
                 (fun k => (1 <? group_count key k (rows tbl))%nat)).
      rewrite HN, Hlt. cbn [negb]. split; [reflexivity|exact HN].
Qed.

Lemma row_number_kept_rows (key : list string) (t : list Value) (seen rs : list Row) :
  filter (same_key key t)
    (map fst (filter (fun p => negb (1 <? snd p)%nat) (row_number_over key seen rs))) =
  if (0 <? group_count key t seen)%nat then []
  else firstn 1 (filter (same_key key t) rs).
Proof.
  revert seen; induction rs as [|r rs IH]; intros seen.
  - cbn [row_number_over filter map]. now destruct (0 <? group_count key t seen)%nat.
  - cbn [row_number_over filter snd].
    change (1 <? S (group_count key (key_tuple key r) seen))%nat
      with (0 <? group_count key (key_tuple key r) seen)%nat.
    assert (Hk : same_key key t r = true -> key_tuple key r = t)
      by apply same_key_iff.
    destruct (same_key key t r) eqn:E.
    + rewrite Hk by reflexivity.
      destruct (group_count key t seen) as [|n] eqn:G; cbn [Nat.ltb Nat.leb negb map fst filter].
      * rewrite E, IH, group_count_cons, E, G. reflexivity.
      * rewrite IH, group_count_cons, E, G. reflexivity.
    + destruct (0 <? group_count key (key_tuple key r) seen)%nat;
        cbn [negb map fst filter]; rewrite ?E, IH, group_count_cons, E; reflexivity.
Qed.

(** Under [last] the engine keeps, of every group, the row that comes first. *)
Lemma engine_last_keeps_first_of_group (tbl : Table) (key : list string) :
  key <> [] -> (forall c, In c key -> In c (columns tbl)) ->
  exists stage removed,
    remove_duplicates_from_stage_table tbl [key] "last" = Ok (stage, removed)
    /\ forall t, filter (same_key key t) (rows stage)
                 = firstn 1 (filter (same_key key t) (rows tbl)).
Proof.
  intros Hne Hcols.
  rewrite remove_duplicates_last_is_first,
    (first_pass tbl key (bind_columns_ok tbl key Hne Hcols)).
  eexists; eexists; split; [reflexivity|].
  intros t. cbn [rows with_rows]. now rewrite row_number_kept_rows.
Qed.

(** C1: on three rows sharing the key [(a, b)], policy [last]: the engine
    implementation keeps the first row (value 10) and reports the second and
    the third as removed; the DataFrame implementation keeps the last row
    (value 30) and reports the second and the third, that is, it reports the
    row it kept and omits the first row, which it dropped. *)
Theorem keep_last_on_three_ties :
  remove_duplicates_from_stage_table ties [["a"; "b"]] "last"
  = Ok (with_rows ties [row3 1 1 10],
        [row3 1 1 20 ++ [("rn", VInt 2)]; row3 1 1 30 ++ [("rn", VInt 3)]])
  /\ remove_composite_duplicates ties [["a"; "b"]] "last"
     = Ok (with_rows ties [row3 1 1 30], [row3 1 1 20; row3 1 1 30]).
Proof. split; vm_compute; reflexivity. Qed.

(** Where the two implementations agree on a single key: under
    [exclude_all] on the table left and on the rows removed (the engine
    answering the table's columns), under [first] on the table left. *)
Lemma implementations_agree_in_part (tbl : Table) (key : list string) :
  key <> [] -> (forall c, In c key -> In c (columns tbl)) ->
  (exists stage removed,
      remove_duplicates_from_stage_table tbl [key] "exclude_all"
      = Ok (stage, map (select_star tbl) removed)
      /\ remove_composite_duplicates tbl [key] "exclude_all" = Ok (stage, removed))
  /\ (exists stage removed removed',
         remove_duplicates_from_stage_table tbl [key] "first" = Ok (stage, removed)
         /\ remove_composite_duplicates tbl [key] "first" = Ok (stage, removed')).
Proof.
  intros Hne Hcols.
  pose proof (bind_columns_ok tbl key Hne Hcols) as Hb.
  pose proof (check_subset_ok tbl key Hne Hcols) as Hc.
  split.
  - rewrite (exclude_all_pass tbl key Hb), (composite_exclude_all_pass tbl key Hc).
    eexists; eexists; split; [reflexivity|].
    rewrite (filter_ext (in_duplicated_group key (rows tbl))
               (fun r => (1 <? group_count key (key_tuple key r) (rows tbl))%nat))
      by (intros r; apply in_duplicated_group_count).
    rewrite (filter_ext (fun r => negb (in_duplicated_group key (rows tbl) r))
               (fun r => negb (1 <? group_count key (key_tuple key r) (rows tbl))%nat))
      by (intros r; now rewrite in_duplicated_group_count).
    reflexivity.
  - rewrite (first_pass tbl key Hb), (composite_first_pass tbl key Hc).
    eexists; eexists; eexists; split; [reflexivity|].
    now rewrite select_not_seen_before.
Qed.

(** C9: the two implementations disagree on three rows sharing the key
    [(a, b)]: under [last] the engine keeps the first row and the DataFrame
    code the last; under [first] both keep the first row, but the DataFrame
    code reports that row among the removed ones and the engine does not. *)
Theorem implementations_disagree_on_ties :
  (exists stage removed df removed',
      remove_duplicates_from_stage_table ties [["a"; "b"]] "last" = Ok (stage, removed)
      /\ remove_composite_duplicates ties [["a"; "b"]] "last" = Ok (df, removed')
      /\ rows stage = [row3 1 1 10] /\ rows df = [row3 1 1 30])
  /\ (exists stage removed df removed',
         remove_duplicates_from_stage_table ties [["a"; "b"]] "first" = Ok (stage, removed)
         /\ remove_composite_duplicates ties [["a"; "b"]] "first" = Ok (df, removed')
         /\ rows stage = rows df
         /\ In (row3 1 1 10) removed'
         /\ (forall r, In r removed -> get "v" r <> VInt 10)).
Proof.
  split.
  - eexists; eexists; eexists; eexists.
    split; [vm_compute; reflexivity|]. split; [vm_compute; reflexivity|].
    split; reflexivity.
  - eexists; eexists; eexists; eexists.
    split; [vm_compute; reflexivity|]. split; [vm_compute; reflexivity|].
    split; [reflexivity|]. split; [left; reflexivity|].
    intros r [<-|[<-|[]]]; discriminate.
Qed.

(** ** Schema validation *)

Lemma existsb_eqb_in (k : string) (l : list string) :
  existsb (String.eqb k) l = true <-> In k l.
Proof.
  rewrite existsb_exists. split.
  - intros (x & Hx & E). apply String.eqb_eq in E. now subst.
  - intros H. exists k. split; [assumption|apply String.eqb_refl].
Qed.

Lemma get_not_in (c : string) (r : Row) : ~ In c (map fst r) -> get c r = VNull.
Proof.
  induction r as [|[k v] r IH]; [reflexivity|]. cbn [map fst get]. intros H.
  destruct (String.eqb c k) eqn:E.
  - apply String.eqb_eq in E. subst. exfalso. apply H. now left.
  - apply IH. intros Hin. apply H. now right.
Qed.

Lemma get_projected (cols : list string) (r : Row) (c : string) :
  get c (map (fun c => (c, get c r)) cols) = if existsb (String.eqb c) cols then get c r
                                             else VNull.
Proof.
  induction cols as [|k cols IH]; [reflexivity|]. cbn [map get existsb].
  destruct (String.eqb c k) eqn:E; [|exact IH].
  apply String.eqb_eq in E. now subst.
Qed.

Lemma first_seen_in (ks : list string) :
  forall seen k, In k (first_seen seen ks) <-> In k ks /\ ~ In k seen.
Proof.
  induction ks as [|x ks IH]; intros seen k; [cbn; tauto|].
  cbn [first_seen]. destruct (existsb (String.eqb x) seen) eqn:E.
  - apply existsb_eqb_in in E. rewrite IH. cbn [In]. split.
    + intros [H1 H2]. tauto.
    + intros [[->|H1] H2]; [contradiction|tauto].
  - assert (Hx : ~ In x seen).
    { intros H. apply existsb_eqb_in in H. congruence. }
    cbn [In]. rewrite IH. cbn [In]. split.
    + intros [<-|[H1 H2]]; [tauto|]. split; [tauto|]. intros H. apply H2. now right.
    + intros [[->|H1] H2]; [now left|].
      destruct (string_dec x k) as [->|Hne]; [now left|]. right. split; [assumption|].
      intros [H|H]; [contradiction|contradiction].
Qed.

Lemma first_seen_nodup (ks : list string) :
  forall seen, NoDup (first_seen seen ks).
Proof.
  induction ks as [|x ks IH]; intros seen; [constructor|].
  cbn [first_seen]. destruct (existsb (String.eqb x) seen); [apply IH|].
  constructor; [|apply IH]. intros H. apply first_seen_in in H.
  destruct H as [_ H]. apply H. now left.
Qed.

(** The frame built from a list of records has one row per record, in
    order, over the distinct fields of the records, each row reading every
    field as its record does. *)
Lemma DataFrame_cells (records : list Row) :
  NoDup (columns (DataFrame records))
  /\ List.length (rows (DataFrame records)) = List.length records
  /\ forall i r,
      nth_error records i = Some r ->
      exists r',
        nth_error (rows (DataFrame records)) i = Some r'
        /\ map fst r' = columns (DataFrame records)
        /\ forall c, get c r' = get c r.
Proof.
  unfold DataFrame. cbn [columns rows].
  split; [apply first_seen_nodup|]. split; [apply length_map|].
  intros i r Hi.
  set (cols := first_seen [] (List.concat (map (map fst) records))).
  exists (map (fun c => (c, get c r)) cols).
  split; [exact (map_nth_error (fun r => map (fun c => (c, get c r)) cols) i records Hi)|].
  split; [rewrite map_map; apply map_id|].
  intros c. rewrite get_projected.
  destruct (existsb (String.eqb c) _) eqn:E; [reflexivity|].
  symmetry. apply get_not_in. intros Hin.
  assert (Hc : In c cols).
  { apply first_seen_in. split; [|tauto].
    apply in_concat. exists (map fst r). split; [|assumption].
    apply in_map. now apply nth_error_In with i. }
  apply existsb_eqb_in in Hc. congruence.
Qed.

Lemma validate_loop_spec (model : Model) (rs : list Row) :
  forall index valid_records error_records,
    validate_loop model index rs valid_records error_records =
    (valid_records ++ flat_map (validated_of model) rs,
     error_records ++
       map (fun p => mkErrorRecord (fst p) (snd p) (messages_of model (snd p)))
           (rejected model (combine (seq (index + 1) (List.length rs)) rs))).
Proof.
  induction rs as [|r rs IH]; intros index va ea.
  - simpl. now rewrite !app_nil_r.
  - cbn [validate_loop List.length seq combine flat_map]. unfold rejected in *.
    cbn [filter snd]. unfold accepts, validated_of, messages_of in *.
    destruct (model r) eqn:E; rewrite IH; cbn [negb map fst snd];
      rewrite <- ?app_assoc; rewrite ?E; reflexivity.
Qed.

Lemma in_combine_seq_nth (l : list Row) :
  forall a k r,
    In (a + k, r) (combine (seq a (List.length l)) l) <-> nth_error l k = Some r.
Proof.
  induction l as [|r0 l IH]; intros a k r.
  - simpl. split; [tauto|]. destruct k; discriminate.
  - cbn [List.length seq combine]. split.
    + intros [H|H].
      * injection H as H1 H2. assert (k = 0) by lia. subst. reflexivity.
      * destruct k as [|k].
        -- exfalso. apply in_combine_l, in_seq in H. lia.
        -- simpl. apply (IH (S a) k). now rewrite Nat.add_succ_r in H.
    + destruct k as [|k]; simpl; intros H.
      * injection H as ->. left. now rewrite Nat.add_0_r.
      * right. rewrite Nat.add_succ_r. now apply (IH (S a) k).
Qed.

Lemma indexed_filter_in (f : nat * Row -> bool) (l : list Row) (a x : nat) :
  In x (map fst (filter f (combine (seq a (List.length l)) l))) <->
  exists k r, x = a + k /\ nth_error l k = Some r /\ f (a + k, r) = true.
Proof.
  rewrite in_map_iff. split.
  - intros ([n r] & Hx & H). cbn [fst] in Hx. subst n.
    apply filter_In in H. destruct H as [Hc Hf].
    pose proof (in_combine_l _ _ _ _ Hc) as Hs. apply in_seq in Hs.
    exists (x - a), r. replace (a + (x - a)) with x by lia.
    split; [reflexivity|]. split; [|exact Hf].
    apply (in_combine_seq_nth l a). now replace (a + (x - a)) with x by lia.
  - intros (k & r & -> & Hn & Hf). exists (a + k, r). split; [reflexivity|].
    apply filter_In. split; [|exact Hf]. now apply in_combine_seq_nth.
Qed.

Lemma indexed_filter_nodup (f : nat * Row -> bool) (l : list Row) :
  forall a, NoDup (map fst (filter f (combine (seq a (List.length l)) l))).
Proof.
  induction l as [|r0 l IH]; intros a; [constructor|].
  cbn [List.length seq combine filter].
  destruct (f (a, r0)); [|apply IH].
  cbn [map fst]. constructor; [|apply IH].
  intros H. apply indexed_filter_in in H. destruct H as (k & _ & H & _). lia.
Qed.

Lemma partition_lengths (model : Model) (l : list Row) :
  forall a,
    List.length (flat_map (validated_of model) l)
    + List.length (rejected model (combine (seq a (List.length l)) l))
    = List.length l.
Proof.
  unfold rejected. induction l as [|r l IH]; intros a; [reflexivity|].
  cbn [flat_map List.length seq combine filter snd].
  unfold validated_of at 1, accepts at 1. specialize (IH (S a)).
  destruct (model r); cbn [negb List.length app]; lia.
Qed.

(** C7: schema validation partitions the records.  The sizes of the two
    results add up to the size of the input; the valid frame holds, in
    order, the validated form of the records the model accepts, cell by
    cell: its columns are the fields of these validated records, each once,
    and its [i]-th row reads every field as the [i]-th validated record
    does; the error records have distinct row numbers, each the 1-based
    position of a record the model rejects, with that record as data; and
    every input record is either accepted, with no error record for its
    row, or rejected, with its error record present. *)
Theorem schema_validation_partitions (df : Table) (model : Model) :
  let inputs := map (fillna nullable_defaults) (rows df) in
  let valid := fst (validate_records_with_pydantic df model) in
  let error_records := snd (validate_records_with_pydantic df model) in
  let validated := flat_map (validated_of model) inputs in
  List.length (rows valid) + List.length error_records = List.length (rows df)
  /\ rows valid
     = map (fun r => map (fun c => (c, get c r)) (columns valid)) validated
  /\ NoDup (columns valid)
  /\ (forall c, In c (columns valid) <-> exists v, In v validated /\ In c (map fst v))
  /\ (forall i v, nth_error validated i = Some v ->
                  exists r, nth_error (rows valid) i = Some r
                            /\ map fst r = columns valid
                            /\ forall c, get c r = get c v)
  /\ NoDup (map row error_records)
  /\ (forall e, In e error_records ->
                1 <= row e /\ nth_error inputs (row e - 1) = Some (data e)
                /\ accepts model (data e) = false)
  /\ (forall i r, nth_error inputs i = Some r ->
                  (accepts model r = true /\ ~ In (S i) (map row error_records))
                  \/ (accepts model r = false
                      /\ In (mkErrorRecord (S i) r (messages_of model r)) error_records)).
Proof.
  intros inputs valid error_records validated.
  set (mk := fun p : nat * Row =>
               mkErrorRecord (fst p) (snd p) (messages_of model (snd p))).
  assert (Hv : valid = DataFrame (flat_map (validated_of model) inputs)).
  { unfold valid, validate_records_with_pydantic. cbn [rows with_rows]. fold inputs.
    now rewrite (validate_loop_spec model inputs 0 [] []). }
  assert (He : error_records
               = map mk (rejected model (combine (seq 1 (List.length inputs)) inputs))).
  { unfold error_records, validate_records_with_pydantic. cbn [rows with_rows].
    fold inputs. now rewrite (validate_loop_spec model inputs 0 [] []). }
  clearbody valid error_records. subst valid error_records.
  assert (Hrows : forall l : list (nat * Row), map row (map mk l) = map fst l).
  { intros l. rewrite map_map. reflexivity. }
  fold validated.
  destruct (DataFrame_cells validated) as (Hnd & _ & Hcells).
  split; [|split; [|split; [|split; [|split; [|split; [|split]]]]]].
  - unfold DataFrame, validated. cbn [rows]. rewrite !length_map.
    rewrite partition_lengths. unfold inputs. apply length_map.
  - reflexivity.
  - exact Hnd.
  - intros c. unfold DataFrame. cbn [columns]. rewrite first_seen_in, in_concat. split.
    + intros [(l & Hl & Hc) _]. apply in_map_iff in Hl. destruct Hl as (v & <- & Hv).
      now exists v.
    + intros (v & Hv & Hc). split; [|tauto]. exists (map fst v). split; [|exact Hc].
      now apply in_map.
  - exact Hcells.
  - rewrite Hrows. apply indexed_filter_nodup.
  - intros e Hin. apply in_map_iff in Hin. destruct Hin as ([n r] & <- & Hp).
    cbn [row data mk fst snd].
    apply filter_In in Hp. destruct Hp as [Hc Hf]. cbn [snd] in Hf.
    apply negb_true_iff in Hf.
    pose proof (in_combine_l _ _ _ _ Hc) as Hs. apply in_seq in Hs.
    split; [lia|]. split; [|exact Hf].
    apply (in_combine_seq_nth inputs 1). now replace (1 + (n - 1)) with n by lia.
  - intros i r Hn. destruct (accepts model r) eqn:E.
    + left. split; [reflexivity|]. rewrite Hrows. intros H.
      apply indexed_filter_in in H. destruct H as (k & r' & Hk & Hn' & Hf).
      assert (k = i) by lia. subst k. rewrite Hn in Hn'. injection Hn' as <-.
      cbn [snd] in Hf. rewrite E in Hf. discriminate.
    + right. split; [reflexivity|].
      apply in_map_iff. exists (S i, r). split; [reflexivity|].
      apply filter_In. cbn [snd]. rewrite E. split; [|reflexivity].
      now apply (in_combine_seq_nth inputs 1 i).
Qed.

(** ** Custom rules *)

Section Rules.

Variable clock : nat -> string.
Variable age_lt : string -> Z -> Value -> option bool.

Lemma evaluable_where (stage : Table) (i : nat) (p : string * CustomRule) :
  evaluable clock age_lt stage i p = true ->
  exists ps,
    validation (snd p) = Some "age_gte" /\ params (snd p) = Some ps
    /\ where_age_lt age_lt stage (fst p) (clock i) (min_age_of ps)
       = Ok (map (violates clock age_lt i p) (rows stage)).
Proof.
  unfold evaluable. intros H. apply andb_true_iff in H. destruct H as [Hv H].
  destruct (params (snd p)) as [ps|] eqn:Hp; [|discriminate].
  apply andb_true_iff in H. destruct H as [Hc Hr].
  exists ps. split; [|split; [reflexivity|]].
  - unfold is_string in Hv. destruct (validation (snd p)) as [s|]; [|discriminate].
    apply String.eqb_eq in Hv. now subst.
  - unfold where_age_lt. rewrite Hc.
    replace (eval_where _ (rows stage)) with (Some (map (violates clock age_lt i p) (rows stage)));
      [reflexivity|].
    rewrite forallb_forall in Hr. revert Hr.
    induction (rows stage) as [|r rs IH]; intros Hr; [reflexivity|].
    cbn [eval_where map]. rewrite <- IH by (intros x Hx; apply Hr; now right).
    specialize (Hr r (or_introl eq_refl)). unfold violates. rewrite Hp.
    now destruct (age_lt (clock i) (min_age_of ps) (get (fst p) r)).
Qed.

Lemma evaluable_with_rows (stage : Table) (rs : list Row) (i : nat)
  (p : string * CustomRule) :
  (forall r, In r rs -> In r (rows stage)) ->
  evaluable clock age_lt stage i p = true -> evaluable clock age_lt (with_rows stage rs) i p = true.
Proof.
  unfold evaluable. intros Hincl H. apply andb_true_iff in H. destruct H as [Hv H].
  rewrite Hv. cbn [andb]. destruct (params (snd p)) as [ps|]; [|discriminate].
  apply andb_true_iff in H. destruct H as [Hc Hr]. cbn [columns rows with_rows].
  rewrite Hc. cbn [andb]. rewrite forallb_forall in *. intros r Hr'. apply Hr.
  now apply Hincl.
Qed.

Lemma all_evaluable_with_rows (stage : Table) (rs : list Row)
  (rules : list (string * CustomRule)) :
  (forall r, In r rs -> In r (rows stage)) ->
  forall i, all_evaluable clock age_lt stage i rules = true ->
            all_evaluable clock age_lt (with_rows stage rs) i rules = true.
Proof.
  intros Hincl. induction rules as [|p rest IH]; intros i H; [reflexivity|].
  cbn [all_evaluable] in *. apply andb_true_iff in H. destruct H as [H1 H2].
  rewrite evaluable_with_rows by assumption. now apply IH.
Qed.

Local Abbreviation loop := (validations_loop clock age_lt).

Lemma filter_negb_all {A : Type} (f : A -> bool) (l : list A) :
  filter f l = [] -> filter (fun x => negb (f x)) l = l.
Proof.
  induction l as [|x l IH]; [reflexivity|]. simpl.
  destruct (f x); [discriminate|]. intros H. simpl. now rewrite IH.
Qed.

(** One turn of the loop on a rule the engine can evaluate. *)
Lemma loop_step (i : nat) (p : string * CustomRule) (rest : list (string * CustomRule))
  (mode : string) (issues : list Issue) (total : nat) (eng : Engine) :
  evaluable clock age_lt (stage_table eng) i p = true ->
  loop i (p :: rest) mode issues total eng =
  match filter (violates clock age_lt i p) (rows (stage_table eng)) with
  | [] => loop (S i) rest mode issues (total + 0) (sent eng (select_of clock i p))
  | bad =>
      let found := map (select_star (stage_table eng)) bad in
      if mode =? "stop" then
        (sent eng (select_of clock i p), Raise (ValueError (failure_message (fst p))))
      else if mode =? "skip" then
        loop (S i) rest mode (issues ++ [mkIssue (fst p) "age_gte" found])
          (total + List.length bad)
          (set_stage (sent (sent eng (select_of clock i p)) (delete_of clock i p))
             (with_rows (stage_table eng)
                (filter (fun r => negb (violates clock age_lt i p r)) (rows (stage_table eng)))))
      else
        loop (S i) rest mode (issues ++ [mkIssue (fst p) "age_gte" found])
          (total + List.length bad) (sent eng (select_of clock i p))
  end.
Proof.
  intros H. destruct (evaluable_where _ _ _ H) as (ps & Hv & Hp & Hw).
  destruct p as [f rule]. cbn [fst snd] in *. unfold select_of, delete_of.
  cbn [validations_loop fst snd]. rewrite Hv, Hp. cbn [is_string].
  literal_tests. unfold bindM at 1. cbn [item ret].
  unfold bindM at 1. unfold fetch_age_lt. cbn [sent stage_table]. rewrite Hw.
  cbn [bind]. rewrite mask_select_pred, length_map.
  destruct (filter (violates clock age_lt i (f, rule)) (rows (stage_table eng)))
    as [|b bad] eqn:Hbad.
  - reflexivity.
  - cbn [map]. cbv zeta. destruct (mode =? "stop"); [reflexivity|].
    destruct (mode =? "skip"); [|reflexivity].
    unfold bindM at 1. unfold delete_age_lt.
    cbn [sent stage_table]. rewrite Hw. rewrite map_map, mask_select_pred.
    reflexivity.
Qed.

Lemma skip_step (i : nat) (p : string * CustomRule) (rest : list (string * CustomRule))
  (issues : list Issue) (total : nat) (eng : Engine) :
  evaluable clock age_lt (stage_table eng) i p = true ->
  loop i (p :: rest) "skip" issues total eng =
  let bad := filter (violates clock age_lt i p) (rows (stage_table eng)) in
  loop (S i) rest "skip"
    (match bad with
     | [] => issues
     | _ => issues ++ [mkIssue (fst p) "age_gte" (map (select_star (stage_table eng)) bad)]
     end)
    (total + List.length bad)
    (match bad with
     | [] => sent eng (select_of clock i p)
     | _ => set_stage (sent (sent eng (select_of clock i p)) (delete_of clock i p))
              (with_rows (stage_table eng)
                 (filter (fun r => negb (violates clock age_lt i p r)) (rows (stage_table eng))))
     end).
Proof.
  intros H. rewrite (loop_step i p rest "skip" issues total eng H). cbv zeta.
  now destruct (filter (violates clock age_lt i p) (rows (stage_table eng))).
Qed.

Lemma skip_loop_spec (rules : list (string * CustomRule)) :
  forall (i : nat) (issues : list Issue) (total : nat) (eng : Engine),
    all_evaluable clock age_lt (stage_table eng) i rules = true ->
    exists eng' new_issues,
      loop i rules "skip" issues total eng
      = (eng',
         Ok (issues ++ new_issues,
             total + list_sum (map (fun e => List.length (snd e))
                                   (fst (skip_violations clock age_lt i rules
                                           (rows (stage_table eng)))))))
      /\ stage_table eng'
         = with_rows (stage_table eng)
             (snd (skip_violations clock age_lt i rules (rows (stage_table eng))))
      /\ map entry_of_issue new_issues
         = filter nonempty_entry
             (map (fun e => (fst e, map (select_star (stage_table eng)) (snd e)))
                  (fst (skip_violations clock age_lt i rules (rows (stage_table eng)))))
      /\ filter is_select (executed eng')
         = filter is_select (executed eng) ++ selects clock i rules
      /\ catalog eng' = catalog eng.
Proof.
  induction rules as [|p rest IH]; intros i issues total eng Hall.
  - exists eng, []. cbn [validations_loop skip_violations fst snd map list_sum filter selects].
    rewrite !app_nil_r, Nat.add_0_r.
    split; [reflexivity|]. split; [now destruct (stage_table eng)|].
    repeat split; reflexivity.
  - cbn [all_evaluable] in Hall. apply andb_true_iff in Hall.
    destruct Hall as [Hp Hrest].
    rewrite (skip_step i p rest issues total eng Hp). cbv zeta.
    cbn [skip_violations].
    destruct (skip_violations clock age_lt (S i) rest
                (filter (fun r => negb (violates clock age_lt i p r)) (rows (stage_table eng))))
      as [entries final] eqn:Hspec.
    cbn [fst snd map list_sum].
    assert (Hsel : select_of clock i p :: selects clock (S i) rest = selects clock i (p :: rest))
      by reflexivity.
    destruct (filter (violates clock age_lt i p) (rows (stage_table eng))) as [|b bad] eqn:Hbad.
    + pose proof (filter_negb_all _ _ Hbad) as Hsame. rewrite Hsame in Hspec.
      destruct (IH (S i) issues (total + 0) (sent eng (select_of clock i p)))
        as (eng' & new & Hrun & Hst & Hent & Hex & Hcat).
      { exact Hrest. }
      cbn [stage_table sent executed catalog] in *. rewrite Hspec in *.
      cbn [fst snd] in *.
      exists eng', new. cbn [List.length]. rewrite Hrun.
      split; [cbn [list_sum]; now rewrite <- Nat.add_assoc|].
      split; [exact Hst|]. split; [exact Hent|]. split; [|exact Hcat].
      rewrite Hex, filter_app. cbn [filter is_select select_of].
      rewrite <- app_assoc. reflexivity.
    + set (st' := with_rows (stage_table eng)
                    (filter (fun r => negb (violates clock age_lt i p r))
                       (rows (stage_table eng)))).
      destruct (IH (S i)
                  (issues ++ [mkIssue (fst p) "age_gte"
                                (map (select_star (stage_table eng)) (b :: bad))])
                  (total + List.length (b :: bad))
                  (set_stage (sent (sent eng (select_of clock i p)) (delete_of clock i p)) st'))
        as (eng' & new & Hrun & Hst & Hent & Hex & Hcat).
      { cbn [stage_table set_stage]. apply all_evaluable_with_rows; [|exact Hrest].
        intros r Hr. now apply filter_In in Hr. }
      cbn [stage_table set_stage sent rows with_rows catalog executed] in *.
      unfold st' in *. cbn [rows with_rows] in *.
      rewrite Hspec in *. cbn [fst snd] in *.
      exists eng', (mkIssue (fst p) "age_gte"
                      (map (select_star (stage_table eng)) (b :: bad)) :: new).
      rewrite Hrun.
      split; [cbn [list_sum app]; now rewrite <- !app_assoc, <- Nat.add_assoc|].
      split; [exact Hst|].
      split.
      * cbn [map entry_of_issue issue_field invalid_rows filter nonempty_entry snd].
        rewrite Hent. reflexivity.
      * split; [|exact Hcat].
        rewrite Hex, !filter_app. cbn [filter is_select select_of delete_of].
        rewrite app_nil_r, <- app_assoc. reflexivity.
Qed.

Lemma skip_violations_lengths (rules : list (string * CustomRule)) :
  forall i rs,
    list_sum (map (fun e => List.length (snd e)) (fst (skip_violations clock age_lt i rules rs)))
    + List.length (snd (skip_violations clock age_lt i rules rs))
    = List.length rs.
Proof.
  induction rules as [|p rest IH]; intros i rs; [reflexivity|].
  cbn [skip_violations].
  specialize (IH (S i) (filter (fun r => negb (violates clock age_lt i p r)) rs)).
  destruct (skip_violations clock age_lt (S i) rest
              (filter (fun r => negb (violates clock age_lt i p r)) rs))
    as [entries final].
  cbn [fst snd map list_sum] in *.
  pose proof (filter_length (violates clock age_lt i p) rs) as Hlen.
  unfold list_sum in *. cbn [fold_right]. lia.
Qed.

Lemma skip_violations_fields (rules : list (string * CustomRule)) :
  forall i rs, map fst (fst (skip_violations clock age_lt i rules rs)) = map fst rules.
Proof.
  induction rules as [|p rest IH]; intros i rs; [reflexivity|].
  cbn [skip_violations].
  specialize (IH (S i) (filter (fun r => negb (violates clock age_lt i p r)) rs)).
  destruct (skip_violations clock age_lt (S i) rest
              (filter (fun r => negb (violates clock age_lt i p r)) rs)).
  cbn [fst map] in *. now rewrite IH.
Qed.

Lemma NoDup_map_filter {A B : Type} (f : A -> B) (g : A -> bool) (l : list A) :
  NoDup (map f l) -> NoDup (map f (filter g l)).
Proof.
  induction l as [|x l IH]; intros H; [constructor|].
  cbn [map] in H. inversion H as [|? ? Hx Hl]; subst. cbn [filter].
  destruct (g x); [|now apply IH].
  cbn [map]. constructor; [|now apply IH].
  intros Hin. apply Hx. apply in_map_iff in Hin. destruct Hin as (y & Hy & Hf).
  apply filter_In in Hf. apply in_map_iff. exists y. tauto.
Qed.

(** C6: in skip mode, on rules the engine can evaluate, every rule is
    evaluated, in order (one [SELECT] each); each rule's violating rows are
    taken out of the rows left by the rules before it, the stage table
    ending as the rows no rule took out; the issues returned are the
    non-empty violation sets, each under the field of its rule (so no two
    under one field, the rules being the items of a dict); and the count
    returned is the sum of the sizes of the violation sets of all the
    rules, which is also the number of rows taken out. *)
Theorem skip_mode_removes_and_counts
  (custom_validations : list (string * CustomRule)) (eng : Engine) :
  all_evaluable clock age_lt (stage_table eng) 0 custom_validations = true ->
  exists eng' issues total,
    execute_custom_validations clock age_lt custom_validations "skip" eng
    = (eng', Ok (issues, total))
    /\ rows (stage_table eng')
       = snd (skip_violations clock age_lt 0 custom_validations (rows (stage_table eng)))
    /\ map entry_of_issue issues
       = filter nonempty_entry
           (map (fun e => (fst e, map (select_star (stage_table eng)) (snd e)))
                (fst (skip_violations clock age_lt 0 custom_validations (rows (stage_table eng)))))
    /\ (NoDup (map fst custom_validations) -> NoDup (map issue_field issues))
    /\ total
       = list_sum (map (fun e => List.length (snd e))
                       (fst (skip_violations clock age_lt 0 custom_validations
                               (rows (stage_table eng)))))
    /\ total + List.length (rows (stage_table eng'))
       = List.length (rows (stage_table eng))
    /\ filter is_select (executed eng')
       = filter is_select (executed eng) ++ selects clock 0 custom_validations.
Proof.
  intros Hall. unfold execute_custom_validations.
  destruct (skip_loop_spec custom_validations 0 [] 0 eng Hall)
    as (eng' & issues & Hrun & Hst & Hent & Hex & _).
  exists eng', issues, (list_sum (map (fun e => List.length (snd e))
                                     (fst (skip_violations clock age_lt 0 custom_validations
                                             (rows (stage_table eng)))))).
  split; [exact Hrun|]. rewrite Hst. cbn [rows with_rows].
  split; [reflexivity|]. split; [exact Hent|]. split; [|split; [reflexivity|split]].
  - intros Hnd.
    replace (map issue_field issues) with (map fst (map entry_of_issue issues))
      by (rewrite map_map; reflexivity).
    rewrite Hent. apply NoDup_map_filter. rewrite map_map. cbn [fst].
    change (fun x : string * list Row => fst x) with (@fst string (list Row)).
    now rewrite skip_violations_fields.
  - apply skip_violations_lengths.
  - exact Hex.
Qed.

Lemma all_evaluable_app (stage : Table) (l1 l2 : list (string * CustomRule)) :
  forall i, all_evaluable clock age_lt stage i (l1 ++ l2)
            = all_evaluable clock age_lt stage i l1
              && all_evaluable clock age_lt stage (i + List.length l1) l2.
Proof.
  induction l1 as [|p l1 IH]; intros i.
  - cbn. now rewrite Nat.add_0_r.
  - cbn [app all_evaluable List.length]. rewrite IH, Nat.add_succ_r, andb_assoc.
    reflexivity.
Qed.

(** In stop mode the loop raises at the first rule with a violating row,
    whatever rules follow it. *)
Lemma stop_at_first (pre : list (string * CustomRule)) :
  forall (i : nat) (p : string * CustomRule) (post : list (string * CustomRule))
         (issues : list Issue) (total : nat) (eng : Engine),
    all_evaluable clock age_lt (stage_table eng) i (pre ++ [p]) = true ->
    (forall k q, nth_error pre k = Some q ->
                 filter (violates clock age_lt (i + k) q) (rows (stage_table eng)) = []) ->
    filter (violates clock age_lt (i + List.length pre) p) (rows (stage_table eng)) <> [] ->
    loop i (pre ++ p :: post) "stop" issues total eng
    = (mkEngine (stage_table eng) (catalog eng)
         (executed eng ++ selects clock i pre ++ [select_of clock (i + List.length pre) p]),
       Raise (ValueError (failure_message (fst p)))).
Proof.
  induction pre as [|q pre IH]; intros i p post issues total eng Hall Hpre Hp.
  - cbn [app List.length selects] in *. rewrite Nat.add_0_r in *.
    cbn [all_evaluable] in Hall. apply andb_true_iff in Hall. destruct Hall as [He _].
    rewrite (loop_step i p post "stop" issues total eng He).
    destruct (filter (violates clock age_lt i p) (rows (stage_table eng))); [congruence|].
    reflexivity.
  - cbn [app all_evaluable] in Hall. apply andb_true_iff in Hall.
    destruct Hall as [He Hall]. cbn [app].
    rewrite (loop_step i q (pre ++ p :: post) "stop" issues total eng He).
    pose proof (Hpre 0 q eq_refl) as Hq. rewrite Nat.add_0_r in Hq. rewrite Hq.
    rewrite (IH (S i) p post issues (total + 0) (sent eng (select_of clock i q))).
    + cbn [stage_table catalog executed sent selects List.length].
      rewrite <- app_assoc, Nat.add_succ_r. reflexivity.
    + exact Hall.
    + intros k r Hk. cbn [stage_table sent]. specialize (Hpre (S k) r Hk).
      now rewrite Nat.add_succ_r in Hpre.
    + cbn [stage_table sent List.length] in *. now rewrite Nat.add_succ_r in Hp.
Qed.

Lemma first_violation (rs : list Row) (rules : list (string * CustomRule)) :
  forall i,
    (exists k q, nth_error rules k = Some q /\ filter (violates clock age_lt (i + k) q) rs <> []) ->
    exists pre p post,
      rules = pre ++ p :: post
      /\ (forall k q, nth_error pre k = Some q -> filter (violates clock age_lt (i + k) q) rs = [])
      /\ filter (violates clock age_lt (i + List.length pre) p) rs <> [].
Proof.
  induction rules as [|p rest IH]; intros i (k & q & Hk & Hq).
  - destruct k; discriminate.
  - destruct (filter (violates clock age_lt i p) rs) as [|b bad] eqn:Hp.
    + destruct k as [|k].
      * cbn in Hk. injection Hk as ->. rewrite Nat.add_0_r in Hq. congruence.
      * destruct (IH (S i)) as (pre & p' & post & -> & Hpre & Hp').
        { exists k, q. split; [exact Hk|]. now rewrite Nat.add_succ_r in Hq. }
        exists (p :: pre), p', post. split; [reflexivity|]. split.
        -- intros [|j] r Hj.
           ++ cbn in Hj. injection Hj as <-. now rewrite Nat.add_0_r.
           ++ rewrite Nat.add_succ_r. now apply (Hpre j r).
        -- cbn [List.length]. now rewrite Nat.add_succ_r.
    + exists [], p, rest. split; [reflexivity|]. split.
      * intros [|j] r Hj; discriminate.
      * cbn [List.length]. rewrite Nat.add_0_r, Hp. discriminate.
Qed.

(** C5: in stop mode, on rules the engine can evaluate, if some rule has
    a violating row then the run raises at the first such rule, with an
    error that names its field; the statements sent are the [SELECT]s of
    the rules up to that one and nothing else, the stage table is
    untouched, and the same happens whatever rules follow. *)
Theorem stop_mode_aborts_at_first_violation
  (custom_validations : list (string * CustomRule)) (eng : Engine) :
  all_evaluable clock age_lt (stage_table eng) 0 custom_validations = true ->
  (exists k q, nth_error custom_validations k = Some q
               /\ filter (violates clock age_lt k q) (rows (stage_table eng)) <> []) ->
  exists pre p post,
    custom_validations = pre ++ p :: post
    /\ (forall k q, nth_error pre k = Some q ->
                    filter (violates clock age_lt k q) (rows (stage_table eng)) = [])
    /\ filter (violates clock age_lt (List.length pre) p) (rows (stage_table eng)) <> []
    /\ forall post',
        execute_custom_validations clock age_lt (pre ++ p :: post') "stop" eng
        = (mkEngine (stage_table eng) (catalog eng)
             (executed eng ++ selects clock 0 pre ++ [select_of clock (List.length pre) p]),
           Raise (ValueError (failure_message (fst p)))).
Proof.
  intros Hall Hsome.
  destruct (first_violation (rows (stage_table eng)) custom_validations 0 Hsome)
    as (pre & p & post & -> & Hpre & Hp).
  exists pre, p, post. cbn [Nat.add] in *.
  split; [reflexivity|]. split; [exact Hpre|]. split; [exact Hp|].
  intros post'. unfold execute_custom_validations.
  apply (stop_at_first pre 0 p post' [] 0 eng); [|exact Hpre|exact Hp].
  change (pre ++ p :: post) with (pre ++ [p] ++ post) in Hall.
  rewrite app_assoc, all_evaluable_app in Hall.
  now apply andb_true_iff in Hall.
Qed.

End Rules.

(** ** Projections *)

Lemma aliases_loop_missing (aliases : list (string * string)) (schema : Schema) :
  forall query original alias,
    In (original, alias) aliases -> in_schema original schema = false ->
    exists field,
      In field (map fst aliases) /\ in_schema field schema = false
      /\ aliases_loop query aliases schema = Raise (ValueError (missing_field_message field)).
Proof.
  induction aliases as [|[o a] rest IH]; intros query original alias Hin Hs; [destruct Hin|].
  cbn [aliases_loop map fst]. destruct (in_schema o schema) eqn:E.
  - destruct Hin as [Hin|Hin]; [injection Hin as -> ->; congruence|].
    destruct (IH (replace o (o ++ " AS " ++ a)%string query) original alias Hin Hs)
      as (f & Hf & Hfs & Hrun).
    exists f. split; [now right|]. split; assumption.
  - exists o. split; [now left|]. split; [assumption|reflexivity].
Qed.

Lemma apply_aliases_missing (query : string) (aliases : list (string * string))
  (schema : Schema) (original alias : string) :
  In (original, alias) aliases -> in_schema original schema = false ->
  exists field,
    In field (map fst aliases) /\ in_schema field schema = false
    /\ apply_aliases query aliases schema = Raise (ValueError (missing_field_message field)).
Proof.
  intros Hin Hs. unfold apply_aliases. destruct aliases as [|x rest]; [destruct Hin|].
  now apply (aliases_loop_missing (x :: rest) schema query original alias).
Qed.

Lemma aliases_loop_raises (aliases : list (string * string)) (schema : Schema) :
  forall query e, aliases_loop query aliases schema = Raise e -> exists msg, e = ValueError msg.
Proof.
  induction aliases as [|[o a] rest IH]; intros query e H; [discriminate|].
  cbn [aliases_loop] in H. destruct (in_schema o schema); [exact (IH _ e H)|].
  injection H as <-. now eexists.
Qed.

Lemma apply_aliases_raises (query : string) (aliases : list (string * string))
  (schema : Schema) (e : Exn) :
  apply_aliases query aliases schema = Raise e -> exists msg, e = ValueError msg.
Proof.
  unfold apply_aliases. destruct aliases; [discriminate|]. apply aliases_loop_raises.
Qed.

Lemma lookup_dict_set_same {A : Type} (k : string) (v : A) (d : list (string * A)) :
  lookup k (dict_set k v d) = Some v.
Proof.
  induction d as [|[k' v'] d IH]; cbn [dict_set lookup].
  - now rewrite String.eqb_refl.
  - destruct (String.eqb k k') eqn:E; cbn [lookup].
    + now rewrite String.eqb_refl.
    + now rewrite E.
Qed.

Lemma lookup_dict_set_other {A : Type} (k k' : string) (v : A) (d : list (string * A)) :
  String.eqb k' k = false -> lookup k' (dict_set k v d) = lookup k' d.
Proof.
  intros Hne. induction d as [|[k0 v0] d IH]; cbn [dict_set lookup].
  - now rewrite Hne.
  - destruct (String.eqb k k0) eqn:E; cbn [lookup].
    + apply String.eqb_eq in E. subst k0. now rewrite Hne.
    + now rewrite IH.
Qed.

Section Projections.

Variable engine_accepts : Engine -> Statement -> bool.

Local Abbreviation create := (create_with_projection engine_accepts).

Ltac run_head := unfold bindM, item, ret, raise; cbv beta iota.

(** What one projection with all its keys does once its aliases are
    checked. *)
Lemma create_bad_alias (kind : string) (statement : string -> string -> Statement)
  (table : string) (schema : Schema) (p : Projection) (rest : list Projection)
  (name query msg : string) (eng : Engine) :
  proj_name p = Some name -> proj_query p = Some query ->
  apply_aliases (replace table (table ++ "_stage")%string query) (proj_aliases p) schema
  = Raise (ValueError msg) ->
  create kind statement table (p :: rest) schema eng
  = create kind statement table rest schema eng.
Proof.
  intros Hn Hq Ha. cbn [create_with_projection].
  destruct (negb (is_string kind (proj_type p))); [reflexivity|].
  rewrite Hn, Hq. run_head.
  destruct (query =? ""); [reflexivity|]. now rewrite Ha.
Qed.

Lemma create_congruence (kind : string) (statement : string -> string -> Statement)
  (table : string) (schema : Schema) (a : Projection) (l1 l2 : list Projection) :
  (forall eng, create kind statement table l1 schema eng
               = create kind statement table l2 schema eng) ->
  forall eng, create kind statement table (a :: l1) schema eng
              = create kind statement table (a :: l2) schema eng.
Proof.
  intros H eng. cbn [create_with_projection].
  destruct (negb (is_string kind (proj_type a))); [apply H|].
  destruct (proj_name a) as [n|]; [|reflexivity].
  destruct (proj_query a) as [q|]; [|reflexivity].
  run_head.
  destruct (q =? ""); [apply H|].
  destruct (apply_aliases _ (proj_aliases a) schema) as [q'|[m|k|m]]; try reflexivity;
    [|apply H].
  destruct (swallow _ eng) as [e3 [u|e]]; [apply H|reflexivity].
Qed.

Lemma create_without (kind : string) (statement : string -> string -> Statement)
  (table : string) (schema : Schema) (p : Projection) (ps1 ps2 : list Projection)
  (name query msg : string) :
  proj_name p = Some name -> proj_query p = Some query ->
  apply_aliases (replace table (table ++ "_stage")%string query) (proj_aliases p) schema
  = Raise (ValueError msg) ->
  forall eng, create kind statement table (ps1 ++ p :: ps2) schema eng
              = create kind statement table (ps1 ++ ps2) schema eng.
Proof.
  intros Hn Hq Ha. induction ps1 as [|a ps1 IH]; intros eng.
  - now apply (create_bad_alias kind statement table schema p ps2 name query msg).
  - cbn [app]. now apply create_congruence.
Qed.

Lemma executed_execute (s : Statement) (eng : Engine) :
  executed (fst (execute engine_accepts s eng)) = executed eng ++ [s].
Proof.
  unfold execute. destruct (engine_accepts eng s); [|reflexivity].
  now destruct (relation_of s) as [[x r]|].
Qed.

(** The statements sent only grow. *)
Lemma create_extends (kind : string) (statement : string -> string -> Statement)
  (table : string) (schema : Schema) (ps : list Projection) :
  forall eng, exists more,
    executed (fst (create kind statement table ps schema eng)) = executed eng ++ more.
Proof.
  assert (Hnil : forall eng : Engine, exists more, executed eng = executed eng ++ more)
    by (intros eng; exists []; now rewrite app_nil_r).
  induction ps as [|a ps IH]; intros eng; [apply Hnil|].
  cbn [create_with_projection].
  destruct (negb (is_string kind (proj_type a))); [apply IH|].
  destruct (proj_name a) as [n|]; [|apply Hnil].
  destruct (proj_query a) as [q|]; [|apply Hnil].
  run_head.
  destruct (q =? ""); [apply IH|].
  destruct (apply_aliases _ (proj_aliases a) schema) as [q'|[m|k|m]];
    try apply Hnil; [|apply IH].
  unfold swallow.
  destruct (IH (fst (execute engine_accepts (statement n q') eng))) as (more & Hm).
  exists (statement n q' :: more). rewrite Hm, executed_execute.
  now rewrite <- app_assoc.
Qed.

(** Every projection of the kind that has its keys, a query and aliases
    in the schema has its statement sent, when no projection of the kind
    lacks a key. *)
Lemma create_sends (kind : string) (statement : string -> string -> Statement)
  (table : string) (schema : Schema) (ps : list Projection) :
  (forall a, In a ps -> is_string kind (proj_type a) = true ->
             proj_name a <> None /\ proj_query a <> None) ->
  forall q name query rewritten,
    In q ps -> is_string kind (proj_type q) = true ->
    proj_name q = Some name -> proj_query q = Some query -> query <> "" ->
    apply_aliases (replace table (table ++ "_stage")%string query) (proj_aliases q) schema
    = Ok rewritten ->
    forall eng,
      In (statement name rewritten)
         (executed (fst (create kind statement table ps schema eng))).
Proof.
  induction ps as [|a ps IH]; intros Hkeys q name query rewritten Hin Hk Hn Hq Hne Ha eng;
    [destruct Hin|].
  assert (Htail : In q ps -> forall eng',
               In (statement name rewritten)
                  (executed (fst (create kind statement table ps schema eng')))).
  { intros Hin' eng'.
    apply (IH (fun b Hb => Hkeys b (or_intror Hb)) q name query rewritten); assumption. }
  cbn [create_with_projection].
  destruct (is_string kind (proj_type a)) eqn:Hka; cbn [negb].
  - destruct (Hkeys a (or_introl eq_refl) Hka) as [Hna Hqa].
    destruct (proj_name a) as [n|] eqn:En; [|congruence].
    destruct (proj_query a) as [s|] eqn:Es; [|congruence].
    run_head.
    destruct Hin as [<-|Hin].
    + rewrite Hn in En. injection En as <-. rewrite Hq in Es. injection Es as <-.
      apply String.eqb_neq in Hne. rewrite Hne, Ha. unfold swallow.
      destruct (create_extends kind statement table schema ps
                  (fst (execute engine_accepts (statement name rewritten) eng)))
        as (more & ->).
      rewrite executed_execute. apply in_or_app. left. apply in_or_app. right. now left.
    + destruct (s =? ""); [now apply Htail|].
      destruct (apply_aliases _ (proj_aliases a) schema) as [q'|e] eqn:Ea.
      * unfold swallow. now apply Htail.
      * destruct (apply_aliases_raises _ _ _ _ Ea) as (msg & ->). now apply Htail.
  - destruct Hin as [<-|Hin]; [congruence|]. now apply Htail.
Qed.

Lemma catalog_execute (s : Statement) (eng : Engine) :
  catalog (fst (execute engine_accepts s eng))
  = if engine_accepts eng s then
      match relation_of s with
      | Some (n, r) => dict_set n r (catalog eng)
      | None => catalog eng
      end
    else catalog eng.
Proof.
  unfold execute. destruct (engine_accepts eng s); [|reflexivity].
  now destruct (relation_of s) as [[x r]|].
Qed.

(** A projection of the kind that has its keys, a query and aliases in
    the schema, and whose statement the engine accepts, is in the session
    when the builder ends, under its name, when no other projection of the
    kind has that name and none lacks a key. *)
Lemma create_builds (kind : string) (statement : string -> string -> Statement)
  (relation : string -> Relation) (table : string) (schema : Schema)
  (q : Projection) (name query rewritten : string) :
  (forall n s, relation_of (statement n s) = Some (n, relation s)) ->
  is_string kind (proj_type q) = true ->
  proj_name q = Some name -> proj_query q = Some query -> query <> "" ->
  apply_aliases (replace table (table ++ "_stage")%string query) (proj_aliases q) schema
  = Ok rewritten ->
  (forall e, engine_accepts e (statement name rewritten) = true) ->
  forall ps,
    (forall a, In a ps -> is_string kind (proj_type a) = true ->
               proj_name a <> None /\ proj_query a <> None) ->
    (forall a, In a ps -> is_string kind (proj_type a) = true ->
               proj_name a = Some name -> a = q) ->
    forall eng,
      In q ps \/ lookup name (catalog eng) = Some (relation rewritten) ->
      lookup name (catalog (fst (create kind statement table ps schema eng)))
      = Some (relation rewritten).
Proof.
  intros Hrel Hk Hn Hq Hne Ha Hacc.
  induction ps as [|a ps IH]; intros Hkeys Hone eng Hin.
  - destruct Hin as [[]|Hin]. exact Hin.
  - assert (Hkeys' : forall b, In b ps -> is_string kind (proj_type b) = true ->
                                proj_name b <> None /\ proj_query b <> None)
      by (intros b Hb; apply Hkeys; now right).
    assert (Hone' : forall b, In b ps -> is_string kind (proj_type b) = true ->
                               proj_name b = Some name -> b = q)
      by (intros b Hb; apply Hone; now right).
    assert (Hskip : a <> q ->
                    lookup name (catalog (fst (create kind statement table ps schema eng)))
                    = Some (relation rewritten)).
    { intros Hd. apply (IH Hkeys' Hone').
      destruct Hin as [[E|Hin]|Hin]; [congruence|now left|now right]. }
    cbn [create_with_projection].
    destruct (is_string kind (proj_type a)) eqn:Hka; cbn [negb];
      [|apply Hskip; congruence].
    destruct (Hkeys a (or_introl eq_refl) Hka) as [Hna Hqa].
    destruct (proj_name a) as [n|] eqn:En; [|congruence].
    destruct (proj_query a) as [s|] eqn:Es; [|congruence].
    run_head.
    destruct (s =? "") eqn:Eempty.
    { apply Hskip. intros ->. apply String.eqb_eq in Eempty. congruence. }
    destruct (apply_aliases _ (proj_aliases a) schema) as [s'|e] eqn:Ea.
    2:{ destruct (apply_aliases_raises _ _ _ _ Ea) as (msg & ->).
        apply Hskip. intros ->. congruence. }
    unfold swallow.
    destruct (execute engine_accepts (statement n s') eng) as [eng1 res] eqn:Ex.
    assert (Hcat : catalog eng1
                   = if engine_accepts eng (statement n s') then
                       dict_set n (relation s') (catalog eng)
                     else catalog eng).
    { pose proof (catalog_execute (statement n s') eng) as Hc.
      rewrite Ex, Hrel in Hc. exact Hc. }
    assert (Hnext : In q ps \/ lookup name (catalog eng1) = Some (relation rewritten)).
    { destruct (String.eqb name n) eqn:Enn.
      - apply String.eqb_eq in Enn. subst n.
        assert (a = q) by (apply Hone; [now left|assumption|assumption]). subst a.
        rewrite Hq in Es. injection Es as <-. rewrite Ha in Ea. injection Ea as <-.
        right. rewrite Hcat, Hacc. apply lookup_dict_set_same.
      - assert (Hsame : lookup name (catalog eng1) = lookup name (catalog eng)).
        { rewrite Hcat. destruct (engine_accepts eng (statement n s')); [|reflexivity].
          now apply lookup_dict_set_other. }
        destruct Hin as [[E|Hin]|Hin].
        + subst a. rewrite Hn in En. injection En as <-.
          rewrite String.eqb_refl in Enn. discriminate.
        + now left.
        + right. now rewrite Hsame. }
    destruct res as [u|e]; cbn [fst]; exact (IH Hkeys' Hone' eng1 Hnext).
Qed.

End Projections.

Lemma is_string_true (s : string) (o : option string) :
  is_string s o = true <-> o = Some s.
Proof.
  unfold is_string. destruct o as [s'|]; [|split; discriminate].
  rewrite String.eqb_eq. split; [now intros -> | now intros [= ->]].
Qed.

(** C8: a projection whose alias mapping names a field the schema lacks
    fails in [apply_aliases] with a [ValueError] naming a missing field,
    and building the list with that projection leaves the session exactly
    as building the list without it does, for views and for tables.  Every
    other projection is still built: each view (each table) of the rest of
    the list that has a query and aliases in the schema has its
    [CREATE OR REPLACE VIEW] ([CREATE TABLE]) sent, and when the engine
    accepts that statement the session ends with the projection under its
    name, with the rewritten query (no other projection of the type lacking
    its [name] or [query] key, none having the same name). *)
Theorem bad_alias_skips_that_projection_only
  (engine_accepts : Engine -> Statement -> bool) (table : string) (schema : Schema)
  (ps1 ps2 : list Projection) (p : Projection) (name query original alias : string)
  (eng : Engine) :
  proj_name p = Some name ->
  proj_query p = Some query ->
  In (original, alias) (proj_aliases p) ->
  in_schema original schema = false ->
  (exists field,
      In field (map fst (proj_aliases p)) /\ in_schema field schema = false
      /\ apply_aliases (replace table (table ++ "_stage")%string query)
           (proj_aliases p) schema
         = Raise (ValueError (missing_field_message field)))
  /\ create_views_with_projection engine_accepts table (ps1 ++ p :: ps2) schema eng
     = create_views_with_projection engine_accepts table (ps1 ++ ps2) schema eng
  /\ create_tables_with_projection engine_accepts table (ps1 ++ p :: ps2) schema eng
     = create_tables_with_projection engine_accepts table (ps1 ++ ps2) schema eng
  /\ ((forall a, In a (ps1 ++ ps2) -> proj_type a = Some "view" ->
                 proj_name a <> None /\ proj_query a <> None) ->
      forall q n s rewritten,
        In q (ps1 ++ ps2) -> proj_type q = Some "view" ->
        proj_name q = Some n -> proj_query q = Some s -> s <> "" ->
        apply_aliases (replace table (table ++ "_stage")%string s) (proj_aliases q) schema
        = Ok rewritten ->
        In (CreateOrReplaceView n rewritten)
           (executed (fst (create_views_with_projection engine_accepts table
                             (ps1 ++ p :: ps2) schema eng)))
        /\ ((forall e, engine_accepts e (CreateOrReplaceView n rewritten) = true) ->
            (forall a, In a (ps1 ++ ps2) -> proj_type a = Some "view" ->
                       proj_name a = Some n -> a = q) ->
            lookup n (catalog (fst (create_views_with_projection engine_accepts table
                                      (ps1 ++ p :: ps2) schema eng)))
            = Some (View rewritten)))
  /\ ((forall a, In a (ps1 ++ ps2) -> proj_type a = Some "table" ->
                 proj_name a <> None /\ proj_query a <> None) ->
      forall q n s rewritten,
        In q (ps1 ++ ps2) -> proj_type q = Some "table" ->
        proj_name q = Some n -> proj_query q = Some s -> s <> "" ->
        apply_aliases (replace table (table ++ "_stage")%string s) (proj_aliases q) schema
        = Ok rewritten ->
        In (CreateTableAs n rewritten)
           (executed (fst (create_tables_with_projection engine_accepts table
                             (ps1 ++ p :: ps2) schema eng)))
        /\ ((forall e, engine_accepts e (CreateTableAs n rewritten) = true) ->
            (forall a, In a (ps1 ++ ps2) -> proj_type a = Some "table" ->
                       proj_name a = Some n -> a = q) ->
            lookup n (catalog (fst (create_tables_with_projection engine_accepts table
                                      (ps1 ++ p :: ps2) schema eng)))
            = Some (Materialized rewritten))).
Proof.
  intros Hn Hq Hin Hs.
  destruct (apply_aliases_missing (replace table (table ++ "_stage")%string query)
              (proj_aliases p) schema original alias Hin Hs) as (field & Hf & Hfs & Hrun).
  split; [exists field; now repeat split|].
  unfold create_views_with_projection, create_tables_with_projection.
  rewrite !(create_without engine_accepts _ _ table schema p ps1 ps2 name query
              (missing_field_message field) Hn Hq Hrun).
  split; [reflexivity|]. split; [reflexivity|].
  assert (Hboth : forall kind statement relation,
             (forall n s, relation_of (statement n s) = Some (n, relation s)) ->
             (forall a, In a (ps1 ++ ps2) -> proj_type a = Some kind ->
                        proj_name a <> None /\ proj_query a <> None) ->
             forall q n s rewritten,
               In q (ps1 ++ ps2) -> proj_type q = Some kind ->
               proj_name q = Some n -> proj_query q = Some s -> s <> ""%string ->
               apply_aliases (replace table (table ++ "_stage")%string s)
                 (proj_aliases q) schema = Ok rewritten ->
               In (statement n rewritten)
                  (executed (fst (create_with_projection engine_accepts kind statement
                                    table (ps1 ++ ps2) schema eng)))
               /\ ((forall e, engine_accepts e (statement n rewritten) = true) ->
                   (forall a, In a (ps1 ++ ps2) -> proj_type a = Some kind ->
                              proj_name a = Some n -> a = q) ->
                   lookup n (catalog (fst (create_with_projection engine_accepts kind
                                             statement table (ps1 ++ ps2) schema eng)))
                   = Some (relation rewritten))).
  { intros kind statement relation Hrel Hkeys q n s rewritten Hq' Ht Hn' Hs' Hne Ha.
    assert (Hkeys' : forall a, In a (ps1 ++ ps2) -> is_string kind (proj_type a) = true ->
                               proj_name a <> None /\ proj_query a <> None).
    { intros a Ha' Hk. apply Hkeys; [assumption|now apply is_string_true]. }
    split.
    - apply (create_sends engine_accepts kind statement table schema (ps1 ++ ps2))
        with (q := q) (query := s); try assumption.
      now apply is_string_true.
    - intros Hacc Hone.
      apply (create_builds engine_accepts kind statement relation table schema q n s
               rewritten); try assumption.
      + now apply is_string_true.
      + intros a Ha' Hk. apply Hone; [assumption|now apply is_string_true].
      + now left. }
  split.
  - apply (Hboth "view"%string CreateOrReplaceView View). reflexivity.
  - apply (Hboth "table"%string CreateTableAs Materialized). reflexivity.
Qed.

Lemma bad_alias_skips_that_projection_only_witness :
  create_views_with_projection accept_all "employees"
    ([view_ids] ++ view_salaries :: [view_birthdays]) employee_schema
    (mkEngine employees_stage [] [])
  = create_views_with_projection accept_all "employees"
      ([view_ids] ++ [view_birthdays]) employee_schema
      (mkEngine employees_stage [] [])
  /\ lookup "birthdays"
       (catalog (fst (create_views_with_projection accept_all "employees"
                        ([view_ids] ++ view_salaries :: [view_birthdays]) employee_schema
                        (mkEngine employees_stage [] []))))
     = Some (View "SELECT birthday_on FROM employees_stage").
Proof.
  destruct (bad_alias_skips_that_projection_only accept_all "employees" employee_schema
              [view_ids] [view_birthdays] view_salaries "salaries"
              "SELECT salary FROM employees" "salary" "pay"
              (mkEngine employees_stage [] []) eq_refl eq_refl (or_introl eq_refl) eq_refl)
    as (_ & Hsame & _ & Hviews & _).
  split; [exact Hsame|].
  assert (Hkeys : forall a, In a ([view_ids] ++ [view_birthdays]) ->
                            proj_type a = Some "view"%string ->
                            proj_name a <> None /\ proj_query a <> None).
  { intros a [<-|[<-|[]]] _; split; discriminate. }
  destruct (Hviews Hkeys view_birthdays "birthdays"%string
              "SELECT birthday_on FROM employees"%string
              "SELECT birthday_on FROM employees_stage"%string
              (or_intror (or_introl eq_refl)) eq_refl eq_refl eq_refl)
    as [_ Hbuilt]; [discriminate|reflexivity|].
  apply Hbuilt; [reflexivity|].
  intros a [<-|[<-|[]]] _ H; [discriminate H|reflexivity].
Defined.

(** ** The run *)

(** When the rule stage raises, [main] has written what the schema stage
    and the deduplication stage gave it and nothing of the rule stage. *)
Lemma main_on_rule_abort (clock : nat -> string)
  (age_lt : string -> Z -> Value -> option bool)
  (engine_accepts : Engine -> Statement -> bool)
  (create_pydantic_model : Schema -> Model)
  (entity output_dir : string) (df : Table) (schema_fields : Schema)
  (rules : list (string * CustomRule)) (pol mode : string)
  (keys : list (list string)) (projections : list Projection)
  (valid_records : Table) (schema_errors : list ErrorRecord)
  (stage : Table) (duplicate_rows : list Row) (eng : Engine) (e : Exn) :
  validate_format_with_pydantic create_pydantic_model df schema_fields
  = (valid_records, schema_errors) ->
  schema_errors = [] \/ (mode =? "stop") = false ->
  remove_duplicates_from_stage_table valid_records keys pol = Ok (stage, duplicate_rows) ->
  execute_custom_validations clock age_lt
    (fold_left (fun d fr => dict_set (fst fr) (snd fr) d) rules []) mode
    (mkEngine stage [] [])
  = (eng, Raise e) ->
  main clock age_lt engine_accepts create_pydantic_model entity output_dir df
    schema_fields rules pol mode keys projections
  = mkRun
      (save_errors (FrameData duplicate_rows) "duplicates" entity output_dir
         (save_errors (RecordData schema_errors) "schema_validation" entity
            output_dir []))
      (handler e) (Some eng).
Proof.
  intros Hv Hs Hd Hr. unfold main. rewrite Hv.
  assert (Hgo : match schema_errors with [] => false | _ => mode =? "stop" end = false).
  { destruct Hs as [-> | Hs]; [reflexivity|]. now destruct schema_errors. }
  rewrite Hgo, Hd, Hr.
  destruct schema_errors; destruct duplicate_rows; reflexivity.
Qed.

(** C4: the run on [employees_csv] in stop mode ends with the error of
    the rule on [birthday_on]; the only file written is the duplicates
    file, so the violating row of that rule, which skip mode writes to
    [employees_custom_birthday_on_errors.csv], is in no file. *)
Theorem stop_violation_rows_not_written :
  outcome (sample_run "stop") = ValidationFailure (failure_message "birthday_on")
  /\ files (sample_run "stop")
     = [(error_path "output" "employees" "duplicates",
         [[("employee_id", VInt 3); ("birthday_on", VDate 1995 5 15); ("rn", VInt 2)]])]
  /\ files (sample_run "skip")
     = [(error_path "output" "employees" "duplicates",
         [[("employee_id", VInt 3); ("birthday_on", VDate 1995 5 15); ("rn", VInt 2)]]);
        (error_path "output" "employees" "custom_birthday_on",
         [[("employee_id", VInt 2); ("birthday_on", VDate 2010 1 1)]])].
Proof. repeat split; vm_compute; reflexivity. Qed.

(** ** Instances *)

Lemma single_key_group_counts_witness :
  exists stage removed,
    remove_duplicates_from_stage_table ties [["a"; "b"]] "last" = Ok (stage, removed)
    /\ group_count ["a"; "b"] [VInt 1; VInt 1] (rows stage) = 1
    /\ group_count ["a"; "b"] [VInt 1; VInt 1] removed = 2.
Proof.
  refine (proj1 (single_key_group_counts ties ["a"; "b"] "last" [VInt 1; VInt 1] 3
                   _ _ _ _ _)).
  - discriminate.
  - intros c [<-|[<-|[]]]; simpl; tauto.
  - reflexivity.
  - lia.
  - right; left; reflexivity.
Defined.

Lemma stop_mode_aborts_at_first_violation_witness :
  exists pre p post,
    [("birthday_on", age_rule 18)] = pre ++ p :: post
    /\ execute_custom_validations sample_clock sample_age_lt (pre ++ p :: post) "stop"
         (mkEngine employees_stage [] [])
       = (mkEngine employees_stage []
            ([] ++ selects sample_clock 0 pre
                ++ [select_of sample_clock (List.length pre) p]),
          Raise (ValueError (failure_message (fst p)))).
Proof.
  destruct (stop_mode_aborts_at_first_violation sample_clock sample_age_lt
              [("birthday_on", age_rule 18)] (mkEngine employees_stage [] []))
    as (pre & p & post & Heq & _ & _ & Hrun).
  - reflexivity.
  - exists 0, ("birthday_on", age_rule 18). split; [reflexivity|].
    vm_compute. discriminate.
  - exists pre, p, post. split; [exact Heq | apply Hrun].
Defined.

Lemma skip_mode_removes_and_counts_witness :
  exists eng' issues total,
    execute_custom_validations sample_clock sample_age_lt
      [("birthday_on", age_rule 18)] "skip" (mkEngine employees_stage [] [])
    = (eng', Ok (issues, total))
    /\ total + List.length (rows (stage_table eng')) = 3.
Proof.
  destruct (skip_mode_removes_and_counts sample_clock sample_age_lt
              [("birthday_on", age_rule 18)] (mkEngine employees_stage [] []))
    as (eng' & issues & total & Hrun & _ & _ & _ & _ & Hlen & _).
  - reflexivity.
  - exists eng', issues, total. split; [exact Hrun | exact Hlen].
Defined.

(** * Further properties *)

(** ** Selections *)

Lemma subsequence_refl {A : Type} (l : list A) : subsequence l l.
Proof. induction l; constructor; assumption. Qed.

Lemma subsequence_trans {A : Type} (l1 l2 l3 : list A) :
  subsequence l1 l2 -> subsequence l2 l3 -> subsequence l1 l3.
Proof.
  intros H12 H23. revert l1 H12.
  induction H23 as [|x l2 l3 H IH|x l2 l3 H IH]; intros l1 H12.
  - exact H12.
  - inversion H12; subst.
    + constructor. now apply IH.
    + apply subsequence_drop. now apply IH.
  - apply subsequence_drop. now apply IH.
Qed.

Lemma subsequence_filter {A : Type} (f : A -> bool) (l : list A) :
  subsequence (filter f l) l.
Proof.
  induction l as [|x l IH]; [constructor|]. simpl.
  destruct (f x); constructor; assumption.
Qed.

Lemma subsequence_map {A B : Type} (f : A -> B) (l1 l2 : list A) :
  subsequence l1 l2 -> subsequence (map f l1) (map f l2).
Proof. induction 1; simpl; constructor; assumption. Qed.

Lemma subsequence_nil_l {A : Type} (l : list A) : subsequence [] l.
Proof. induction l; constructor; assumption. Qed.

Lemma subsequence_mask_select (rs : list Row) (mask : list bool) :
  subsequence (mask_select rs mask) rs.
Proof.
  revert mask. induction rs as [|r rs IH]; intros mask.
  - destruct mask; constructor.
  - destruct mask as [|b mask]; simpl.
    + apply subsequence_nil_l.
    + destruct b; constructor; apply IH.
Qed.

Lemma subsequence_length {A : Type} (l1 l2 : list A) :
  subsequence l1 l2 -> List.length l1 <= List.length l2.
Proof. induction 1; simpl; lia. Qed.

Lemma subsequence_in {A : Type} (l1 l2 : list A) (x : A) :
  subsequence l1 l2 -> In x l1 -> In x l2.
Proof.
  induction 1 as [|y l1 l2 H IH|y l1 l2 H IH]; simpl; [tauto| |].
  - intros [->|Hin]; [now left | right; now apply IH].
  - intros Hin. right. now apply IH.
Qed.

Lemma subsequence_group_count (key : list string) (t : list Value) (l1 l2 : list Row) :
  subsequence l1 l2 -> group_count key t l1 <= group_count key t l2.
Proof.
  induction 1 as [|x l1 l2 H IH|x l1 l2 H IH]; [lia| |];
    rewrite ?group_count_cons; lia.
Qed.

Lemma row_number_length (key : list string) (seen rs : list Row) :
  List.length (row_number_over key seen rs) = List.length rs.
Proof. rewrite <- (row_number_fst key seen rs) at 2. now rewrite length_map. Qed.

Lemma row_number_kept_subsequence (key : list string) (rs : list Row) :
  subsequence
    (map fst (filter (fun p => negb (1 <? snd p)%nat) (row_number_over key [] rs))) rs.
Proof.
  rewrite <- (row_number_fst key [] rs) at 2.
  apply subsequence_map, subsequence_filter.
Qed.

(** ** Deduplication in the engine: what every run keeps *)

Lemma bind_columns_same (a b : Table) (key : list string) :
  columns a = columns b -> bind_columns a key = bind_columns b key.
Proof. intros H. unfold bind_columns. now rewrite H. Qed.

Lemma bind_columns_unit (t : Table) (key : list string) (u : unit) :
  bind_columns t key = Ok u -> bind_columns t key = Ok tt.
Proof. now destruct u. Qed.

Lemma exclude_all_pass_facts (stage : Table) (key : list string)
  (duplicates : list Row) (stage' : Table) :
  select_duplicated_groups stage key = Ok duplicates ->
  delete_duplicated_groups stage key = Ok stage' ->
  bind_columns stage key = Ok tt
  /\ columns stage' = columns stage
  /\ subsequence (rows stage') (rows stage)
  /\ List.length (rows stage') + List.length duplicates = List.length (rows stage)
  /\ forall t, group_count key t (rows stage') <= 1.
Proof.
  unfold select_duplicated_groups, delete_duplicated_groups.
  destruct (bind_columns stage key) as [[]|e]; [|discriminate].
  cbn [bind]. intros [= <-] [= <-]. cbn [rows columns with_rows].
  split; [reflexivity|]. split; [reflexivity|]. split; [apply subsequence_filter|].
  split.
  - rewrite length_map.
    pose proof (filter_length (in_duplicated_group key (rows stage)) (rows stage)). lia.
  - intros t. rewrite not_excluded_group_count.
    destruct (1 <? group_count key t (rows stage))%nat eqn:E; [lia|].
    apply Nat.ltb_ge in E. exact E.
Qed.

Lemma row_number_pass_facts (stage : Table) (key : list string)
  (duplicates : list Row) (stage' : Table) :
  select_row_number_gt_1 stage key = Ok duplicates ->
  delete_row_number_gt_1 stage key = Ok stage' ->
  bind_columns stage key = Ok tt
  /\ columns stage' = columns stage
  /\ subsequence (rows stage') (rows stage)
  /\ List.length (rows stage') + List.length duplicates = List.length (rows stage)
  /\ forall t, group_count key t (rows stage') <= 1.
Proof.
  unfold select_row_number_gt_1, delete_row_number_gt_1.
  destruct (bind_columns stage key) as [[]|e]; [|discriminate].
  cbn [bind]. intros [= <-] [= <-]. cbn [rows columns with_rows].
  split; [reflexivity|]. split; [reflexivity|].
  split; [apply row_number_kept_subsequence|]. split.
  - rewrite !length_map.
    pose proof (filter_length (fun p : Row * nat => (1 <? snd p)%nat)
                  (row_number_over key [] (rows stage))) as H.
    rewrite row_number_length in H. lia.
  - intros t. rewrite row_number_kept_count. cbn.
    destruct (group_count key t (rows stage)); cbn; lia.
Qed.

Lemma dedup_loop_conserves (keys : list (list string)) (pol : string) :
  forall (stage : Table) (acc : list (list Row)) (stage' : Table)
         (acc' : list (list Row)),
    dedup_loop keys pol stage acc = Ok (stage', acc') ->
    columns stage' = columns stage
    /\ subsequence (rows stage') (rows stage)
    /\ List.length (rows stage') + List.length (List.concat acc')
       = List.length (rows stage) + List.length (List.concat acc).
Proof.
  induction keys as [|k keys IH]; intros stage acc stage' acc' H.
  - cbn in H. injection H as <- <-.
    split; [reflexivity|]. split; [apply subsequence_refl|reflexivity].
  - cbn [dedup_loop] in H.
    assert (Hstep : forall d s,
               bind_columns stage k = Ok tt
               /\ columns s = columns stage
               /\ subsequence (rows s) (rows stage)
               /\ List.length (rows s) + List.length d = List.length (rows stage)
               /\ (forall t, group_count k t (rows s) <= 1) ->
               dedup_loop keys pol s (acc ++ [d]) = Ok (stage', acc') ->
               columns stage' = columns stage
               /\ subsequence (rows stage') (rows stage)
               /\ List.length (rows stage') + List.length (List.concat acc')
                  = List.length (rows stage) + List.length (List.concat acc)).
    { intros d s (_ & Hc & Hs & Hl & _) Hrun.
      destruct (IH s (acc ++ [d]) stage' acc' Hrun) as (Hc' & Hs' & Hl').
      split; [congruence|]. split; [now apply (subsequence_trans _ (rows s))|].
      rewrite Hl'. rewrite concat_app, length_app. cbn [List.concat].
      rewrite app_nil_r. lia. }
    destruct (pol =? "exclude_all").
    + destruct (select_duplicated_groups stage k) as [d|e] eqn:Hd; [|discriminate].
      destruct (delete_duplicated_groups stage k) as [s|e] eqn:Hs; [|discriminate].
      cbn [bind] in H. exact (Hstep d s (exclude_all_pass_facts _ _ _ _ Hd Hs) H).
    + destruct ((pol =? "first") || (pol =? "last"))%bool; [|now apply IH].
      destruct (select_row_number_gt_1 stage k) as [d|e] eqn:Hd; [|discriminate].
      destruct (delete_row_number_gt_1 stage k) as [s|e] eqn:Hs; [|discriminate].
      cbn [bind] in H. exact (Hstep d s (row_number_pass_facts _ _ _ _ Hd Hs) H).
Qed.

Lemma dedup_loop_unique (keys : list (list string)) (pol : string) :
  known_policy pol = true ->
  forall (stage : Table) (acc : list (list Row)) (stage' : Table)
         (acc' : list (list Row)),
    dedup_loop keys pol stage acc = Ok (stage', acc') ->
    forall key, In key keys ->
                bind_columns stage key = Ok tt
                /\ forall t, group_count key t (rows stage') <= 1.
Proof.
  intros Hknown.
  induction keys as [|k keys IH]; intros stage acc stage' acc' H key Hin; [destruct Hin|].
  cbn [dedup_loop] in H.
  assert (Hstep : forall d s,
             bind_columns stage k = Ok tt
             /\ columns s = columns stage
             /\ subsequence (rows s) (rows stage)
             /\ List.length (rows s) + List.length d = List.length (rows stage)
             /\ (forall t, group_count k t (rows s) <= 1) ->
             dedup_loop keys pol s (acc ++ [d]) = Ok (stage', acc') ->
             bind_columns stage key = Ok tt
             /\ forall t, group_count key t (rows stage') <= 1).
  { intros d s (Hb & Hc & Hs & Hl & Hu) Hrun.
    destruct (dedup_loop_conserves keys pol s (acc ++ [d]) stage' acc' Hrun)
      as (_ & Hs' & _).
    destruct Hin as [<-|Hin].
    - split; [exact Hb|]. intros t.
      pose proof (subsequence_group_count k t _ _ Hs'). specialize (Hu t). lia.
    - destruct (IH s (acc ++ [d]) stage' acc' Hrun key Hin) as [Hb' Hu'].
      split; [|exact Hu']. rewrite <- Hb'. symmetry. now apply bind_columns_same. }
  unfold known_policy in Hknown.
  destruct (pol =? "exclude_all").
  - destruct (select_duplicated_groups stage k) as [d|e] eqn:Hd; [|discriminate].
    destruct (delete_duplicated_groups stage k) as [s|e] eqn:Hs; [|discriminate].
    cbn [bind] in H. exact (Hstep d s (exclude_all_pass_facts _ _ _ _ Hd Hs) H).
  - cbn [orb] in Hknown. rewrite Hknown in H.
    destruct (select_row_number_gt_1 stage k) as [d|e] eqn:Hd; [|discriminate].
    destruct (delete_row_number_gt_1 stage k) as [s|e] eqn:Hs; [|discriminate].
    cbn [bind] in H. exact (Hstep d s (row_number_pass_facts _ _ _ _ Hd Hs) H).
Qed.

Lemma with_rows_same (t : Table) : with_rows t (rows t) = t.
Proof. now destruct t. Qed.

Lemma row_number_all_first (key : list string) (rs : list Row) :
  forall seen,
    (forall t, group_count key t seen + group_count key t rs <= 1) ->
    filter (fun p => (1 <? snd p)%nat) (row_number_over key seen rs) = []
    /\ map fst (filter (fun p => negb (1 <? snd p)%nat) (row_number_over key seen rs))
       = rs.
Proof.
  induction rs as [|r rs IH]; intros seen H; [split; reflexivity|].
  cbn [row_number_over filter snd].
  change (1 <? S (group_count key (key_tuple key r) seen))%nat
    with (0 <? group_count key (key_tuple key r) seen)%nat.
  pose proof (H (key_tuple key r)) as Hr.
  rewrite group_count_cons, same_key_own in Hr.
  assert (E : group_count key (key_tuple key r) seen = 0) by lia.
  rewrite E. change (0 <? 0)%nat with false. cbn [negb map fst].
  destruct (IH (r :: seen)) as [H1 H2].
  { intros t. specialize (H t). rewrite !group_count_cons in *. lia. }
  rewrite H1, H2. split; reflexivity.
Qed.

Lemma unique_pass_removes_nothing (stage : Table) (key : list string) :
  bind_columns stage key = Ok tt ->
  (forall t, group_count key t (rows stage) <= 1) ->
  select_duplicated_groups stage key = Ok []
  /\ delete_duplicated_groups stage key = Ok stage
  /\ select_row_number_gt_1 stage key = Ok []
  /\ delete_row_number_gt_1 stage key = Ok stage.
Proof.
  intros Hb Hu.
  unfold select_duplicated_groups, delete_duplicated_groups,
    select_row_number_gt_1, delete_row_number_gt_1.
  rewrite Hb. cbn [bind].
  assert (Hnone : filter (in_duplicated_group key (rows stage)) (rows stage) = []).
  { apply filter_none. intros r _. rewrite in_duplicated_group_count.
    apply Nat.ltb_ge. apply Hu. }
  rewrite Hnone, (filter_negb_all _ _ Hnone).
  destruct (row_number_all_first key (rows stage) []) as [H1 H2].
  { intros t. cbn. apply Hu. }
  rewrite H1, H2. cbn [map]. now rewrite with_rows_same.
Qed.

Lemma dedup_loop_fixed (keys : list (list string)) (pol : string) (stage : Table) :
  (forall key, In key keys ->
               bind_columns stage key = Ok tt
               /\ forall t, group_count key t (rows stage) <= 1) ->
  forall acc, exists acc',
    dedup_loop keys pol stage acc = Ok (stage, acc')
    /\ List.concat acc' = List.concat acc.
Proof.
  induction keys as [|k keys IH]; intros H acc.
  - exists acc. split; reflexivity.
  - destruct (H k (or_introl eq_refl)) as [Hb Hu].
    destruct (unique_pass_removes_nothing stage k Hb Hu) as (E1 & E2 & E3 & E4).
    assert (Htail : forall key, In key keys ->
                                bind_columns stage key = Ok tt
                                /\ forall t, group_count key t (rows stage) <= 1)
      by (intros key Hin; apply H; now right).
    destruct (IH Htail (acc ++ [[]])) as (acc1 & Hrun1 & Hc1).
    cbn [dedup_loop]. rewrite E1, E2, E3, E4. cbn [bind].
    destruct (pol =? "exclude_all").
    + exists acc1. split; [exact Hrun1|].
      rewrite Hc1, concat_app. cbn. now rewrite app_nil_r.
    + destruct ((pol =? "first") || (pol =? "last"))%bool.
      * exists acc1. split; [exact Hrun1|].
        rewrite Hc1, concat_app. cbn. now rewrite app_nil_r.
      * apply (IH Htail acc).
Qed.

Lemma known_policy_false (pol : string) :
  known_policy pol = false ->
  pol <> "exclude_all" /\ pol <> "first" /\ pol <> "last".
Proof.
  unfold known_policy. intros H.
  apply orb_false_iff in H. destruct H as [H H3].
  apply orb_false_iff in H. destruct H as [H1 H2].
  repeat split; now apply String.eqb_neq.
Qed.

Lemma dedup_loop_raises (keys : list (list string)) (pol : string) :
  known_policy pol = true ->
  forall (stage : Table) (acc : list (list Row)) (key : list string),
    In key keys ->
    (exists msg, bind_columns stage key = Raise (EngineError msg)) ->
    exists msg, dedup_loop keys pol stage acc = Raise (EngineError msg).
Proof.
  intros Hknown. unfold known_policy in Hknown.
  induction keys as [|k keys IH]; intros stage acc key Hin (msg & Hfail); [destruct Hin|].
  cbn [dedup_loop].
  assert (Hnext : forall d s, columns s = columns stage ->
                              bind_columns stage k = Ok tt ->
                              exists m, dedup_loop keys pol s (acc ++ [d])
                                        = Raise (EngineError m)).
  { intros d s Hc Hb. destruct Hin as [<-|Hin]; [congruence|].
    apply (IH s (acc ++ [d]) key Hin). exists msg.
    rewrite <- Hfail. now apply bind_columns_same. }
  destruct (pol =? "exclude_all").
  - unfold select_duplicated_groups, delete_duplicated_groups in *.
    destruct (bind_columns stage k) as [[]|e] eqn:Hb; cbn [bind].
    + now apply Hnext.
    + unfold bind_columns in Hb. destruct k; [injection Hb as <-; eauto|].
      destruct (forallb _ (s :: k)); [discriminate|]. injection Hb as <-. eauto.
  - cbn [orb] in Hknown. rewrite Hknown.
    unfold select_row_number_gt_1, delete_row_number_gt_1 in *.
    destruct (bind_columns stage k) as [[]|e] eqn:Hb; cbn [bind].
    + now apply Hnext.
    + unfold bind_columns in Hb. destruct k; [injection Hb as <-; eauto|].
      destruct (forallb _ (s :: k)); [discriminate|]. injection Hb as <-. eauto.
Qed.

(** X1: deduplication in the engine only removes rows.  Whatever the keys
    and the policy, when [remove_duplicates_from_stage_table] returns, the
    stage table has the columns of the raw table, its rows are rows of the
    raw table in their order, and the rows left plus the rows reported add
    up to the rows of the raw table. *)
Theorem deduplication_only_removes (raw : Table) (unique_composite : list (list string))
  (duplicate_resolution : string) (stage : Table) (removed : list Row) :
  remove_duplicates_from_stage_table raw unique_composite duplicate_resolution
  = Ok (stage, removed) ->
  columns stage = columns raw
  /\ subsequence (rows stage) (rows raw)
  /\ List.length (rows stage) + List.length removed = List.length (rows raw).
Proof.
  unfold remove_duplicates_from_stage_table. intros H.
  destruct (dedup_loop unique_composite duplicate_resolution raw []) as [[s f]|e] eqn:E;
    [|discriminate].
  cbn [bind] in H. injection H as <- <-.
  destruct (dedup_loop_conserves _ _ _ _ _ _ E) as (Hc & Hs & Hl).
  cbn in Hl. rewrite Nat.add_0_r in Hl. now repeat split.
Qed.

Lemma deduplication_only_removes_witness :
  exists stage removed,
    remove_duplicates_from_stage_table overlap [["a"]; ["b"]] "exclude_all"
    = Ok (stage, removed)
    /\ List.length (rows stage) + List.length removed = 3.
Proof.
  eexists; eexists. split; [vm_compute; reflexivity|].
  refine (proj2 (proj2 (deduplication_only_removes overlap [["a"]; ["b"]] "exclude_all"
                          _ _ _))).
  vm_compute. reflexivity.
Defined.

(** X2: after deduplication under [exclude_all], [first] or [last], every
    declared composite key is unique in the stage table: no two rows share
    the tuple of any key of the list, earlier keys included. *)
Theorem deduplicated_keys_are_unique (raw : Table)
  (unique_composite : list (list string)) (duplicate_resolution : string)
  (stage : Table) (removed : list Row) (key : list string) (t : list Value) :
  known_policy duplicate_resolution = true ->
  remove_duplicates_from_stage_table raw unique_composite duplicate_resolution
  = Ok (stage, removed) ->
  In key unique_composite ->
  group_count key t (rows stage) <= 1.
Proof.
  unfold remove_duplicates_from_stage_table. intros Hk H Hin.
  destruct (dedup_loop unique_composite duplicate_resolution raw []) as [[s f]|e] eqn:E;
    [|discriminate].
  cbn [bind] in H. injection H as <- <-.
  now apply (dedup_loop_unique _ _ Hk _ _ _ _ E key Hin).
Qed.

Lemma deduplicated_keys_are_unique_witness :
  group_count ["a"] [VInt 1] [row3 1 1 10] <= 1.
Proof.
  apply (deduplicated_keys_are_unique overlap [["b"]; ["a"]] "first"
           (with_rows overlap [row3 1 1 10])
           [row3 2 2 30 ++ [("rn", VInt 2)]; row3 1 2 20 ++ [("rn", VInt 2)]]
           ["a"] [VInt 1]).
  - reflexivity.
  - vm_compute. reflexivity.
  - right; left; reflexivity.
Defined.

(** X3: deduplication is idempotent: run again on the stage table it
    left, with the same keys and policy, [remove_duplicates_from_stage_table]
    returns that table unchanged and reports no row. *)
Theorem deduplication_is_idempotent (raw : Table)
  (unique_composite : list (list string)) (duplicate_resolution : string)
  (stage : Table) (removed : list Row) :
  remove_duplicates_from_stage_table raw unique_composite duplicate_resolution
  = Ok (stage, removed) ->
  remove_duplicates_from_stage_table stage unique_composite duplicate_resolution
  = Ok (stage, []).
Proof.
  unfold remove_duplicates_from_stage_table. intros H.
  destruct (dedup_loop unique_composite duplicate_resolution raw []) as [[s f]|e] eqn:E;
    [|discriminate].
  cbn [bind] in H. injection H as <- <-.
  destruct (known_policy duplicate_resolution) eqn:Hk.
  - destruct (dedup_loop_conserves _ _ _ _ _ _ E) as (Hc & _ & _).
    destruct (dedup_loop_fixed unique_composite duplicate_resolution s) with (acc := @nil (list Row))
      as (acc' & Hrun & Hcat).
    { intros key Hin.
      destruct (dedup_loop_unique _ _ Hk _ _ _ _ E key Hin) as [Hb Hu].
      split; [|exact Hu]. rewrite <- Hb. now apply bind_columns_same. }
    rewrite Hrun. cbn [bind]. now rewrite Hcat.
  - destruct (known_policy_false _ Hk) as (H1 & H2 & H3).
    now rewrite dedup_loop_unknown.
Qed.

Lemma deduplication_is_idempotent_witness :
  remove_duplicates_from_stage_table (with_rows overlap [row3 1 1 10]) [["b"]; ["a"]] "first"
  = Ok (with_rows overlap [row3 1 1 10], []).
Proof.
  apply (deduplication_is_idempotent overlap [["b"]; ["a"]] "first"
           (with_rows overlap [row3 1 1 10])
           [row3 2 2 30 ++ [("rn", VInt 2)]; row3 1 2 20 ++ [("rn", VInt 2)]]).
  vm_compute. reflexivity.
Defined.

(** X4: an empty composite key makes
    [remove_duplicates_from_stage_table] raise under a known policy,
    wherever the key stands in the list and whatever the table: [", ".join]
    of the key is the empty string, so the statements read [GROUP BY  HAVING]
    and [PARTITION BY  ORDER BY], which no table makes valid.  No result is
    returned, even when the keys before it are valid and have removed
    rows. *)
Theorem empty_key_raises (raw : Table) (unique_composite : list (list string))
  (duplicate_resolution : string) :
  known_policy duplicate_resolution = true ->
  In [] unique_composite ->
  exists msg,
    remove_duplicates_from_stage_table raw unique_composite duplicate_resolution
    = Raise (EngineError msg).
Proof.
  intros Hk Hin. unfold remove_duplicates_from_stage_table.
  destruct (dedup_loop_raises unique_composite duplicate_resolution Hk raw [] [] Hin)
    as (msg & ->); [now eexists|].
  now exists msg.
Qed.

Lemma empty_key_raises_witness :
  exists msg,
    remove_duplicates_from_stage_table ties [["a"]; []] "last" = Raise (EngineError msg).
Proof.
  apply (empty_key_raises ties [["a"]; []] "last").
  - reflexivity.
  - right; left; reflexivity.
Defined.

(** ** Which row of a group stays *)

Lemma seen_after_kept_rows (key : list string) (t : list Value) (rs : list Row) :
  filter (same_key key t) (mask_select rs (map negb (seen_after key rs)))
  = skipn (group_count key t rs - 1) (filter (same_key key t) rs).
Proof.
  induction rs as [|r rs IH]; [reflexivity|]. cbn [seen_after mask_select map].
  assert (Hk : same_key key t r = true -> key_tuple key r = t) by apply same_key_iff.
  rewrite (group_count_cons key t r rs). cbn [filter].
  destruct (same_key key t r) eqn:E.
  - rewrite Hk by reflexivity.
    destruct (group_count key t rs) as [|n] eqn:G.
    + change (0 <? 0)%nat with false. cbn [negb filter]. rewrite E, IH. reflexivity.
    + change (0 <? S n)%nat with true. cbn [negb]. rewrite IH.
      cbn [Nat.add Nat.sub skipn]. now rewrite Nat.sub_0_r.
  - cbn [Nat.add]. destruct (0 <? group_count key (key_tuple key r) rs)%nat; cbn [negb filter];
      rewrite ?E; exact IH.
Qed.

(** X5: under [first], for a key that is non-empty and names columns of
    the table, both implementations keep of every group exactly its first
    row (by row order). *)
Theorem first_keeps_first_of_group (tbl : Table) (key : list string) :
  key <> [] ->
  (forall c, In c key -> In c (columns tbl)) ->
  exists stage removed removed',
    remove_duplicates_from_stage_table tbl [key] "first" = Ok (stage, removed)
    /\ remove_composite_duplicates tbl [key] "first" = Ok (stage, removed')
    /\ forall t, filter (same_key key t) (rows stage)
                 = firstn 1 (filter (same_key key t) (rows tbl)).
Proof.
  intros Hne Hcols.
  rewrite (first_pass tbl key (bind_columns_ok tbl key Hne Hcols)).
  rewrite (composite_first_pass tbl key (check_subset_ok tbl key Hne Hcols)).
  rewrite select_not_seen_before.
  eexists; eexists; eexists. split; [reflexivity|]. split; [reflexivity|].
  intros t. cbn [rows with_rows]. now rewrite row_number_kept_rows.
Qed.

Lemma first_keeps_first_of_group_witness :
  exists stage removed removed',
    remove_duplicates_from_stage_table ties [["a"; "b"]] "first" = Ok (stage, removed)
    /\ remove_composite_duplicates ties [["a"; "b"]] "first" = Ok (stage, removed')
    /\ forall t, filter (same_key ["a"; "b"] t) (rows stage)
                 = firstn 1 (filter (same_key ["a"; "b"] t) (rows ties)).
Proof.
  apply (first_keeps_first_of_group ties ["a"; "b"]).
  - discriminate.
  - intros c [<-|[<-|[]]]; simpl; tauto.
Defined.

Lemma row_number_dups_rows (key : list string) (t : list Value) (seen rs : list Row) :
  filter (same_key key t)
    (map fst (filter (fun p => (1 <? snd p)%nat) (row_number_over key seen rs))) =
  if (0 <? group_count key t seen)%nat then filter (same_key key t) rs
  else skipn 1 (filter (same_key key t) rs).
Proof.
  revert seen; induction rs as [|r rs IH]; intros seen.
  - cbn [row_number_over filter map skipn]. now destruct (0 <? group_count key t seen)%nat.
  - cbn [row_number_over filter snd].
    change (1 <? S (group_count key (key_tuple key r) seen))%nat
      with (0 <? group_count key (key_tuple key r) seen)%nat.
    assert (Hk : same_key key t r = true -> key_tuple key r = t)
      by apply same_key_iff.
    destruct (same_key key t r) eqn:E.
    + rewrite Hk by reflexivity.
      destruct (group_count key t seen) as [|n] eqn:G.
      * change (0 <? 0)%nat with false. cbn [skipn].
        rewrite IH, group_count_cons, E, G. reflexivity.
      * change (0 <? S n)%nat with true. cbn [map fst filter].
        rewrite E, IH, group_count_cons, E, G. reflexivity.
    + destruct (0 <? group_count key (key_tuple key r) seen)%nat;
        cbn [map fst filter]; rewrite ?E, IH, group_count_cons, E; reflexivity.
Qed.

(** X6: under [last], for a key that is non-empty and names columns of
    the frame, [remove_composite_duplicates] keeps of every group exactly
    its last row; the rows it reports as removed are those that have an
    earlier row of their group, so for a group of several rows the report
    holds the kept row and lacks the first one. *)
Theorem dataframe_last_keeps_last_of_group (df : Table) (key : list string) :
  key <> [] ->
  (forall c, In c key -> In c (columns df)) ->
  exists df' removed,
    remove_composite_duplicates df [key] "last" = Ok (df', removed)
    /\ (forall t, filter (same_key key t) (rows df')
                  = skipn (group_count key t (rows df) - 1)
                          (filter (same_key key t) (rows df)))
    /\ (forall t, filter (same_key key t) removed
                  = skipn 1 (filter (same_key key t) (rows df))).
Proof.
  intros Hne Hcols.
  rewrite (composite_last_pass df key (check_subset_ok df key Hne Hcols)).
  eexists; eexists. split; [reflexivity|]. cbn [rows with_rows]. split.
  - intros t. apply seen_after_kept_rows.
  - intros t. rewrite select_seen_before. apply row_number_dups_rows.
Qed.

Lemma dataframe_last_keeps_last_of_group_witness :
  exists df' removed,
    remove_composite_duplicates ties [["a"; "b"]] "last" = Ok (df', removed)
    /\ filter (same_key ["a"; "b"] [VInt 1; VInt 1]) (rows df') = [row3 1 1 30]
    /\ filter (same_key ["a"; "b"] [VInt 1; VInt 1]) removed = [row3 1 1 20; row3 1 1 30].
Proof.
  destruct (dataframe_last_keeps_last_of_group ties ["a"; "b"])
    as (df' & removed & Hrun & Hkept & Hrem).
  - discriminate.
  - intros c [<-|[<-|[]]]; simpl; tauto.
  - exists df', removed. split; [exact Hrun|]. split.
    + exact (Hkept [VInt 1; VInt 1]).
    + exact (Hrem [VInt 1; VInt 1]).
Defined.

(** X7: on a frame with rows and a first key that is non-empty and names
    columns of it, a policy that is none of [exclude_all], [first], [last]
    makes [remove_composite_duplicates] raise the [ValueError] of
    [drop_duplicates]; the engine implementation returns normally on the
    same input. *)
Theorem dataframe_unknown_policy_raises (df : Table) (key : list string)
  (rest : list (list string)) (resolution : string) :
  rows df <> [] ->
  key <> [] ->
  (forall c, In c key -> In c (columns df)) ->
  known_policy resolution = false ->
  remove_composite_duplicates df (key :: rest) resolution
  = Raise (ValueError "keep must be either first, last or False")
  /\ remove_duplicates_from_stage_table df (key :: rest) resolution = Ok (df, []).
Proof.
  intros Hrows Hne Hcols Hk.
  destruct (known_policy_false _ Hk) as (H1 & H2 & H3). split.
  - unfold remove_composite_duplicates. cbn [composite_loop].
    apply String.eqb_neq in H1, H2, H3. rewrite H1, H3.
    rewrite (duplicated_keep_last df key (check_subset_ok df key Hne Hcols)).
    cbn [bind]. unfold drop_duplicates, duplicated.
    destruct (rows df) as [|r rs]; [congruence|].
    rewrite (check_subset_ok df key Hne Hcols). cbn [bind]. now rewrite H2, H3.
  - unfold remove_duplicates_from_stage_table. now rewrite dedup_loop_unknown.
Qed.

Lemma dataframe_unknown_policy_raises_witness :
  remove_composite_duplicates ties [["a"; "b"]] "keep_last"
  = Raise (ValueError "keep must be either first, last or False")
  /\ remove_duplicates_from_stage_table ties [["a"; "b"]] "keep_last" = Ok (ties, []).
Proof.
  apply (dataframe_unknown_policy_raises ties ["a"; "b"] [] "keep_last").
  - discriminate.
  - discriminate.
  - intros c [<-|[<-|[]]]; simpl; tauto.
  - reflexivity.
Defined.

(** ** The rule stage, turn by turn *)

Section RuleTurns.

Variable clock : nat -> string.
Variable age_lt : string -> Z -> Value -> option bool.

Local Abbreviation loop := (validations_loop clock age_lt).
Local Abbreviation turn_of := (turn clock age_lt).

Lemma loop_turn (i : nat) (p : string * CustomRule) (rest : list (string * CustomRule))
  (mode : string) (issues : list Issue) (total : nat) (eng : Engine) :
  loop i (p :: rest) mode issues total eng =
  match turn_of i p mode eng with
  | GoOn eng1 recorded found =>
      loop (S i) rest mode (issues ++ recorded) (total + found) eng1
  | Stop eng1 e => (eng1, Raise e)
  end.
Proof.
  destruct p as [f rule]. cbn [validations_loop]. unfold turn, select_of, delete_of.
  cbn [fst snd].
  destruct (is_string "age_gte" (validation rule)).
  - destruct (params rule) as [ps|]; [|reflexivity].
    unfold bindM at 1. cbn [item ret]. unfold bindM at 1. unfold fetch_age_lt.
    cbn [sent stage_table].
    destruct (where_age_lt age_lt (stage_table eng) f (clock i) (min_age_of ps))
      as [mask|e] eqn:Hw; [|reflexivity].
    cbn [bind].
    destruct (map (select_star (stage_table eng))
                  (mask_select (rows (stage_table eng)) mask)) as [|r0 found] eqn:Hfound.
    + now rewrite app_nil_r.
    + destruct (mode =? "stop"); [reflexivity|].
      destruct (mode =? "skip"); [|reflexivity].
      unfold bindM at 1. unfold delete_age_lt. cbn [sent stage_table].
      now rewrite Hw.
  - destruct (validation rule) as [k|]; [|reflexivity].
    unfold bindM. cbn [item ret]. now rewrite app_nil_r, Nat.add_0_r.
Qed.

(** What a turn leaves of the session. *)
Lemma turn_keeps (i : nat) (p : string * CustomRule) (mode : string) (eng : Engine) :
  match turn_of i p mode eng with
  | GoOn eng1 recorded found =>
      columns (stage_table eng1) = columns (stage_table eng)
      /\ subsequence (rows (stage_table eng1)) (rows (stage_table eng))
      /\ catalog eng1 = catalog eng
      /\ ((mode =? "skip") = false -> stage_table eng1 = stage_table eng)
      /\ ((mode =? "stop") = true -> recorded = [] /\ found = 0)
      /\ subsequence (map issue_field recorded) [fst p]
  | Stop eng1 e =>
      stage_table eng1 = stage_table eng /\ catalog eng1 = catalog eng
  end.
Proof.
  unfold turn.
  destruct (is_string "age_gte" (validation (snd p))).
  - destruct (params (snd p)) as [ps|]; [|split; reflexivity].
    cbv zeta.
    destruct (where_age_lt age_lt (stage_table eng) (fst p) (clock i) (min_age_of ps))
      as [mask|e]; [|split; reflexivity].
    destruct (map (select_star (stage_table eng))
                  (mask_select (rows (stage_table eng)) mask)) as [|r0 found].
    + cbn [stage_table catalog sent map].
      repeat split; try reflexivity; try apply subsequence_refl.
      apply subsequence_nil_l.
    + destruct (mode =? "stop"); [split; reflexivity|].
      destruct (mode =? "skip").
      * cbn [stage_table catalog sent set_stage columns rows with_rows map issue_field].
        repeat split; try reflexivity; try discriminate.
        -- apply subsequence_mask_select.
        -- apply subsequence_refl.
      * cbn [stage_table catalog sent map issue_field].
        repeat split; try reflexivity; try discriminate; apply subsequence_refl.
  - destruct (validation (snd p)); [|split; reflexivity].
    cbn [map]. repeat split; try reflexivity; try apply subsequence_refl.
    apply subsequence_nil_l.
Qed.

Lemma subsequence_app {A : Type} (a1 a2 b1 b2 : list A) :
  subsequence a1 a2 -> subsequence b1 b2 -> subsequence (a1 ++ b1) (a2 ++ b2).
Proof. induction 1; intros Hb; cbn [app]; [assumption| |]; constructor; auto. Qed.

(** What the whole loop leaves, whatever the rules and the mode. *)
Lemma loop_keeps (rules : list (string * CustomRule)) :
  forall (i : nat) (mode : string) (issues : list Issue) (total : nat)
         (eng eng' : Engine) (res : Result (list Issue * nat)),
    loop i rules mode issues total eng = (eng', res) ->
    columns (stage_table eng') = columns (stage_table eng)
    /\ subsequence (rows (stage_table eng')) (rows (stage_table eng))
    /\ catalog eng' = catalog eng
    /\ ((mode =? "skip") = false -> stage_table eng' = stage_table eng)
    /\ forall issues' total',
        res = Ok (issues', total') ->
        ((mode =? "stop") = true -> issues' = issues /\ total' = total)
        /\ exists recorded,
            issues' = issues ++ recorded
            /\ subsequence (map issue_field recorded) (map fst rules).
Proof.
  induction rules as [|p rest IH]; intros i mode issues total eng eng' res H.
  - cbn in H. injection H as <- <-.
    repeat split; try reflexivity; try apply subsequence_refl.
    + now injection H as <- _.
    + now injection H as _ <-.
    + exists []. injection H as <- _. rewrite app_nil_r. split; constructor.
  - rewrite loop_turn in H. pose proof (turn_keeps i p mode eng) as Ht.
    destruct (turn_of i p mode eng) as [eng1 recorded found|eng1 e].
    + destruct Ht as (Hc & Hs & Hcat & Hskip & Hstop & Hf).
      destruct (IH _ _ _ _ _ _ _ H) as (Hc' & Hs' & Hcat' & Hskip' & Hres).
      split; [congruence|]. split; [now apply (subsequence_trans _ (rows (stage_table eng1)))|].
      split; [congruence|]. split; [intros E; rewrite Hskip', Hskip; auto|].
      intros issues' total' Hr. destruct (Hres issues' total' Hr) as (Hst & new & Hn & Hsub).
      split.
      * intros E. destruct (Hstop E) as [-> ->]. destruct (Hst E) as [-> ->].
        now rewrite app_nil_r, Nat.add_0_r.
      * exists (recorded ++ new). rewrite Hn, app_assoc. split; [reflexivity|].
        rewrite map_app. change (map fst (p :: rest)) with ([fst p] ++ map fst rest).
        now apply subsequence_app.
    + injection H as <- <-. destruct Ht as [Hst Hcat]. rewrite Hst.
      repeat split; try reflexivity; try assumption; try apply subsequence_refl;
        discriminate.
Qed.

(** X8: the rule stage never adds, changes or reorders rows, whatever the
    rules, the mode and the outcome (returned or raised): the stage table
    keeps its columns, its rows are rows it had, in their order, and the
    projections of the session are untouched; in every mode but [skip] the
    stage table is left exactly as it was. *)
Theorem rule_stage_only_removes_rows
  (custom_validations : list (string * CustomRule)) (validation_mode : string)
  (eng : Engine) :
  let eng' := fst (execute_custom_validations clock age_lt custom_validations
                     validation_mode eng) in
  columns (stage_table eng') = columns (stage_table eng)
  /\ subsequence (rows (stage_table eng')) (rows (stage_table eng))
  /\ catalog eng' = catalog eng
  /\ ((validation_mode =? "skip") = false -> stage_table eng' = stage_table eng).
Proof.
  intros eng'. unfold eng', execute_custom_validations.
  destruct (loop 0 custom_validations validation_mode [] 0 eng) as [e r] eqn:H.
  destruct (loop_keeps _ _ _ _ _ _ _ _ H) as (Hc & Hs & Hcat & Hskip & _).
  cbn [fst]. now repeat split.
Qed.

(** X9: in stop mode [execute_custom_validations] never returns an issue:
    when it returns, it returns no issue and the count 0, and the stage
    table is as it was; a violation is only ever reported by raising. *)
Theorem stop_mode_returns_no_issue
  (custom_validations : list (string * CustomRule)) (eng eng' : Engine)
  (issues : list Issue) (total : nat) :
  execute_custom_validations clock age_lt custom_validations "stop" eng
  = (eng', Ok (issues, total)) ->
  issues = [] /\ total = 0 /\ stage_table eng' = stage_table eng.
Proof.
  unfold execute_custom_validations. intros H.
  destruct (loop_keeps _ _ _ _ _ _ _ _ H) as (_ & _ & _ & Hskip & Hres).
  destruct (Hres issues total eq_refl) as [Hstop _].
  destruct (Hstop eq_refl) as [-> ->]. repeat split. now apply Hskip.
Qed.

Lemma clean_loop (rules : list (string * CustomRule)) (mode : string) :
  forall (i : nat) (issues : list Issue) (total : nat) (eng : Engine),
    all_evaluable clock age_lt (stage_table eng) i rules = true ->
    (forall k q, nth_error rules k = Some q ->
                 filter (violates clock age_lt (i + k) q) (rows (stage_table eng)) = []) ->
    loop i rules mode issues total eng
    = (mkEngine (stage_table eng) (catalog eng) (executed eng ++ selects clock i rules),
       Ok (issues, total)).
Proof.
  induction rules as [|p rest IH]; intros i issues total eng Hall Hclean.
  - cbn. rewrite app_nil_r. now destruct eng.
  - cbn [all_evaluable] in Hall. apply andb_true_iff in Hall. destruct Hall as [Hp Hrest].
    rewrite (loop_step clock age_lt i p rest mode issues total eng Hp).
    pose proof (Hclean 0 p eq_refl) as H0. rewrite Nat.add_0_r in H0. rewrite H0.
    rewrite (IH (S i) issues (total + 0) (sent eng (select_of clock i p))).
    + cbn [stage_table catalog executed sent selects].
      now rewrite <- app_assoc, Nat.add_0_r.
    + exact Hrest.
    + intros k q Hk. cbn [stage_table sent]. specialize (Hclean (S k) q Hk).
      now rewrite Nat.add_succ_r in Hclean.
Qed.

(** X10: a table no rule finds fault with passes in every mode: on rules
    the engine can evaluate, none of which has a violating row,
    [execute_custom_validations] returns no issue and the count 0, sends
    one [SELECT] per rule and nothing else, and leaves the stage table as
    it was, whatever the validation mode. *)
Theorem clean_table_passes_in_every_mode
  (custom_validations : list (string * CustomRule)) (validation_mode : string)
  (eng : Engine) :
  all_evaluable clock age_lt (stage_table eng) 0 custom_validations = true ->
  (forall k q, nth_error custom_validations k = Some q ->
               filter (violates clock age_lt k q) (rows (stage_table eng)) = []) ->
  execute_custom_validations clock age_lt custom_validations validation_mode eng
  = (mkEngine (stage_table eng) (catalog eng)
       (executed eng ++ selects clock 0 custom_validations),
     Ok ([], 0)).
Proof.
  intros Hall Hclean. unfold execute_custom_validations.
  now apply (clean_loop custom_validations validation_mode 0 [] 0 eng).
Qed.

Lemma recording_loop (rules : list (string * CustomRule)) (mode : string) :
  (mode =? "stop") = false -> (mode =? "skip") = false ->
  forall (i : nat) (issues : list Issue) (total : nat) (eng : Engine),
    all_evaluable clock age_lt (stage_table eng) i rules = true ->
    exists recorded,
      loop i rules mode issues total eng
      = (mkEngine (stage_table eng) (catalog eng) (executed eng ++ selects clock i rules),
         Ok (issues ++ recorded,
             total + list_sum (map (fun e => List.length (snd e))
                                   (full_violations clock age_lt i rules
                                      (rows (stage_table eng))))))
      /\ map entry_of_issue recorded
         = filter nonempty_entry
             (map (fun e => (fst e, map (select_star (stage_table eng)) (snd e)))
                  (full_violations clock age_lt i rules (rows (stage_table eng)))).
Proof.
  intros Hstop Hskip.
  induction rules as [|p rest IH]; intros i issues total eng Hall.
  - exists []. cbn. rewrite !app_nil_r, Nat.add_0_r. split; [now destruct eng|reflexivity].
  - cbn [all_evaluable] in Hall. apply andb_true_iff in Hall. destruct Hall as [Hp Hrest].
    rewrite (loop_step clock age_lt i p rest mode issues total eng Hp).
    cbn [full_violations map fst snd]. unfold list_sum. cbn [fold_right].
    fold (list_sum (map (fun e : string * list Row => List.length (snd e))
                        (full_violations clock age_lt (S i) rest (rows (stage_table eng))))).
    destruct (filter (violates clock age_lt i p) (rows (stage_table eng)))
      as [|b bad] eqn:Hbad.
    + destruct (IH (S i) issues (total + 0) (sent eng (select_of clock i p)) Hrest)
        as (recorded & Hrun & Hent).
      cbn [stage_table catalog executed sent] in Hrun, Hent.
      exists recorded. rewrite Hrun. cbn [selects List.length map filter nonempty_entry snd].
      rewrite <- app_assoc, Nat.add_0_r. split; [reflexivity|exact Hent].
    + cbv beta iota zeta. rewrite Hstop, Hskip.
      destruct (IH (S i)
                  (issues ++ [mkIssue (fst p) "age_gte"
                                (map (select_star (stage_table eng)) (b :: bad))])
                  (total + List.length (b :: bad))
                  (sent eng (select_of clock i p)) Hrest)
        as (recorded & Hrun & Hent).
      cbn [stage_table catalog executed sent] in Hrun, Hent.
      exists (mkIssue (fst p) "age_gte" (map (select_star (stage_table eng)) (b :: bad))
                :: recorded).
      cbn [map] in Hrun, Hent |- *. rewrite Hrun. cbn [selects].
      rewrite <- !app_assoc, <- Nat.add_assoc. split.
      * reflexivity.
      * cbn [entry_of_issue issue_field invalid_rows filter nonempty_entry snd].
        now rewrite Hent.
Qed.

(** X11: a validation mode that is neither [stop] nor [skip] records
    without removing: on rules the engine can evaluate,
    [execute_custom_validations] returns, sends one [SELECT] per rule and
    no [DELETE], leaves the stage table as it was, records the non-empty
    violation sets, each computed on the whole table, and counts the sum of
    their sizes (a row violating two rules counts twice). *)
Theorem other_modes_record_without_removing
  (custom_validations : list (string * CustomRule)) (validation_mode : string)
  (eng : Engine) :
  (validation_mode =? "stop") = false ->
  (validation_mode =? "skip") = false ->
  all_evaluable clock age_lt (stage_table eng) 0 custom_validations = true ->
  exists issues,
    execute_custom_validations clock age_lt custom_validations validation_mode eng
    = (mkEngine (stage_table eng) (catalog eng)
         (executed eng ++ selects clock 0 custom_validations),
       Ok (issues,
           list_sum (map (fun e => List.length (snd e))
                         (full_violations clock age_lt 0 custom_validations
                            (rows (stage_table eng))))))
    /\ map entry_of_issue issues
       = filter nonempty_entry
           (map (fun e => (fst e, map (select_star (stage_table eng)) (snd e)))
                (full_violations clock age_lt 0 custom_validations
                   (rows (stage_table eng)))).
Proof.
  intros Hstop Hskip Hall. unfold execute_custom_validations.
  destruct (recording_loop custom_validations validation_mode Hstop Hskip 0 [] 0 eng Hall)
    as (recorded & Hrun & Hent).
  exists recorded. split; [exact Hrun|exact Hent].
Qed.

Lemma skip_violations_final_in (rules : list (string * CustomRule)) :
  forall i rs r, In r (snd (skip_violations clock age_lt i rules rs)) -> In r rs.
Proof.
  induction rules as [|p rest IH]; intros i rs r H; [exact H|].
  cbn [skip_violations] in H.
  destruct (skip_violations clock age_lt (S i) rest
              (filter (fun r => negb (violates clock age_lt i p r)) rs))
    as [entries final] eqn:E.
  cbn [snd] in H.
  assert (Hin : In r (filter (fun r => negb (violates clock age_lt i p r)) rs)).
  { apply (IH (S i)). now rewrite E. }
  now apply filter_In in Hin.
Qed.

Lemma skip_violations_final_clean (rules : list (string * CustomRule)) :
  forall i rs r k q,
    In r (snd (skip_violations clock age_lt i rules rs)) ->
    nth_error rules k = Some q ->
    violates clock age_lt (i + k) q r = false.
Proof.
  induction rules as [|p rest IH]; intros i rs r k q H Hk; [destruct k; discriminate|].
  cbn [skip_violations] in H.
  destruct (skip_violations clock age_lt (S i) rest
              (filter (fun r => negb (violates clock age_lt i p r)) rs))
    as [entries final] eqn:E.
  cbn [snd] in H.
  assert (Hfin : In r (snd (skip_violations clock age_lt (S i) rest
                              (filter (fun r => negb (violates clock age_lt i p r)) rs))))
    by now rewrite E.
  destruct k as [|k].
  - cbn in Hk. injection Hk as <-. rewrite Nat.add_0_r.
    apply skip_violations_final_in, filter_In in Hfin.
    destruct Hfin as [_ Hneg]. now apply negb_true_iff in Hneg.
  - rewrite Nat.add_succ_r. now apply (IH (S i) _ r k q Hfin).
Qed.

(** X12: skip mode leaves no violating row: on rules the engine can
    evaluate, after [execute_custom_validations] in skip mode no row of the
    stage table violates any rule of the list (each read at the date its
    rule read). *)
Theorem skip_mode_leaves_no_violating_row
  (custom_validations : list (string * CustomRule)) (eng : Engine) :
  all_evaluable clock age_lt (stage_table eng) 0 custom_validations = true ->
  exists eng' issues total,
    execute_custom_validations clock age_lt custom_validations "skip" eng
    = (eng', Ok (issues, total))
    /\ forall k q r,
        nth_error custom_validations k = Some q ->
        In r (rows (stage_table eng')) ->
        violates clock age_lt k q r = false.
Proof.
  intros Hall. unfold execute_custom_validations.
  destruct (skip_loop_spec clock age_lt custom_validations 0 [] 0 eng Hall)
    as (eng' & issues & Hrun & Hst & _).
  eexists; eexists; eexists. split; [exact Hrun|].
  intros k q r Hk Hin. rewrite Hst in Hin. cbn [rows with_rows] in Hin.
  now apply (skip_violations_final_clean custom_validations 0 _ r k q Hin Hk).
Qed.

End RuleTurns.

Lemma stop_mode_returns_no_issue_witness :
  @nil Issue = [] /\ 0 = 0
  /\ stage_table (mkEngine employees_stage []
                    [SelectWhereAgeLt "birthday_on" "2026-11-04" 10])
     = stage_table (mkEngine employees_stage [] []).
Proof.
  apply (stop_mode_returns_no_issue sample_clock sample_age_lt
           [("birthday_on", age_rule 10)] (mkEngine employees_stage [] [])
           (mkEngine employees_stage [] [SelectWhereAgeLt "birthday_on" "2026-11-04" 10])
           [] 0).
  vm_compute. reflexivity.
Defined.

Lemma clean_table_passes_in_every_mode_witness :
  execute_custom_validations sample_clock sample_age_lt
    [("birthday_on", age_rule 10)] "skip" (mkEngine employees_stage [] [])
  = (mkEngine employees_stage []
       ([] ++ selects sample_clock 0 [("birthday_on", age_rule 10)]),
     Ok ([], 0)).
Proof.
  apply (clean_table_passes_in_every_mode sample_clock sample_age_lt
           [("birthday_on", age_rule 10)] "skip" (mkEngine employees_stage [] [])).
  - reflexivity.
  - intros [|[|k]] q Hk; [|discriminate Hk|discriminate Hk].
    injection Hk as <-. reflexivity.
Defined.

Lemma other_modes_record_without_removing_witness :
  exists issues,
    execute_custom_validations sample_clock sample_age_lt
      [("birthday_on", age_rule 18); ("birthday_on", age_rule 30)] "warn"
      (mkEngine employees_stage [] [])
    = (mkEngine employees_stage []
         ([] ++ selects sample_clock 0
                  [("birthday_on", age_rule 18); ("birthday_on", age_rule 30)]),
       Ok (issues, 3)).
Proof.
  destruct (other_modes_record_without_removing sample_clock sample_age_lt
              [("birthday_on", age_rule 18); ("birthday_on", age_rule 30)] "warn"
              (mkEngine employees_stage [] []))
    as (issues & Hrun & _); try reflexivity.
  exists issues. exact Hrun.
Defined.

Lemma skip_mode_leaves_no_violating_row_witness :
  exists eng' issues total,
    execute_custom_validations sample_clock sample_age_lt
      [("birthday_on", age_rule 18)] "skip" (mkEngine employees_stage [] [])
    = (eng', Ok (issues, total))
    /\ forall r, In r (rows (stage_table eng')) ->
                 violates sample_clock sample_age_lt 0 ("birthday_on", age_rule 18) r
                 = false.
Proof.
  destruct (skip_mode_leaves_no_violating_row sample_clock sample_age_lt
              [("birthday_on", age_rule 18)] (mkEngine employees_stage [] []))
    as (eng' & issues & total & Hrun & Hclean).
  - reflexivity.
  - exists eng', issues, total. split; [exact Hrun|].
    intros r Hr. exact (Hclean 0 ("birthday_on", age_rule 18) r eq_refl Hr).
Defined.

(** ** Building and exporting projections *)

Lemma aliases_loop_ok (aliases : list (string * string)) (schema : Schema) :
  forall query,
    (forall o a, In (o, a) aliases -> in_schema o schema = true) ->
    exists rewritten, aliases_loop query aliases schema = Ok rewritten.
Proof.
  induction aliases as [|[o a] rest IH]; intros query H; [now eexists|].
  cbn [aliases_loop]. rewrite (H o a (or_introl eq_refl)).
  apply IH. intros o' a' Hin. apply (H o' a'). now right.
Qed.

(** X13: [apply_aliases] returns a rewritten query exactly when every
    source field of the alias mapping is in the schema; otherwise it
    raises. *)
Theorem apply_aliases_succeeds_iff (query : string) (aliases : list (string * string))
  (schema : Schema) :
  (exists rewritten, apply_aliases query aliases schema = Ok rewritten)
  <-> (forall original alias, In (original, alias) aliases ->
                              in_schema original schema = true).
Proof.
  split.
  - intros (rewritten & Hok) o a Hin.
    destruct (in_schema o schema) eqn:E; [reflexivity|].
    destruct (apply_aliases_missing query aliases schema o a Hin E) as (f & _ & _ & Hr).
    congruence.
  - intros H. unfold apply_aliases. destruct aliases as [|x rest]; [now eexists|].
    now apply aliases_loop_ok.
Qed.

Section Builders.

Variable engine_accepts : Engine -> Statement -> bool.

Local Abbreviation create := (create_with_projection engine_accepts).
Local Abbreviation run := (execute engine_accepts).

Ltac run_head := unfold bindM, item, ret, raise; cbv beta iota.


Lemma execute_unnamed (s : Statement) (eng : Engine) :
  relation_of s = None -> fst (run s eng) = sent eng s.
Proof.
  intros H. unfold execute. rewrite H. now destruct (engine_accepts eng s).
Qed.


Lemma create_ok_iff (kind : string) (statement : string -> string -> Statement)
  (table : string) (schema : Schema) (ps : list Projection) :
  forall eng,
    snd (create kind statement table ps schema eng) = Ok tt
    <-> (forall a, In a ps -> is_string kind (proj_type a) = true ->
                   proj_name a <> None /\ proj_query a <> None).
Proof.
  induction ps as [|a ps IH]; intros eng.
  - split; [intros _ a []|reflexivity].
  - cbn [create_with_projection].
    assert (Hskip : forall eng', is_string kind (proj_type a) = false
                                 \/ (proj_name a <> None /\ proj_query a <> None) ->
              (snd (create kind statement table ps schema eng') = Ok tt
               <-> (forall b, In b (a :: ps) -> is_string kind (proj_type b) = true ->
                              proj_name b <> None /\ proj_query b <> None))).
    { intros eng' Ha. rewrite IH. split.
      - intros H b [<-|Hb] Hk; [|now apply H].
        destruct Ha as [Ha|Ha]; [congruence|exact Ha].
      - intros H b Hb. apply H. now right. }
    destruct (is_string kind (proj_type a)) eqn:Hk; cbn [negb]; [|apply Hskip; now left].
    destruct (proj_name a) as [n|] eqn:En.
    + destruct (proj_query a) as [q|] eqn:Eq.
      * assert (Hkeys : forall eng',
                   snd (create kind statement table ps schema eng') = Ok tt
                   <-> (forall b, In b (a :: ps) -> is_string kind (proj_type b) = true ->
                                  proj_name b <> None /\ proj_query b <> None)).
        { intros eng'. apply Hskip. right. split; discriminate. }
        run_head.
        destruct (q =? ""); [apply Hkeys|].
        destruct (apply_aliases _ (proj_aliases a) schema) as [q'|e] eqn:Ea.
        -- unfold swallow. apply Hkeys.
        -- destruct (apply_aliases_raises _ _ _ _ Ea) as (msg & ->). apply Hkeys.
      * run_head. cbn [snd]. split; [discriminate|].
        intros H. destruct (H a (or_introl eq_refl) Hk) as [_ Hq]. congruence.
    + run_head. cbn [snd]. split; [discriminate|].
      intros H. destruct (H a (or_introl eq_refl) Hk) as [Hn _]. congruence.
Qed.

Lemma create_filter (kind : string) (statement : string -> string -> Statement)
  (table : string) (schema : Schema) (ps : list Projection) :
  forall eng,
    create kind statement table ps schema eng
    = create kind statement table
        (filter (fun p => is_string kind (proj_type p)) ps) schema eng.
Proof.
  induction ps as [|a ps IH]; intros eng; [reflexivity|].
  cbn [filter]. destruct (is_string kind (proj_type a)) eqn:Hk.
  - now apply create_congruence.
  - cbn [create_with_projection]. rewrite Hk. cbn [negb]. apply IH.
Qed.

Lemma create_app (kind : string) (statement : string -> string -> Statement)
  (table : string) (schema : Schema) (ps1 ps2 : list Projection) :
  forall eng,
    create kind statement table (ps1 ++ ps2) schema eng
    = match create kind statement table ps1 schema eng with
      | (eng1, Ok _) => create kind statement table ps2 schema eng1
      | (eng1, Raise e) => (eng1, Raise e)
      end.
Proof.
  induction ps1 as [|a ps1 IH]; intros eng; [reflexivity|].
  cbn [app create_with_projection].
  destruct (negb (is_string kind (proj_type a))); [apply IH|].
  destruct (proj_name a) as [n|]; [|reflexivity].
  destruct (proj_query a) as [q|]; [|reflexivity].
  run_head.
  destruct (q =? ""); [apply IH|].
  destruct (apply_aliases _ (proj_aliases a) schema) as [q'|[m|k|m]];
    try reflexivity; [|apply IH].
  destruct (swallow _ eng) as [e3 [u|e]]; [apply IH|reflexivity].
Qed.

(** X14: building views (or tables) returns normally exactly when every
    projection of that type has its [name] and [query] keys, whatever the
    engine answers and whatever the aliases: a statement the engine refuses
    and an alias outside the schema never make the builder raise, a missing
    key always does. *)
Theorem builders_return_iff_keys (table : string) (projections : list Projection)
  (schema : Schema) (eng : Engine) :
  (snd (create_views_with_projection engine_accepts table projections schema eng) = Ok tt
   <-> (forall p, In p projections -> proj_type p = Some "view" ->
                  proj_name p <> None /\ proj_query p <> None))
  /\ (snd (create_tables_with_projection engine_accepts table projections schema eng)
      = Ok tt
      <-> (forall p, In p projections -> proj_type p = Some "table" ->
                     proj_name p <> None /\ proj_query p <> None)).
Proof.
  unfold create_views_with_projection, create_tables_with_projection.
  split; rewrite create_ok_iff; split; intros H p Hp Ht; apply H; try assumption;
    now apply is_string_true.
Qed.

(** X15: each builder looks only at the projections of its own type: the
    views builder does on a list what it does on the views of the list, and
    the tables builder what it does on its tables, so a projection of
    another type has no effect on it, whatever keys it lacks. *)
Theorem builders_select_their_type (table : string) (projections : list Projection)
  (schema : Schema) (eng : Engine) :
  create_views_with_projection engine_accepts table projections schema eng
  = create_views_with_projection engine_accepts table
      (filter (fun p => is_string "view" (proj_type p)) projections) schema eng
  /\ create_tables_with_projection engine_accepts table projections schema eng
     = create_tables_with_projection engine_accepts table
         (filter (fun p => is_string "table" (proj_type p)) projections) schema eng.
Proof.
  unfold create_views_with_projection, create_tables_with_projection.
  split; apply create_filter.
Qed.

(** X16: a view without its [name] key aborts the build: when the views
    before it have their keys, [create_views_with_projection] raises
    [KeyError] at that view with the session as those views left it, and no
    projection after it is looked at. *)
Theorem view_without_name_aborts_build (table : string) (schema : Schema)
  (ps1 ps2 : list Projection) (p : Projection) (eng : Engine) :
  proj_type p = Some "view" ->
  proj_name p = None ->
  snd (create_views_with_projection engine_accepts table ps1 schema eng) = Ok tt ->
  create_views_with_projection engine_accepts table (ps1 ++ p :: ps2) schema eng
  = (fst (create_views_with_projection engine_accepts table ps1 schema eng),
     Raise (KeyError "name")).
Proof.
  unfold create_views_with_projection. intros Ht Hn Hok.
  rewrite create_app.
  destruct (create "view" CreateOrReplaceView table ps1 schema eng) as [eng1 [[]|e]];
    [|discriminate].
  cbn [fst create_with_projection]. rewrite Ht, Hn. reflexivity.
Qed.

Lemma export_spec (output_dir : string) (ps : list Projection) :
  (forall p, In p ps -> proj_name p <> None /\ proj_type p <> None) ->
  forall eng,
    export_views_to_csv engine_accepts ps output_dir eng
    = (mkEngine (stage_table eng) (catalog eng)
         (executed eng ++ copy_statements output_dir ps),
       Ok tt).
Proof.
  induction ps as [|a ps IH]; intros Hkeys eng.
  - cbn. rewrite app_nil_r. now destruct eng.
  - destruct (Hkeys a (or_introl eq_refl)) as [Hn Ht].
    assert (Htail : forall p, In p ps -> proj_name p <> None /\ proj_type p <> None)
      by (intros p Hp; apply Hkeys; now right).
    cbn [export_views_to_csv]. unfold copy_statements. cbn [flat_map].
    fold (copy_statements output_dir ps).
    destruct (proj_name a) as [n|]; [|congruence].
    destruct (proj_type a) as [t|]; [|congruence].
    run_head.
    destruct ((t =? "view") || (t =? "table"))%bool.
    + unfold swallow. rewrite execute_unnamed by reflexivity.
      rewrite (IH Htail). cbn [stage_table catalog executed sent app].
      now rewrite <- app_assoc.
    + rewrite (IH Htail). reflexivity.
Qed.

Lemma append_assoc (a b c : string) : ((a ++ b) ++ c = a ++ (b ++ c))%string.
Proof. induction a as [|x a IH]; cbn [String.append]; [reflexivity|now rewrite IH]. Qed.

Lemma ends_with_sep_app (s a : string) :
  s <> ""%string -> ends_with_sep (a ++ s) = ends_with_sep s.
Proof.
  intros Hs. induction a as [|c a IH]; [reflexivity|].
  cbn [String.append ends_with_sep]. rewrite IH.
  destruct (a ++ s)%string eqn:E; [|reflexivity].
  destruct a; [contradiction|discriminate E].
Qed.

Lemma exports_directory (output_dir : string) :
  path_join output_dir "exports"
  = (if output_dir =? "" then "exports"
     else if ends_with_sep output_dir then output_dir ++ "exports"
          else output_dir ++ "/exports")%string
  /\ (path_join output_dir "exports" =? "") = false
  /\ ends_with_sep (path_join output_dir "exports") = false.
Proof.
  assert (Hne : forall a s, s <> ""%string -> ((a ++ s) =? "")%string = false).
  { intros a s Hs. apply String.eqb_neq. destruct a; [exact Hs|discriminate]. }
  unfold path_join. cbn [starts_with Ascii.eqb Bool.eqb andb].
  destruct (output_dir =? "") eqn:E; cbn [orb].
  - apply String.eqb_eq in E. subst. repeat split.
  - destruct (ends_with_sep output_dir).
    + split; [reflexivity|]. split; [now apply Hne|].
      now rewrite ends_with_sep_app.
    + split; [reflexivity|]. split; [now apply Hne|].
      now rewrite ends_with_sep_app.
Qed.

(** X17: [export_views_to_csv] sends one [COPY] for every projection of
    type [view] or [table], in the order of the list, also for those that
    were never built; it skips the other types; and, the projections
    having their [name] and [type] keys, it returns normally whatever the
    engine answers, leaving the stage table and the projections as they
    were.  The file of a projection is its name with [.csv], joined to the
    [exports] directory as [os.path.join] does: no separator is doubled after
    an output directory that ends with one, and a name that starts with the
    separator leaves the directory. *)
Theorem export_copies_every_view_and_table (output_dir : string)
  (projections : list Projection) (eng : Engine) :
  (forall p, In p projections -> proj_name p <> None /\ proj_type p <> None) ->
  export_views_to_csv engine_accepts projections output_dir eng
  = (mkEngine (stage_table eng) (catalog eng)
       (executed eng ++ copy_statements output_dir projections),
     Ok tt)
  /\ (forall name, starts_with "/" name = true ->
                   export_path output_dir name = (name ++ ".csv")%string)
  /\ (forall name, starts_with "/" name = false ->
                   export_path output_dir name
                   = (if output_dir =? "" then "exports/" ++ name ++ ".csv"
                      else if ends_with_sep output_dir
                           then output_dir ++ "exports/" ++ name ++ ".csv"
                           else output_dir ++ "/exports/" ++ name ++ ".csv")%string).
Proof.
  intros H. split; [now apply export_spec|].
  assert (Hs : forall name, starts_with "/" (name ++ ".csv") = starts_with "/" name)
    by (intros name; now destruct name).
  destruct (exports_directory output_dir) as (Hdir & Hne & Hend).
  unfold export_path, path_join at 1 3. split.
  - intros name Hn. now rewrite Hs, Hn.
  - intros name Hn. rewrite Hs, Hn, Hne, Hend, Hdir. cbn [orb].
    destruct (output_dir =? ""); [reflexivity|].
    destruct (ends_with_sep output_dir); rewrite append_assoc; reflexivity.
Qed.




End Builders.

Lemma view_without_name_aborts_build_witness :
  create_views_with_projection accept_all "employees"
    ([view_ids] ++ mkProjection (Some "view") None (Some "SELECT 1") [] :: [view_birthdays])
    employee_schema (mkEngine employees_stage [] [])
  = (fst (create_views_with_projection accept_all "employees" [view_ids] employee_schema
            (mkEngine employees_stage [] [])),
     Raise (KeyError "name")).
Proof.
  apply (view_without_name_aborts_build accept_all "employees" employee_schema
           [view_ids] [view_birthdays]
           (mkProjection (Some "view") None (Some "SELECT 1") [])
           (mkEngine employees_stage [] [])); reflexivity.
Defined.

Lemma export_copies_every_view_and_table_witness :
  export_views_to_csv accept_all [view_ids; view_salaries] "out/"
    (mkEngine employees_stage [] [])
  = (mkEngine employees_stage []
       [CopyToCsv "ids" "out/exports/ids.csv";
        CopyToCsv "salaries" "out/exports/salaries.csv"],
     Ok tt).
Proof.
  apply (export_copies_every_view_and_table accept_all "out/"
           [view_ids; view_salaries] (mkEngine employees_stage [] [])).
  intros p [<-|[<-|[]]]; split; discriminate.
Defined.

(** ** Dicts and defaults *)

Lemma fillna_get (defaults : list (string * Value)) (r : Row) (k : string) :
  get k (fillna defaults r)
  = match get k r, lookup k defaults with
    | VNull, Some d => if existsb (String.eqb k) (map fst r) then d else VNull
    | v, _ => v
    end.
Proof.
  unfold fillna. induction r as [|[k' v] r IH].
  - cbn. now destruct (lookup k defaults).
  - cbn [map get fst snd existsb].
    destruct (String.eqb k k') eqn:E.
    + apply String.eqb_eq in E. subst k'.
      destruct v; destruct (lookup k defaults); cbn [fst snd get];
        rewrite ?String.eqb_refl; reflexivity.
    + cbn [orb]. rewrite <- IH.
      destruct v; destruct (lookup k' defaults); cbn [get]; rewrite E; reflexivity.
Qed.

(** X20: the defaults of [validate_records_with_pydantic] touch null
    cells of the four listed fields only: filling keeps the fields of the
    record and their order, is idempotent, leaves every non-null cell and
    every cell of another field as it was, and leaves no listed field of the
    record null. *)
Theorem fillna_fills_listed_nulls_only (r : Row) :
  map fst (fillna nullable_defaults r) = map fst r
  /\ fillna nullable_defaults (fillna nullable_defaults r) = fillna nullable_defaults r
  /\ (forall k, get k r <> VNull -> get k (fillna nullable_defaults r) = get k r)
  /\ (forall k, ~ In k (map fst nullable_defaults) ->
                get k (fillna nullable_defaults r) = get k r)
  /\ (forall k, In k (map fst nullable_defaults) -> In k (map fst r) ->
                get k (fillna nullable_defaults r) <> VNull).
Proof.
  split; [|split; [|split; [|split]]].
  - unfold fillna. rewrite map_map. apply map_ext. intros [k v]. cbn [fst snd].
    now destruct v; destruct (lookup k nullable_defaults).
  - unfold fillna. rewrite map_map. apply map_ext. intros [k v]. cbn [fst snd].
    destruct v; try (destruct (lookup k nullable_defaults); reflexivity).
    destruct (lookup k nullable_defaults) as [d|] eqn:E; cbn [fst snd]; rewrite ?E;
      [|reflexivity].
    assert (d <> VNull).
    { unfold nullable_defaults in E. cbn [lookup] in E.
      repeat match type of E with
             | (if ?b then _ else _) = _ => destruct b
             end; try discriminate; injection E as <-; discriminate. }
    now destruct d.
  - intros k H. rewrite fillna_get. now destruct (get k r).
  - intros k H. rewrite fillna_get.
    assert (lookup k nullable_defaults = None).
    { destruct (lookup k nullable_defaults) eqn:E; [|reflexivity]. exfalso. apply H.
      clear - E. induction nullable_defaults as [|[k' v'] l IH]; [discriminate|].
      cbn [lookup] in E. destruct (String.eqb k k') eqn:Ek.
      - apply String.eqb_eq in Ek. subst. now left.
      - right. now apply IH. }
    rewrite H0. now destruct (get k r).
  - intros k Hk Hr. rewrite fillna_get.
    apply existsb_eqb_in in Hr. rewrite Hr.
    destruct (get k r) eqn:G; try discriminate.
    cbn [map fst nullable_defaults In] in Hk.
    destruct Hk as [<-|[<-|[<-|[<-|[]]]]]; cbn; discriminate.
Qed.

Lemma keys_dict_set {A : Type} (k : string) (v : A) (d : list (string * A)) :
  map fst (dict_set k v d)
  = if existsb (String.eqb k) (map fst d) then map fst d else map fst d ++ [k].
Proof.
  induction d as [|[k' v'] d IH]; [reflexivity|].
  cbn [dict_set map fst existsb]. destruct (String.eqb k k') eqn:E; cbn [orb map fst].
  - apply String.eqb_eq in E. now subst.
  - rewrite IH. now destruct (existsb (String.eqb k) (map fst d)).
Qed.

Lemma lookup_app {A : Type} (k : string) (d1 d2 : list (string * A)) :
  lookup k (d1 ++ d2) = match lookup k d1 with Some v => Some v | None => lookup k d2 end.
Proof.
  induction d1 as [|[k' v'] d1 IH]; [reflexivity|].
  cbn [app lookup]. now destruct (String.eqb k k').
Qed.

Lemma lookup_none {A : Type} (k : string) (d : list (string * A)) :
  lookup k d = None <-> ~ In k (map fst d).
Proof.
  induction d as [|[k' v'] d IH]; [cbn; tauto|].
  cbn [lookup map fst In]. destruct (String.eqb k k') eqn:E.
  - apply String.eqb_eq in E. subst. split; [discriminate|]. intros H. exfalso. apply H.
    now left.
  - apply String.eqb_neq in E. rewrite IH. split.
    + intros H [H1|H1]; [now subst|contradiction].
    + tauto.
Qed.

Lemma get_lookup (k : string) (r : Row) :
  get k r = match lookup k r with Some v => v | None => VNull end.
Proof.
  induction r as [|[k' v'] r IH]; [reflexivity|].
  cbn [get lookup]. now destruct (String.eqb k k').
Qed.

Lemma first_seen_ext (ks : list string) :
  forall s1 s2,
    (forall x, existsb (String.eqb x) s1 = existsb (String.eqb x) s2) ->
    first_seen s1 ks = first_seen s2 ks.
Proof.
  induction ks as [|k ks IH]; intros s1 s2 H; [reflexivity|].
  cbn [first_seen]. rewrite (H k). destruct (existsb (String.eqb k) s2); [now apply IH|].
  f_equal. apply IH. intros x. cbn [existsb]. now rewrite H.
Qed.

Lemma fold_dict_set_lookup {A : Type} (items : list (string * A)) :
  forall (acc : list (string * A)) (k : string),
    lookup k (fold_left (fun d kv => dict_set (fst kv) (snd kv) d) items acc)
    = match lookup k (rev items) with Some v => Some v | None => lookup k acc end.
Proof.
  induction items as [|[k0 v0] items IH]; intros acc k; [reflexivity|].
  cbn [fold_left rev fst snd]. rewrite IH, lookup_app.
  destruct (lookup k (rev items)); [reflexivity|].
  cbn [lookup]. destruct (String.eqb k k0) eqn:E.
  - apply String.eqb_eq in E. subst. apply lookup_dict_set_same.
  - now apply lookup_dict_set_other.
Qed.

Lemma fold_dict_set_keys {A : Type} (items : list (string * A)) :
  forall acc : list (string * A),
    map fst (fold_left (fun d kv => dict_set (fst kv) (snd kv) d) items acc)
    = map fst acc ++ first_seen (map fst acc) (map fst items).
Proof.
  induction items as [|[k0 v0] items IH]; intros acc.
  - cbn. now rewrite app_nil_r.
  - cbn [fold_left map fst snd first_seen]. rewrite IH, keys_dict_set.
    destruct (existsb (String.eqb k0) (map fst acc)) eqn:E; [reflexivity|].
    rewrite <- app_assoc. cbn [app]. do 2 f_equal. apply first_seen_ext.
    intros x. rewrite existsb_app. cbn [existsb]. rewrite orb_false_r. apply orb_comm.
Qed.

(** X21: the dict [{rule["field"]: rule for rule in ...}] that [main] hands
    to the rule stage holds one rule per field: its fields are the distinct
    fields of the configured rules in order of first appearance, and a field
    listed more than once keeps its last rule only. *)
Theorem rules_dict_keeps_last_rule_per_field {A : Type} (rules : list (string * A)) :
  let custom_validations :=
    fold_left (fun d fr => dict_set (fst fr) (snd fr) d) rules [] in
  map fst custom_validations = first_seen [] (map fst rules)
  /\ NoDup (map fst custom_validations)
  /\ forall field, lookup field custom_validations = lookup field (rev rules).
Proof.
  cbv zeta. rewrite fold_dict_set_keys. cbn [map app].
  split; [reflexivity|]. split; [apply first_seen_nodup|].
  intros field. rewrite fold_dict_set_lookup. now destruct (lookup field (rev rules)).
Qed.

(** X22: in a row of the schema-error file the record's own cells come
    last in the dict literal, so a data column named [row] or [errors]
    replaces the row number or the joined messages; these two are written as
    such only when the record has no column of that name.  The columns are
    [row], [errors], then the record's other columns in order. *)
Theorem error_row_data_overrides (e : ErrorRecord) :
  (forall k v, lookup k (rev (data e)) = Some v -> get k (error_row e) = v)
  /\ (~ In "row"%string (map fst (data e)) ->
      get "row" (error_row e) = VInt (Z.of_nat (row e)))
  /\ (~ In "errors"%string (map fst (data e)) ->
      get "errors" (error_row e) = VStr (String.concat "; " (errors e)))
  /\ map fst (error_row e)
     = "row"%string :: "errors"%string
         :: first_seen ["row"%string; "errors"%string] (map fst (data e)).
Proof.
  assert (Hrev : forall k, ~ In k (map fst (data e)) -> lookup k (rev (data e)) = None).
  { intros k H. apply lookup_none. rewrite map_rev, <- in_rev. exact H. }
  unfold error_row. split; [|split; [|split]].
  - intros k v H. now rewrite get_lookup, fold_dict_set_lookup, H.
  - intros H. now rewrite get_lookup, fold_dict_set_lookup, (Hrev _ H).
  - intros H. now rewrite get_lookup, fold_dict_set_lookup, (Hrev _ H).
  - now rewrite fold_dict_set_keys.
Qed.

(** ** The error files of a run *)

Lemma append_inv_head (s a b : string) : (s ++ a = s ++ b)%string -> a = b.
Proof.
  induction s as [|c s IH]; cbn [String.append]; intros H; [exact H|].
  injection H as H. now apply IH.
Qed.

Lemma length_append (a b : string) :
  String.length (a ++ b) = (String.length a + String.length b)%nat.
Proof. induction a as [|c a IH]; cbn; [reflexivity|now rewrite IH]. Qed.

Lemma append_inv_tail (s : string) : forall a b, (a ++ s = b ++ s)%string -> a = b.
Proof.
  induction a as [|c a IH]; intros [|c' b] H; cbn [String.append] in H.
  - reflexivity.
  - apply (f_equal String.length) in H. cbn [String.length] in H.
    rewrite length_append in H. lia.
  - apply (f_equal String.length) in H. cbn [String.length] in H.
    rewrite length_append in H. lia.
  - injection H as -> H. f_equal. now apply IH.
Qed.

Lemma path_join_injective (d entity t1 t2 : string) :
  path_join d (entity ++ "_" ++ t1 ++ "_errors.csv")
  = path_join d (entity ++ "_" ++ t2 ++ "_errors.csv") -> t1 = t2.
Proof.
  unfold path_join.
  assert (E : starts_with "/" (entity ++ "_" ++ t1 ++ "_errors.csv")
              = starts_with "/" (entity ++ "_" ++ t2 ++ "_errors.csv")).
  { destruct entity as [|x entity]; reflexivity. }
  rewrite E. intros H.
  assert (Hfile : (entity ++ "_" ++ t1 ++ "_errors.csv"
                   = entity ++ "_" ++ t2 ++ "_errors.csv")%string).
  { destruct (starts_with "/" (entity ++ "_" ++ t2 ++ "_errors.csv")); [exact H|].
    destruct ((d =? "") || ends_with_sep d)%bool.
    - now apply append_inv_head in H.
    - now apply append_inv_head, append_inv_head in H. }
  apply append_inv_head, append_inv_head in Hfile.
  now apply append_inv_tail in Hfile.
Qed.

Lemma error_path_injective (output_dir entity t1 t2 : string) :
  error_path output_dir entity t1 = error_path output_dir entity t2 -> t1 = t2.
Proof. unfold error_path. apply path_join_injective. Qed.

Lemma subsequence_NoDup {A : Type} (l1 l2 : list A) :
  subsequence l1 l2 -> NoDup l2 -> NoDup l1.
Proof.
  induction 1 as [|x l1 l2 Hs IH|x l1 l2 Hs IH]; intros Hn.
  - constructor.
  - inversion Hn as [|? ? Hx Hl]; subst. constructor; [|now apply IH].
    intros Hin. apply Hx. now apply (subsequence_in l1 l2).
  - inversion Hn; subst. now apply IH.
Qed.

Lemma error_types_nodup (fields : list string) : NoDup fields -> NoDup (error_types fields).
Proof.
  intros H. unfold error_types. constructor; [|constructor].
  - intros [E|Hin]; [discriminate|]. apply in_map_iff in Hin.
    destruct Hin as (f & E & _). discriminate.
  - intros Hin. apply in_map_iff in Hin. destruct Hin as (f & E & _). discriminate.
  - induction H as [|f fields Hf Hn IH]; [constructor|].
    cbn [map]. constructor; [|exact IH]. intros Hin. apply in_map_iff in Hin.
    destruct Hin as (g & E & Hg). apply append_inv_head in E. now subst.
Qed.

Lemma error_types_parts (t1 t2 fields : list string) :
  (t1 = [] \/ t1 = ["schema_validation"%string]) ->
  (t2 = [] \/ t2 = ["duplicates"%string]) ->
  subsequence (t1 ++ t2 ++ map (String.append "custom_") fields) (error_types fields).
Proof.
  unfold error_types.
  intros [->| ->] [->| ->]; cbn [app];
    repeat first [apply subsequence_keep | apply subsequence_drop];
    apply subsequence_refl.
Qed.

Lemma save_frame_paths (d : list Row) (t entity output_dir : string)
  (fs : list (string * list Row)) :
  map fst (save_errors (FrameData d) t entity output_dir fs)
  = map fst fs ++ map (error_path output_dir entity)
                      (match d with [] => [] | _ => [t] end).
Proof.
  destruct d; cbn [save_errors map]; [now rewrite app_nil_r|].
  now rewrite map_app.
Qed.

Lemma save_issues_paths (entity output_dir : string) (issues : list Issue) :
  forall fs,
    map fst (fold_left (save_issue entity output_dir) issues fs)
    = map fst fs
      ++ map (error_path output_dir entity)
           (map (String.append "custom_")
              (map issue_field
                 (filter (fun x => match invalid_rows x with [] => false | _ => true end)
                    issues))).
Proof.
  induction issues as [|x issues IH]; intros fs.
  - cbn. now rewrite app_nil_r.
  - cbn [fold_left filter]. rewrite IH. unfold save_issue.
    destruct (invalid_rows x) eqn:E; [reflexivity|].
    rewrite save_frame_paths. cbn [map]. now rewrite <- app_assoc.
Qed.

Section Runs.

Variable clock : nat -> string.
Variable age_lt : string -> Z -> Value -> option bool.
Variable engine_accepts : Engine -> Statement -> bool.
Variable create_pydantic_model : Schema -> Model.

Local Abbreviation run := (main clock age_lt engine_accepts create_pydantic_model).
Local Abbreviation checked := (validate_format_with_pydantic create_pydantic_model).

Lemma rule_stage_fields (rules : list (string * CustomRule)) (mode : string)
  (eng eng' : Engine) (issues : list Issue) (total : nat) :
  execute_custom_validations clock age_lt
    (fold_left (fun d fr => dict_set (fst fr) (snd fr) d) rules []) mode eng
  = (eng', Ok (issues, total)) ->
  NoDup (map issue_field issues) /\ ((mode =? "stop") = true -> issues = []).
Proof.
  unfold execute_custom_validations. intros H.
  destruct (loop_keeps clock age_lt _ _ _ _ _ _ _ _ H) as (_ & _ & _ & _ & Hres).
  destruct (Hres issues total eq_refl) as (Hstop & recorded & -> & Hsub).
  cbn [app] in *. split; [|intros E; now destruct (Hstop E)].
  apply (subsequence_NoDup _ _ Hsub).
  rewrite fold_dict_set_keys. apply first_seen_nodup.
Qed.

(** The files of a run are named after error types, in the order of
    [error_types]; stop mode leaves no rule's type among them. *)
Lemma run_file_types (entity output_dir : string) (df : Table) (schema_fields : Schema)
  (rules : list (string * CustomRule)) (duplicate_resolution mode : string)
  (unique_composite : list (list string)) (projections : list Projection) :
  exists fields types,
    NoDup fields
    /\ ((mode =? "stop") = true -> fields = [])
    /\ (snd (checked df schema_fields) = [] -> ~ In "schema_validation"%string types)
    /\ subsequence types (error_types fields)
    /\ map fst (files (run entity output_dir df schema_fields rules duplicate_resolution
                         mode unique_composite projections))
       = map (error_path output_dir entity) types.
Proof.
  unfold main. destruct (checked df schema_fields) as [valid errs]. cbn [snd].
  set (t1 := match errs with [] => [] | _ => ["schema_validation"%string] end).
  assert (Ht1 : t1 = [] \/ t1 = ["schema_validation"%string]).
  { subst t1. destruct errs; [now left|now right]. }
  assert (Hnone : errs = [] -> t1 = []) by (intros ->; reflexivity).
  set (files1 := match errs with
                 | [] => []
                 | _ => save_errors (RecordData errs) "schema_validation" entity
                          output_dir []
                 end).
  assert (H1 : map fst files1 = map (error_path output_dir entity) t1).
  { subst files1 t1. now destruct errs. }
  assert (Hearly : exists fields types,
             NoDup fields
             /\ ((mode =? "stop") = true -> fields = [])
             /\ (errs = [] -> ~ In "schema_validation"%string types)
             /\ subsequence types (error_types fields)
             /\ map fst files1 = map (error_path output_dir entity) types).
  { exists [], t1. split; [constructor|]. split; [reflexivity|].
    split; [intros E; rewrite (Hnone E); tauto|]. split; [|exact H1].
    rewrite <- (app_nil_r t1). apply (error_types_parts t1 [] []); [exact Ht1|now left]. }
  destruct (match errs with [] => false | _ => mode =? "stop" end); [exact Hearly|].
  destruct (remove_duplicates_from_stage_table valid unique_composite duplicate_resolution)
    as [[stage dups]|e]; [|exact Hearly].
  set (t2 := match dups with [] => [] | _ => ["duplicates"%string] end).
  assert (Ht2 : t2 = [] \/ t2 = ["duplicates"%string]).
  { subst t2. destruct dups; [now left|now right]. }
  set (files2 := match dups with
                 | [] => files1
                 | _ => save_errors (FrameData dups) "duplicates" entity output_dir files1
                 end).
  assert (H2 : map fst files2 = map (error_path output_dir entity) (t1 ++ t2)).
  { subst files2 t2. rewrite map_app, <- H1. destruct dups as [|d dups].
    - cbn [map]. now rewrite app_nil_r.
    - now rewrite save_frame_paths. }
  assert (Hschema : forall l, errs = [] ->
                              ~ In "schema_validation"%string
                                  (t1 ++ t2 ++ map (String.append "custom_") l)).
  { intros l E. rewrite (Hnone E). cbn [app]. intros Hin. apply in_app_or in Hin.
    destruct Hin as [Hin|Hin].
    - destruct Ht2 as [->| ->]; [contradiction|]. destruct Hin as [Hin|[]]. discriminate.
    - apply in_map_iff in Hin. destruct Hin as (f & Hf & _). discriminate. }
  destruct (execute_custom_validations clock age_lt _ mode (mkEngine stage [] []))
    as [eng [[issues total]|e]] eqn:Hrules.
  - destruct (rule_stage_fields _ _ _ _ _ _ Hrules) as [Hnd Hstop].
    set (fields := map issue_field
                     (filter (fun x => match invalid_rows x with [] => false | _ => true end)
                        issues)).
    assert (H3 : map fst (fold_left (save_issue entity output_dir) issues files2)
                 = map (error_path output_dir entity)
                     (t1 ++ t2 ++ map (String.append "custom_") fields)).
    { rewrite save_issues_paths, H2, app_assoc. now rewrite (map_app _ (t1 ++ t2)). }
    assert (Hall : exists fields types,
               NoDup fields
               /\ ((mode =? "stop") = true -> fields = [])
               /\ (errs = [] -> ~ In "schema_validation"%string types)
               /\ subsequence types (error_types fields)
               /\ map fst (fold_left (save_issue entity output_dir) issues files2)
                  = map (error_path output_dir entity) types).
    { exists fields, (t1 ++ t2 ++ map (String.append "custom_") fields).
      split; [now apply NoDup_map_filter|].
      split; [intros E; subst fields; now rewrite (Hstop E)|].
      split; [apply Hschema|]. split; [now apply error_types_parts|exact H3]. }
    match goal with
    | |- context [match ?m with (_, _) => _ end] => destruct m as [eng' [?|?]]
    end; exact Hall.
  - exists [], (t1 ++ t2). split; [constructor|]. split; [reflexivity|].
    split; [intros E; specialize (Hschema [] E); cbn [map] in Hschema;
            now rewrite app_nil_r in Hschema|].
    split; [|exact H2].
    pose proof (error_types_parts t1 t2 [] Ht1 Ht2) as Hp. cbn [map] in Hp.
    now rewrite app_nil_r in Hp.
Qed.

Lemma save_frame_extends (d : list Row) (t entity output_dir : string)
  (fs : list (string * list Row)) :
  exists more, save_errors (FrameData d) t entity output_dir fs = fs ++ more.
Proof.
  destruct d; cbn [save_errors]; [exists []; now rewrite app_nil_r|].
  eexists. reflexivity.
Qed.

Lemma save_issues_extend (entity output_dir : string) (issues : list Issue) :
  forall fs, exists more, fold_left (save_issue entity output_dir) issues fs = fs ++ more.
Proof.
  induction issues as [|x issues IH]; intros fs; [exists []; now rewrite app_nil_r|].
  cbn [fold_left]. destruct (IH (save_issue entity output_dir fs x)) as [more ->].
  unfold save_issue. destruct (invalid_rows x); [now exists more|].
  destruct (save_frame_extends (r :: l) ("custom_" ++ issue_field x) entity output_dir fs)
    as [m ->].
  exists (m ++ more). now rewrite app_assoc.
Qed.

Lemma handler_not_stopped (e : Exn) : handler e <> StoppedOnSchemaErrors.
Proof. now destruct e. Qed.

(** The two ways a run goes: it stops on schema errors in stop mode, with
    their file alone and no session; or it goes on, and whatever it writes
    comes after the schema file. *)
Lemma run_shape (entity output_dir : string) (df : Table) (schema_fields : Schema)
  (rules : list (string * CustomRule)) (duplicate_resolution mode : string)
  (unique_composite : list (list string)) (projections : list Projection) :
  let errs := snd (checked df schema_fields) in
  let r := run entity output_dir df schema_fields rules duplicate_resolution mode
             unique_composite projections in
  let files1 :=
    match errs with
    | [] => []
    | _ => [(error_path output_dir entity "schema_validation", map error_row errs)]
    end in
  (errs <> [] /\ (mode =? "stop") = true
   /\ r = mkRun files1 StoppedOnSchemaErrors None)
  \/ ((errs = [] \/ (mode =? "stop") = false)
      /\ outcome r <> StoppedOnSchemaErrors
      /\ exists more, files r = files1 ++ more).
Proof.
  cbv zeta. unfold main. destruct (checked df schema_fields) as [valid errs]. cbn [snd].
  set (files1 := match errs with
                 | [] => []
                 | _ => [(error_path output_dir entity "schema_validation",
                          map error_row errs)]
                 end).
  assert (E1 : match errs with
               | [] => []
               | _ => save_errors (RecordData errs) "schema_validation" entity
                        output_dir []
               end = files1).
  { subst files1. now destruct errs. }
  rewrite E1.
  destruct (match errs with [] => false | _ => mode =? "stop" end) eqn:Hstop.
  - left. destruct errs as [|e0 errs]; [discriminate|]. now repeat split.
  - right. split.
    { destruct errs; [now left|now right]. }
    destruct (remove_duplicates_from_stage_table valid unique_composite
                duplicate_resolution) as [[stage dups]|e].
    2:{ cbn [outcome files]. split; [apply handler_not_stopped|].
        exists []. now rewrite app_nil_r. }
    assert (E2 : exists m2, match dups with
                            | [] => files1
                            | _ => save_errors (FrameData dups) "duplicates" entity
                                     output_dir files1
                            end = files1 ++ m2).
    { destruct dups; [exists []; now rewrite app_nil_r|apply save_frame_extends]. }
    destruct E2 as [m2 ->].
    destruct (execute_custom_validations clock age_lt _ mode (mkEngine stage [] []))
      as [eng [[issues total]|e]].
    2:{ cbn [outcome files]. split; [apply handler_not_stopped|]. now exists m2. }
    destruct (save_issues_extend entity output_dir issues (files1 ++ m2)) as [m3 ->].
    match goal with
    | |- context [match ?m with (_, _) => _ end] => destruct m as [eng' [?|e]]
    end; cbn [outcome files].
    + split; [discriminate|]. exists (m2 ++ m3). now rewrite app_assoc.
    + split; [apply handler_not_stopped|]. exists (m2 ++ m3). now rewrite app_assoc.
Qed.

Lemma NoDup_map_injective {A B : Type} (f : A -> B) (l : list A) :
  (forall x y, f x = f y -> x = y) -> NoDup l -> NoDup (map f l).
Proof.
  intros Hf. induction 1 as [|x l Hx Hn IH]; cbn [map]; constructor; [|exact IH].
  intros Hin. apply in_map_iff in Hin. destruct Hin as (y & E & Hy).
  apply Hf in E. now subst.
Qed.

(** X23: a run never writes two error files to one path, however it ends:
    the schema file, the duplicates file and the rule files (one per field
    of the rules dict at most) have distinct names, so no error report
    overwrites another. *)
Theorem no_error_file_is_overwritten (entity output_dir : string) (df : Table)
  (schema_fields : Schema) (rules : list (string * CustomRule))
  (duplicate_resolution mode : string) (unique_composite : list (list string))
  (projections : list Projection) :
  NoDup (map fst (files (run entity output_dir df schema_fields rules
                           duplicate_resolution mode unique_composite projections))).
Proof.
  destruct (run_file_types entity output_dir df schema_fields rules duplicate_resolution
              mode unique_composite projections)
    as (fields & types & Hnd & _ & _ & Hsub & ->).
  apply NoDup_map_injective; [apply error_path_injective|].
  apply (subsequence_NoDup _ _ Hsub). now apply error_types_nodup.
Qed.

(** X24: in stop mode a run writes no rule file at all: every file it
    leaves is the schema-error file or the duplicates file, and when the run
    completes, the duplicates file is the only one there can be. *)
Theorem stop_mode_writes_no_rule_file (entity output_dir : string) (df : Table)
  (schema_fields : Schema) (rules : list (string * CustomRule))
  (duplicate_resolution mode : string) (unique_composite : list (list string))
  (projections : list Projection) (path : string) (written : list Row) :
  (mode =? "stop") = true ->
  In (path, written)
    (files (run entity output_dir df schema_fields rules duplicate_resolution mode
              unique_composite projections)) ->
  (path = error_path output_dir entity "schema_validation"
   \/ path = error_path output_dir entity "duplicates")
  /\ (outcome (run entity output_dir df schema_fields rules duplicate_resolution mode
                 unique_composite projections) = Completed ->
      path = error_path output_dir entity "duplicates").
Proof.
  intros Hmode Hin.
  destruct (run_file_types entity output_dir df schema_fields rules duplicate_resolution
              mode unique_composite projections)
    as (fields & types & _ & Hstop & Hschema & Hsub & Hpaths).
  rewrite (Hstop Hmode) in Hsub. unfold error_types in Hsub. cbn [map] in Hsub.
  assert (Hp : In path (map (error_path output_dir entity) types)).
  { rewrite <- Hpaths. apply in_map_iff. now exists (path, written). }
  apply in_map_iff in Hp. destruct Hp as (t & <- & Ht).
  pose proof (subsequence_in _ _ t Hsub Ht) as Hcases.
  split.
  - destruct Hcases as [<-|[<-|[]]]; [now left|now right].
  - intros Hdone.
    destruct (run_shape entity output_dir df schema_fields rules duplicate_resolution
                mode unique_composite projections) as [(_ & _ & E)|([E|E] & _ & _)].
    + rewrite E in Hdone. discriminate.
    + destruct Hcases as [<-|[<-|[]]]; [|reflexivity].
      exfalso. now apply (Hschema E).
    + congruence.
Qed.

(** X25: a run stops on schema errors exactly when some record failed the
    schema and the mode is [stop]; it then leaves the schema-error file alone
    and never opens the stage table.  In every other mode the run goes on
    after writing that file, which stays the first one; with no failed
    record, no file has the schema-error name. *)
Theorem schema_errors_stop_the_run_in_stop_mode_only (entity output_dir : string)
  (df : Table) (schema_fields : Schema) (rules : list (string * CustomRule))
  (duplicate_resolution mode : string) (unique_composite : list (list string))
  (projections : list Projection) :
  let errs := snd (checked df schema_fields) in
  let r := run entity output_dir df schema_fields rules duplicate_resolution mode
             unique_composite projections in
  let report := (error_path output_dir entity "schema_validation", map error_row errs) in
  (outcome r = StoppedOnSchemaErrors <-> errs <> [] /\ (mode =? "stop") = true)
  /\ (outcome r = StoppedOnSchemaErrors -> files r = [report] /\ session r = None)
  /\ (errs <> [] -> exists more, files r = report :: more)
  /\ (errs = [] -> forall f, In f (files r) -> fst f <> fst report).
Proof.
  cbv zeta.
  pose proof (run_shape entity output_dir df schema_fields rules duplicate_resolution
                mode unique_composite projections) as Hshape. cbv zeta in Hshape.
  destruct (run_file_types entity output_dir df schema_fields rules duplicate_resolution
              mode unique_composite projections)
    as (fields & types & _ & _ & Hschema & _ & Hpaths).
  set (r := run entity output_dir df schema_fields rules duplicate_resolution mode
              unique_composite projections) in *.
  set (errs := snd (checked df schema_fields)) in *.
  split; [|split; [|split]].
  - destruct Hshape as [(Hne & Hm & ->)|(Hor & Hout & _)]; [now split|].
    split; [contradiction|]. intros [Hne Hm]. destruct Hor; [contradiction|congruence].
  - intros Hout. destruct Hshape as [(Hne & Hm & ->)|(_ & Hno & _)]; [|contradiction].
    cbn [files session]. split; [|reflexivity]. now destruct errs.
  - intros Hne. destruct Hshape as [(_ & _ & ->)|(_ & _ & more & ->)].
    + exists []. cbn [files]. now destruct errs.
    + destruct errs; [contradiction|]. now exists more.
  - intros E f Hin Hf. cbn [fst] in Hf. apply (Hschema E).
    assert (Hp : In (fst f) (map (error_path output_dir entity) types)).
    { rewrite <- Hpaths. now apply in_map. }
    apply in_map_iff in Hp. destruct Hp as (t & Et & Ht).
    rewrite Hf in Et. apply error_path_injective in Et. now subst.
Qed.

End Runs.

Lemma stop_mode_writes_no_rule_file_witness :
  let r := main sample_clock sample_age_lt accept_all accept_record "employees" "output"
             employees_csv employee_schema [("birthday_on", age_rule 16)]
             "first" "stop" [["employee_id"]] [] in
  let path := "output/errors/employees_duplicates_errors.csv"%string in
  let written := [[("employee_id"%string, VInt 3);
                   ("birthday_on"%string, VDate 1995 5 15);
                   ("rn"%string, VInt 2)]] in
  (("stop" =? "stop") = true /\ In (path, written) (files r))
  /\ (path = error_path "output" "employees" "schema_validation"
      \/ path = error_path "output" "employees" "duplicates")
  /\ (outcome r = Completed -> path = error_path "output" "employees" "duplicates").
Proof.
  cbv zeta. split; [split; [reflexivity|vm_compute; now left]|].
  apply (stop_mode_writes_no_rule_file sample_clock sample_age_lt accept_all accept_record
           "employees" "output" employees_csv employee_schema
           [("birthday_on", age_rule 16)] "first" "stop" [["employee_id"]] []
           "output/errors/employees_duplicates_errors.csv"
           [[("employee_id"%string, VInt 3); ("birthday_on"%string, VDate 1995 5 15);
             ("rn"%string, VInt 2)]]).
  - reflexivity.
  - vm_compute. now left.
Defined.

(** ** The configuration check *)

(** The required keys of a mapping: the loop passes exactly when the three
    are there, and otherwise names the first that is not. *)
Lemma required_keys_of_mapping (entity : string) (fields : list (string * Yaml)) :
  required_keys_loop entity (YMap fields) ["source"; "settings"; "validations"]%string
  = match lookup "source" fields, lookup "settings" fields, lookup "validations" fields with
    | None, _, _ =>
        Failed (ConfigKeyError (missing_configuration_message "source" entity))
    | Some _, None, _ =>
        Failed (ConfigKeyError (missing_configuration_message "settings" entity))
    | Some _, Some _, None =>
        Failed (ConfigKeyError (missing_configuration_message "validations" entity))
    | Some _, Some _, Some _ => Passed tt
    end.
Proof.
  cbn [required_keys_loop py_in and_then].
  destruct (lookup "source" fields); cbn [is_some negb]; [|reflexivity].
  destruct (lookup "settings" fields); cbn [is_some negb]; [|reflexivity].
  destruct (lookup "validations" fields); reflexivity.
Qed.

Lemma required_keys_failure (entity : string) (details : Yaml) (e : ConfigExn) :
  required_keys_loop entity details ["source"; "settings"; "validations"]%string
  = Failed e ->
  e = ConfigTypeError
  \/ exists key, In key ["source"; "settings"; "validations"]%string
                 /\ e = ConfigKeyError (missing_configuration_message key entity).
Proof.
  cbn [required_keys_loop]. intros H.
  destruct (py_in "source" details) as [[|]|e1] eqn:E1; cbn [and_then negb] in H.
  - destruct (py_in "settings" details) as [[|]|e2] eqn:E2; cbn [and_then negb] in H.
    + destruct (py_in "validations" details) as [[|]|e3] eqn:E3; cbn [and_then negb] in H.
      * discriminate.
      * injection H as <-. right. exists "validations"%string. cbn; tauto.
      * injection H as <-. left. destruct details; cbn in E3; congruence.
    + injection H as <-. right. exists "settings"%string. cbn; tauto.
    + injection H as <-. left. destruct details; cbn in E2; congruence.
  - injection H as <-. right. exists "source"%string. cbn; tauto.
  - injection H as <-. left. destruct details; cbn in E1; congruence.
Qed.

(** The function on a configuration that holds a mapping for the
    entity. *)
Lemma validate_config_of_mapping (top entities fields : list (string * Yaml))
  (entity : string) :
  lookup "transformations_config" top = Some (YMap entities) ->
  lookup entity entities = Some (YMap fields) ->
  validate_config (YMap top) entity
  = (_ <-- required_keys_loop entity (YMap fields)
             ["source"; "settings"; "validations"]%string ;;
     let settings := match lookup "settings" fields with
                     | Some v => v
                     | None => YMap []
                     end in
     has_resolution <-- py_in "duplicate_resolution" settings ;;
     if negb has_resolution then
       Failed (ConfigKeyError (missing_setting_message "duplicate_resolution" entity))
     else
       has_mode <-- py_in "custom_validation_mode" settings ;;
       if negb has_mode then
         Failed (ConfigKeyError (missing_setting_message "custom_validation_mode" entity))
       else Passed (YMap fields)).
Proof.
  intros Ht He. unfold validate_config. cbn [py_get py_item and_then]. rewrite Ht.
  cbn [py_in py_item and_then]. rewrite He. reflexivity.
Qed.

(** X26: [validate_config] returns the entity's details, unchanged,
    exactly when the configuration is a mapping whose
    [transformations_config] is a mapping that holds the entity, the
    entity's details are a mapping with the [source], [settings] and
    [validations] keys, whatever their values, and both setting names pass
    Python's [in] test on the settings value: as keys of a mapping, but also
    as substrings of a string or items of a list.  [unique_composite] and
    [projections] are not asked for.  A [KeyError] it raises carries one of
    its own messages, the first missing key of source, settings,
    validations being the one named; a [settings] or
    [transformations_config] key left null raises [TypeError] instead. *)
Theorem validate_config_returns_iff (config : Yaml) (entity : string) :
  (forall details,
      validate_config config entity = Passed details <->
      exists top entities fields settings,
        config = YMap top
        /\ lookup "transformations_config" top = Some (YMap entities)
        /\ lookup entity entities = Some details
        /\ details = YMap fields
        /\ lookup "source" fields <> None
        /\ lookup "validations" fields <> None
        /\ lookup "settings" fields = Some settings
        /\ py_in "duplicate_resolution" settings = Passed true
        /\ py_in "custom_validation_mode" settings = Passed true)
  /\ (forall message,
         validate_config config entity = Failed (ConfigKeyError message) ->
         message = entity_not_found_message entity
         \/ (exists key,
                In key ["source"; "settings"; "validations"]%string
                /\ message = missing_configuration_message key entity)
         \/ (exists key,
                In key ["duplicate_resolution"; "custom_validation_mode"]%string
                /\ message = missing_setting_message key entity))
  /\ (forall top entities fields,
         config = YMap top ->
         lookup "transformations_config" top = Some (YMap entities) ->
         lookup entity entities = Some (YMap fields) ->
         (lookup "source" fields = None ->
          validate_config config entity
          = Failed (ConfigKeyError (missing_configuration_message "source" entity)))
         /\ (lookup "source" fields <> None -> lookup "settings" fields = None ->
             validate_config config entity
             = Failed (ConfigKeyError (missing_configuration_message "settings" entity)))
         /\ (lookup "source" fields <> None -> lookup "validations" fields <> None ->
             lookup "settings" fields = Some YNull ->
             validate_config config entity = Failed ConfigTypeError))
  /\ (forall top,
         config = YMap top -> lookup "transformations_config" top = Some YNull ->
         validate_config config entity = Failed ConfigTypeError).
Proof.
  split; [|split; [|split]].
  - intros details. split.
    + intros H. unfold validate_config in H.
      destruct config as [| | | | |top]; try discriminate H.
      cbn [py_get py_item and_then] in H.
      destruct (lookup "transformations_config" top) as [tc|] eqn:Ht.
      2:{ cbn in H. discriminate H. }
      destruct tc as [| | |text|items|entities]; try discriminate H.
      * cbn [py_in and_then] in H. destruct (negb (contains entity text)); discriminate H.
      * cbn [py_in and_then] in H. destruct (negb (existsb _ items)); discriminate H.
      * cbn [py_in py_item and_then] in H.
        destruct (lookup entity entities) as [d|] eqn:He; cbn [is_some negb and_then] in H;
          [|discriminate H].
        destruct (required_keys_loop entity d _) as [[]|e] eqn:Hreq;
          cbn [and_then] in H; [|discriminate H].
        destruct d as [| | | | |fields]; try discriminate H.
        rewrite required_keys_of_mapping in Hreq.
        destruct (lookup "source" fields) eqn:Hsrc; [|discriminate Hreq].
        destruct (lookup "settings" fields) as [settings|] eqn:Hst; [|discriminate Hreq].
        destruct (lookup "validations" fields) eqn:Hval; [|discriminate Hreq].
        cbn [py_get and_then] in H. rewrite Hst in H.
        destruct (py_in "duplicate_resolution" settings) as [[|]|e1] eqn:E1;
          cbn [and_then negb] in H; try discriminate H.
        destruct (py_in "custom_validation_mode" settings) as [[|]|e2] eqn:E2;
          cbn [and_then negb] in H; try discriminate H.
        injection H as <-. exists top, entities, fields, settings.
        split; [reflexivity|]. split; [exact Ht|]. split; [exact He|].
        split; [reflexivity|]. split; [congruence|]. split; [congruence|].
        split; [exact Hst|]. split; [exact E1|exact E2].
    + intros (top & entities & fields & settings & -> & Ht & He & -> & Hsrc & Hval & Hst
              & E1 & E2).
      rewrite (validate_config_of_mapping top entities fields entity Ht He).
      rewrite required_keys_of_mapping, Hst.
      destruct (lookup "source" fields); [|contradiction].
      destruct (lookup "validations" fields); [|contradiction].
      cbn [and_then]. rewrite E1. cbn [and_then negb]. rewrite E2. reflexivity.
  - intros message H. unfold validate_config in H.
    destruct config as [| | | | |top]; try discriminate H.
    cbn [py_get py_item and_then] in H.
    destruct (lookup "transformations_config" top) as [tc|] eqn:Ht.
    2:{ cbn in H. injection H as <-. now left. }
    destruct tc as [| | |text|items|entities]; try discriminate H.
    + cbn [py_in and_then] in H. destruct (negb (contains entity text));
        [injection H as <-; now left|discriminate H].
    + cbn [py_in and_then] in H. destruct (negb (existsb _ items));
        [injection H as <-; now left|discriminate H].
    + cbn [py_in py_item and_then] in H.
      destruct (lookup entity entities) as [d|] eqn:He; cbn [is_some negb and_then] in H;
        [|injection H as <-; now left].
      destruct (required_keys_loop entity d _) as [[]|e] eqn:Hreq; cbn [and_then] in H.
      * destruct (py_get d "settings" (YMap [])) as [settings|e0] eqn:Eg;
          cbn [and_then] in H; [|destruct d; cbn in Eg; congruence].
        destruct (py_in "duplicate_resolution" settings) as [[|]|e1] eqn:E1;
          cbn [and_then negb] in H.
        -- destruct (py_in "custom_validation_mode" settings) as [[|]|e2] eqn:E2;
             cbn [and_then negb] in H.
           ++ discriminate H.
           ++ injection H as <-. right; right.
              exists "custom_validation_mode"%string. cbn; tauto.
           ++ destruct settings; cbn in E2; congruence.
        -- injection H as <-. right; right.
           exists "duplicate_resolution"%string. cbn; tauto.
        -- destruct settings; cbn in E1; congruence.
      * injection H as ->.
        destruct (required_keys_failure entity d _ Hreq) as [E|(key & Hk & E)];
          [discriminate E|].
        injection E as ->. right; left. now exists key.
  - intros top entities fields -> Ht He.
    rewrite (validate_config_of_mapping top entities fields entity Ht He).
    rewrite required_keys_of_mapping.
    split; [intros ->; reflexivity|]. split.
    + intros Hsrc Hst. rewrite Hst. destruct (lookup "source" fields); [reflexivity|].
      contradiction.
    + intros Hsrc Hval Hst. rewrite Hst.
      destruct (lookup "source" fields); [|contradiction].
      destruct (lookup "validations" fields); [reflexivity|contradiction].
  - intros top -> Ht. unfold validate_config. cbn [py_get and_then]. rewrite Ht.
    reflexivity.
Qed.
